(** * DynamoDB expression compiler, request builder and paginated fetch engine

    A shallow embedding of
    - [src/repositories/dynamoDbExpressions.ts]  (attribute tracker, expression AST),
    - [src/repositories/dynamoDbQueryBuilder.ts] (query / scan request builder),
    - [src/repositories/baseDynamo.repository.ts] (paginated fetch engine; in the
      sources it follows [exampleDynamo.repository.ts]),
    together with the properties the design document states about them. *)

From stdpp Require Import gmap strings list pretty.
From Stdlib Require Import ZArith Lia.

(** ** Results of code that may throw *)

(** Every [throw new Error(...)] of the compiler and of the builder.  They are
    all raised synchronously while a request is assembled; none comes from the
    store client. *)
Inductive Error : Type :=
| AndTooFewOperands (got : nat)
| OrTooFewOperands (got : nat)
| PartitionKeyRequired
| OnlyOneIndex
| KeysOnlyOnce
| OnlyOneFilter.

Inductive Result (A : Type) : Type :=
| Ok (a : A)
| Err (e : Error).
Arguments Ok {A} a.
Arguments Err {A} e.

(** The text carried by each [Error]. *)
Definition message (e : Error) : string :=
  match e with
  | AndTooFewOperands n => "And condition must have at least 2 operands but got: " +:+ pretty n
  | OrTooFewOperands n => "Or condition must have at least 2 operands but got: " +:+ pretty n
  | PartitionKeyRequired =>
      "A key configuration using `withKeys` containing a partition key name and value is required for a query operation"
  | OnlyOneIndex => "Only one index can be specified"
  | KeysOnlyOnce => "Keys can only be specified once per query"
  | OnlyOneFilter => "Only 1 filter or filter expression can be applied per query"
  end.

(** ** dynamoDbExpressions.ts *)

Module Expressions.

Inductive Comparator : Type := CmpEq | CmpLt | CmpGt | CmpLe | CmpGe | CmpNe.

Definition comparatorText (c : Comparator) : string :=
  match c with
  | CmpEq => "=" | CmpLt => "<" | CmpGt => ">"
  | CmpLe => "<=" | CmpGe => ">=" | CmpNe => "<>"
  end.

Inductive AttributeType : Type :=
| TString | TStringSet | TNumber | TNumberSet | TBinary | TBinarySet
| TBoolean | TNull | TList | TMap.

Definition attributeTypeMap (t : AttributeType) : string :=
  match t with
  | TString => "S" | TStringSet => "SS" | TNumber => "N" | TNumberSet => "NN"
  | TBinary => "B" | TBinarySet => "BS" | TBoolean => "BOOL" | TNull => "NULL"
  | TList => "L" | TMap => "M"
  end.

(** A JavaScript [Date], as far as the compiler looks at it: the string its
    [toISOString()] method returns. *)
Record Date : Type := { toISOString : string }.

(** The literal operands: [string | number | Date | null].  [LUndefined] is
    JavaScript's [undefined]: outside the declared [Operand] type, it reaches
    the tracker only where a caller left out a property that is declared
    required, and the tracker stores it like any other literal. *)
Inductive Literal : Type :=
| LString (s : string)
| LNumber (n : Z)
| LDate (d : Date)
| LNull
| LUndefined.

(** [Operand = string | number | Date | null | AttributeName | Condition | Size],
    and the subclasses of [Condition].  [Size] is an operand but not a
    [Condition]. *)
#[local] Unset Elimination Schemes.
Inductive Operand : Type :=
| OLiteral (v : Literal)
| OAttributeName (name : string)
| OCondition (c : Condition)
| OSize (path : string)
with Condition : Type :=
| Comparison (operand1 : Operand) (comparator : Comparator) (operand2 : Operand)
| Between (operand start finish : Operand)
| BeginsWith (operand : Operand) (beginsWith : string)
| In (operand : Operand) (list : list Operand)
| And (conditions : list Condition)
| Or (conditions : list Condition)
| Not (condition : Condition)
| Exists (path : string)
| NotExists (path : string)
| Type_ (path : string) (type : AttributeType)
| Contains (path : string) (operand : Operand).
#[local] Set Elimination Schemes.

(** [A(name)] *)
Definition A (name : string) : Operand := OAttributeName name.
(** [class Eq extends Comparison] *)
Definition Eq (operand1 operand2 : Operand) : Condition :=
  Comparison operand1 CmpEq operand2.
(** [class KeyConditionComparison extends Comparison] *)
Definition KeyConditionComparison (keyName : string) (comparator : Comparator)
    (operand2 : Operand) : Condition :=
  Comparison (A keyName) comparator operand2.

(** *** AttributeTracker *)

Record AttributeTracker : Type := {
  valueCounter : nat;
  attributeNames : gmap string string;
  attributeValues : gmap string Literal
}.

(** [new AttributeTracker()] *)
Definition newAttributeTracker : AttributeTracker :=
  {| valueCounter := 0; attributeNames := ∅; attributeValues := ∅ |}.

(** Code that reads and mutates one tracker and may throw. *)
Definition Build (A : Type) : Type := AttributeTracker → Result (A * AttributeTracker).

Definition ret {A} (a : A) : Build A := λ t, Ok (a, t).
Definition throw {A} (e : Error) : Build A := λ _, Err e.
Definition bind {A B} (m : Build A) (k : A → Build B) : Build B :=
  λ t, match m t with
       | Ok (a, t') => k a t'
       | Err e => Err e
       end.

Notation "'let*' x ':=' m 'in' k" := (bind m (λ x, k))
  (at level 10, x name, m at level 100, k at level 200).

Section mapM.
Context {A B : Type} (f : A → Build B).
(** [xs.map(f)] where [f] works on the tracker: left to right. *)
Fixpoint mapM (xs : list A) : Build (list B) :=
  match xs with
  | [] => ret []
  | x :: xs' => let* y := f x in let* ys := mapM xs' in ret (y :: ys)
  end.
End mapM.

(** [value instanceof Date ? value.toISOString() : value] *)
Definition convertValue (value : Literal) : Literal :=
  match value with
  | LDate d => LString (toISOString d)
  | v => v
  end.

(** [alias ?? dflt] *)
Definition orElse {A} (alias : option A) (dflt : A) : A :=
  match alias with Some a => a | None => dflt end.

Definition getName (attrName : string) (alias : option string) : Build string :=
  λ t,
    let mapped := "#" +:+ orElse alias attrName in
    Ok (mapped, {| valueCounter := valueCounter t;
                   attributeNames := <[mapped := attrName]> (attributeNames t);
                   attributeValues := attributeValues t |}).

Definition getValue (value : Literal) (alias : option string) : Build string :=
  λ t,
    let attrName := orElse alias "v_sub" in
    let mapped := ":" +:+ attrName +:+ pretty (valueCounter t) in
    Ok (mapped, {| valueCounter := S (valueCounter t);
                   attributeNames := attributeNames t;
                   attributeValues := <[mapped := convertValue value]> (attributeValues t) |}).

(** [path.split(".")]: never empty, [""] for the empty string. *)
Fixpoint split (sep : Ascii.ascii) (s : string) : list string :=
  match s with
  | EmptyString => [""]
  | String c s' =>
      if Ascii.eqb c sep then "" :: split sep s'
      else match split sep s' with
           | [] => [String c ""]
           | p :: ps => String c p :: ps
           end
  end.

(** [escapePath]: [tracker.get(A(part))] is [getName part undefined]. *)
Definition escapePath (path : string) : Build string :=
  let* parts := mapM (λ part, getName part None) (split (Ascii.ascii_of_nat 46) path) in
  ret (String.concat "." parts).

(** [AttributeTracker.get] and the [build] method of every node. *)
Fixpoint get (value : Operand) (alias : option string) {struct value} : Build string :=
  match value with
  | OCondition c => build c
  | OSize path =>
      let* p := escapePath path in ret ("size(" +:+ p +:+ ")")
  | OAttributeName name => getName name alias
  | OLiteral v => getValue v alias
  end
with build (c : Condition) {struct c} : Build string :=
  match c with
  | Comparison operand1 comparator operand2 =>
      let* attributeName := get operand1 None in
      let* attributeValue := get operand2 None in
      ret (attributeName +:+ " " +:+ comparatorText comparator +:+ " " +:+ attributeValue)
  | Between operand start finish =>
      let* attributeName := get operand None in
      let* s := get start None in
      let* e := get finish None in
      ret (attributeName +:+ " BETWEEN " +:+ s +:+ " AND " +:+ e)
  | BeginsWith operand beginsWith =>
      let* attributeName := get operand None in
      let* attributeValue := getValue (LString beginsWith) None in
      ret ("begins_with(" +:+ attributeName +:+ ", " +:+ attributeValue +:+ ")")
  | In operand list =>
      let* attributeName := get operand None in
      let* attributeValues := mapM (λ o, get o None) list in
      ret (attributeName +:+ " IN (" +:+ String.concat ", " attributeValues +:+ ")")
  | And conditions =>
      if (length conditions <? 2)%nat then throw (AndTooFewOperands (length conditions))
      else
        let* built := mapM build conditions in
        ret ("(" +:+ String.concat ") AND (" built +:+ ")")
  | Or conditions =>
      if (length conditions <? 2)%nat then throw (OrTooFewOperands (length conditions))
      else
        let* built := mapM build conditions in
        ret ("(" +:+ String.concat ") OR (" built +:+ ")")
  | Not condition =>
      let* b := build condition in ret ("NOT (" +:+ b +:+ ")")
  | Exists path =>
      let* p := escapePath path in ret ("attribute_exists(" +:+ p +:+ ")")
  | NotExists path =>
      let* p := escapePath path in ret ("attribute_not_exists(" +:+ p +:+ ")")
  | Type_ path type =>
      let* attributeValue := getValue (LString (attributeTypeMap type)) None in
      let* p := escapePath path in
      ret ("attribute_type(" +:+ p +:+ ", " +:+ attributeValue +:+ ")")
  | Contains path operand =>
      let* attributeValue := get operand None in
      let* p := escapePath path in
      ret ("contains(" +:+ p +:+ ", " +:+ attributeValue +:+ ")")
  end.

(** A condition in which every [And] and [Or], at any depth, has at least two
    members: the trees whose [build] raises nothing. *)
Fixpoint operandWellFormed (o : Operand) : bool :=
  match o with
  | OCondition c => wellFormed c
  | _ => true
  end
with wellFormed (c : Condition) : bool :=
  match c with
  | Comparison operand1 _ operand2 =>
      operandWellFormed operand1 && operandWellFormed operand2
  | Between operand start finish =>
      operandWellFormed operand && operandWellFormed start && operandWellFormed finish
  | BeginsWith operand _ => operandWellFormed operand
  | In operand list => operandWellFormed operand && forallb operandWellFormed list
  | And conditions => (2 <=? length conditions)%nat && forallb wellFormed conditions
  | Or conditions => (2 <=? length conditions)%nat && forallb wellFormed conditions
  | Not condition => wellFormed condition
  | Exists _ | NotExists _ | Type_ _ _ => true
  | Contains _ operand => operandWellFormed operand
  end.

End Expressions.

(** ** dynamoDbQueryBuilder.ts *)

Module QueryBuilder.
Import Expressions.

Inductive Operation : Type := OpQuery | OpScan.
Inductive SortDir : Type := Asc | Desc.

(** [QueryCommandInput | ScanCommandInput]: the request object.  Every
    property is optional in the way a JavaScript property is: [None] is a
    property that is absent (or holds [undefined]).  [ConsistentRead] stands
    for the properties only [withRaw] can set. *)
Record QueryCommandInput : Type := {
  TableName : option string;
  IndexName : option string;
  KeyConditionExpression : option string;
  FilterExpression : option string;
  ProjectionExpression : option string;
  ExpressionAttributeNames : option (gmap string string);
  ExpressionAttributeValues : option (gmap string Literal);
  Limit : option Z;
  ExclusiveStartKey : option (gmap string Literal);
  ScanIndexForward : option bool;
  ConsistentRead : option bool
}.

Definition emptyInput : QueryCommandInput :=
  {| TableName := None; IndexName := None; KeyConditionExpression := None;
     FilterExpression := None; ProjectionExpression := None;
     ExpressionAttributeNames := None; ExpressionAttributeValues := None;
     Limit := None; ExclusiveStartKey := None; ScanIndexForward := None;
     ConsistentRead := None |}.

(** Assignments [query.P = v]. *)
Definition setIndexName (v : option string) (q : QueryCommandInput) :=
  {| TableName := TableName q; IndexName := v;
     KeyConditionExpression := KeyConditionExpression q;
     FilterExpression := FilterExpression q;
     ProjectionExpression := ProjectionExpression q;
     ExpressionAttributeNames := ExpressionAttributeNames q;
     ExpressionAttributeValues := ExpressionAttributeValues q;
     Limit := Limit q; ExclusiveStartKey := ExclusiveStartKey q;
     ScanIndexForward := ScanIndexForward q; ConsistentRead := ConsistentRead q |}.
Definition setKeyConditionExpression (v : option string) (q : QueryCommandInput) :=
  {| TableName := TableName q; IndexName := IndexName q;
     KeyConditionExpression := v;
     FilterExpression := FilterExpression q;
     ProjectionExpression := ProjectionExpression q;
     ExpressionAttributeNames := ExpressionAttributeNames q;
     ExpressionAttributeValues := ExpressionAttributeValues q;
     Limit := Limit q; ExclusiveStartKey := ExclusiveStartKey q;
     ScanIndexForward := ScanIndexForward q; ConsistentRead := ConsistentRead q |}.
Definition setFilterExpression (v : option string) (q : QueryCommandInput) :=
  {| TableName := TableName q; IndexName := IndexName q;
     KeyConditionExpression := KeyConditionExpression q;
     FilterExpression := v;
     ProjectionExpression := ProjectionExpression q;
     ExpressionAttributeNames := ExpressionAttributeNames q;
     ExpressionAttributeValues := ExpressionAttributeValues q;
     Limit := Limit q; ExclusiveStartKey := ExclusiveStartKey q;
     ScanIndexForward := ScanIndexForward q; ConsistentRead := ConsistentRead q |}.
Definition setProjectionExpression (v : option string) (q : QueryCommandInput) :=
  {| TableName := TableName q; IndexName := IndexName q;
     KeyConditionExpression := KeyConditionExpression q;
     FilterExpression := FilterExpression q;
     ProjectionExpression := v;
     ExpressionAttributeNames := ExpressionAttributeNames q;
     ExpressionAttributeValues := ExpressionAttributeValues q;
     Limit := Limit q; ExclusiveStartKey := ExclusiveStartKey q;
     ScanIndexForward := ScanIndexForward q; ConsistentRead := ConsistentRead q |}.
Definition setExpressionAttributeNames (v : option (gmap string string))
    (q : QueryCommandInput) :=
  {| TableName := TableName q; IndexName := IndexName q;
     KeyConditionExpression := KeyConditionExpression q;
     FilterExpression := FilterExpression q;
     ProjectionExpression := ProjectionExpression q;
     ExpressionAttributeNames := v;
     ExpressionAttributeValues := ExpressionAttributeValues q;
     Limit := Limit q; ExclusiveStartKey := ExclusiveStartKey q;
     ScanIndexForward := ScanIndexForward q; ConsistentRead := ConsistentRead q |}.
Definition setExpressionAttributeValues (v : option (gmap string Literal))
    (q : QueryCommandInput) :=
  {| TableName := TableName q; IndexName := IndexName q;
     KeyConditionExpression := KeyConditionExpression q;
     FilterExpression := FilterExpression q;
     ProjectionExpression := ProjectionExpression q;
     ExpressionAttributeNames := ExpressionAttributeNames q;
     ExpressionAttributeValues := v;
     Limit := Limit q; ExclusiveStartKey := ExclusiveStartKey q;
     ScanIndexForward := ScanIndexForward q; ConsistentRead := ConsistentRead q |}.
Definition setLimit (v : option Z) (q : QueryCommandInput) :=
  {| TableName := TableName q; IndexName := IndexName q;
     KeyConditionExpression := KeyConditionExpression q;
     FilterExpression := FilterExpression q;
     ProjectionExpression := ProjectionExpression q;
     ExpressionAttributeNames := ExpressionAttributeNames q;
     ExpressionAttributeValues := ExpressionAttributeValues q;
     Limit := v; ExclusiveStartKey := ExclusiveStartKey q;
     ScanIndexForward := ScanIndexForward q; ConsistentRead := ConsistentRead q |}.
Definition setExclusiveStartKey (v : option (gmap string Literal))
    (q : QueryCommandInput) :=
  {| TableName := TableName q; IndexName := IndexName q;
     KeyConditionExpression := KeyConditionExpression q;
     FilterExpression := FilterExpression q;
     ProjectionExpression := ProjectionExpression q;
     ExpressionAttributeNames := ExpressionAttributeNames q;
     ExpressionAttributeValues := ExpressionAttributeValues q;
     Limit := Limit q; ExclusiveStartKey := v;
     ScanIndexForward := ScanIndexForward q; ConsistentRead := ConsistentRead q |}.
Definition setScanIndexForward (v : option bool) (q : QueryCommandInput) :=
  {| TableName := TableName q; IndexName := IndexName q;
     KeyConditionExpression := KeyConditionExpression q;
     FilterExpression := FilterExpression q;
     ProjectionExpression := ProjectionExpression q;
     ExpressionAttributeNames := ExpressionAttributeNames q;
     ExpressionAttributeValues := ExpressionAttributeValues q;
     Limit := Limit q; ExclusiveStartKey := ExclusiveStartKey q;
     ScanIndexForward := v; ConsistentRead := ConsistentRead q |}.

(** One property of [Object.assign(target, source)]: the source's wins when
    the source has it. *)
Definition override {A} (source target : option A) : option A :=
  match source with Some v => Some v | None => target end.

(** [Object.assign(target, source)] *)
Definition assign (target : QueryCommandInput) (source : option QueryCommandInput)
    : QueryCommandInput :=
  match source with
  | None => target
  | Some s =>
      {| TableName := override (TableName s) (TableName target);
         IndexName := override (IndexName s) (IndexName target);
         KeyConditionExpression :=
           override (KeyConditionExpression s) (KeyConditionExpression target);
         FilterExpression := override (FilterExpression s) (FilterExpression target);
         ProjectionExpression :=
           override (ProjectionExpression s) (ProjectionExpression target);
         ExpressionAttributeNames :=
           override (ExpressionAttributeNames s) (ExpressionAttributeNames target);
         ExpressionAttributeValues :=
           override (ExpressionAttributeValues s) (ExpressionAttributeValues target);
         Limit := override (Limit s) (Limit target);
         ExclusiveStartKey := override (ExclusiveStartKey s) (ExclusiveStartKey target);
         ScanIndexForward := override (ScanIndexForward s) (ScanIndexForward target);
         ConsistentRead := override (ConsistentRead s) (ConsistentRead target) |}
  end.

Record PaginationOptions : Type := {
  pageSize : option Z;
  lastEvaluatedKey : option (gmap string Literal);
  sortDir : option SortDir
}.

(** [partitionKeyValue] is declared required; the builder nevertheless tests
    it against [undefined], so it is optional here. *)
Record KeyParams : Type := {
  partitionKeyName : string;
  partitionKeyValue : option string;
  sortKeyName : option string;
  sortKeyValue : option string;
  sortKeyCondition : option Condition
}.

Record IndexParams : Type := { indexName : option string }.

(** [Record<string, any[]>], as [Object.entries] enumerates it. *)
Definition Filters : Type := list (string * list Literal).

Record QueryBuilder : Type := {
  tableName : string;
  query : QueryCommandInput;
  index : option IndexParams;
  keys : option KeyParams;
  filter : option Filters;
  filterExpression : option Condition;
  fields : option (list string);
  pagination : option PaginationOptions;
  rawQueryOptions : option QueryCommandInput;
  tracker : AttributeTracker
}.

(** [new QueryBuilder(tableName)] *)
Definition new (tableName : string) : QueryBuilder :=
  {| tableName := tableName;
     query := {| TableName := Some tableName; IndexName := None;
                 KeyConditionExpression := None; FilterExpression := None;
                 ProjectionExpression := None; ExpressionAttributeNames := None;
                 ExpressionAttributeValues := None; Limit := None;
                 ExclusiveStartKey := None; ScanIndexForward := None;
                 ConsistentRead := None |};
     index := None; keys := None; filter := None; filterExpression := None;
     fields := None; pagination := None; rawQueryOptions := None;
     tracker := newAttributeTracker |}.

Definition withIndex (indexParams : IndexParams) (b : QueryBuilder) : Result QueryBuilder :=
  match index b with
  | Some _ => Err OnlyOneIndex
  | None =>
      Ok {| tableName := tableName b; query := query b; index := Some indexParams;
            keys := keys b; filter := filter b; filterExpression := filterExpression b;
            fields := fields b; pagination := pagination b;
            rawQueryOptions := rawQueryOptions b; tracker := tracker b |}
  end.

Definition withKeys (keyParams : KeyParams) (b : QueryBuilder) : Result QueryBuilder :=
  match keys b with
  | Some _ => Err KeysOnlyOnce
  | None =>
      Ok {| tableName := tableName b; query := query b; index := index b;
            keys := Some keyParams; filter := filter b;
            filterExpression := filterExpression b;
            fields := fields b; pagination := pagination b;
            rawQueryOptions := rawQueryOptions b; tracker := tracker b |}
  end.

Definition withFields (fs : list string) (b : QueryBuilder) : QueryBuilder :=
  {| tableName := tableName b; query := query b; index := index b;
     keys := keys b; filter := filter b; filterExpression := filterExpression b;
     fields := Some fs; pagination := pagination b;
     rawQueryOptions := rawQueryOptions b; tracker := tracker b |}.

Definition withFilter (filterParams : option Filters) (b : QueryBuilder)
    : Result QueryBuilder :=
  match filter b, filterExpression b with
  | None, None =>
      match filterParams with
      | None => Ok b
      | Some f =>
          Ok {| tableName := tableName b; query := query b; index := index b;
                keys := keys b; filter := Some f;
                filterExpression := filterExpression b;
                fields := fields b; pagination := pagination b;
                rawQueryOptions := rawQueryOptions b; tracker := tracker b |}
      end
  | _, _ => Err OnlyOneFilter
  end.

Definition withFilterExpression (fe : option Condition) (b : QueryBuilder)
    : Result QueryBuilder :=
  match filter b, filterExpression b with
  | None, None =>
      match fe with
      | None => Ok b
      | Some c =>
          Ok {| tableName := tableName b; query := query b; index := index b;
                keys := keys b; filter := filter b; filterExpression := Some c;
                fields := fields b; pagination := pagination b;
                rawQueryOptions := rawQueryOptions b; tracker := tracker b |}
      end
  | _, _ => Err OnlyOneFilter
  end.

Definition withPagination (paginationOptions : option PaginationOptions)
    (b : QueryBuilder) : QueryBuilder :=
  {| tableName := tableName b; query := query b; index := index b;
     keys := keys b; filter := filter b; filterExpression := filterExpression b;
     fields := fields b; pagination := paginationOptions;
     rawQueryOptions := rawQueryOptions b; tracker := tracker b |}.

Definition withRaw (additionalQueryOptions : QueryCommandInput) (b : QueryBuilder)
    : QueryBuilder :=
  {| tableName := tableName b; query := query b; index := index b;
     keys := keys b; filter := filter b; filterExpression := filterExpression b;
     fields := fields b; pagination := pagination b;
     rawQueryOptions := Some additionalQueryOptions; tracker := tracker b |}.

(** Truthiness of a string ([""] is the one falsy string) and of an optional
    string. *)
Definition truthy (s : string) : bool := negb (String.eqb s "").
Definition truthyOpt (s : option string) : bool :=
  match s with Some s => truthy s | None => false end.

(** [keys.partitionKeyValue], as the operand the tracker receives. *)
Definition literalOf (v : option string) : Literal :=
  match v with Some s => LString s | None => LUndefined end.

Definition buildExpressionAttributeNamesAndValues (query : QueryCommandInput)
    (names : gmap string string) (values : gmap string Literal) : QueryCommandInput :=
  let query :=
    if (0 <? size names)%nat then setExpressionAttributeNames (Some names) query
    else query in
  if (0 <? size values)%nat then setExpressionAttributeValues (Some values) query
  else query.

Definition buildKeys (query : QueryCommandInput) (keys : option KeyParams)
    : Build QueryCommandInput :=
  match keys with
  | None => ret query
  | Some keys =>
      let partitionKeyCondition :=
        Eq (A (partitionKeyName keys)) (OLiteral (literalOf (partitionKeyValue keys))) in
      match truthyOpt (sortKeyName keys), sortKeyName keys, sortKeyValue keys,
            sortKeyCondition keys with
      | true, Some skName, Some skValue, _ =>
          let sortKeyCondition := Eq (A skName) (OLiteral (LString skValue)) in
          let* e := Expressions.build (And [partitionKeyCondition; sortKeyCondition]) in
          ret (setKeyConditionExpression (Some e) query)
      | _, _, _, Some sortKeyCondition =>
          let* e := Expressions.build (And [partitionKeyCondition; sortKeyCondition]) in
          ret (setKeyConditionExpression (Some e) query)
      | _, _, _, None =>
          let* e := Expressions.build partitionKeyCondition in
          ret (setKeyConditionExpression (Some e) query)
      end
  end.

Definition buildIndex (query : QueryCommandInput) (index : option IndexParams)
    : QueryCommandInput :=
  match index with
  | Some i =>
      if truthyOpt (indexName i) then setIndexName (indexName i) query else query
  | None => query
  end.

Definition buildPagination (query : QueryCommandInput)
    (pagination : option PaginationOptions) : QueryCommandInput :=
  match pagination with
  | None => query
  | Some p =>
      let query := setLimit (pageSize p) query in
      let query :=
        match lastEvaluatedKey p with
        | Some k => setExclusiveStartKey (Some k) query
        | None => query
        end in
      match sortDir p with
      | Some Desc => setScanIndexForward (Some false) query
      | _ => query
      end
  end.

Definition buildFilterExpression (query : QueryCommandInput)
    (filterExpression : option Condition) : Build QueryCommandInput :=
  match filterExpression with
  | None => ret query
  | Some fe =>
      let* e := Expressions.build fe in ret (setFilterExpression (Some e) query)
  end.

(** One entry of the filter map: a comparison for a single value, otherwise
    an [Or] of one comparison per value. *)
Definition fieldCondition (entry : string * list Literal) : Condition :=
  let '(key, values) := entry in
  match values with
  | [v] => Comparison (A key) CmpEq (OLiteral v)
  | _ => Or (map (λ v, Comparison (A key) CmpEq (OLiteral v)) values)
  end.

(** [generateFilterExpression]; [comparisons[0]] of an empty array is
    [undefined], here [None]. *)
Definition generateFilterExpression (filters : Filters) : option Condition :=
  let comparisons := map fieldCondition filters in
  if (length filters =? 1)%nat then head comparisons
  else Some (And comparisons).

Definition generateFilterInput (filters : Filters) : Build (option string) :=
  let filterExpressionCondition :=
    if (0 <? length filters)%nat then generateFilterExpression filters else None in
  match filterExpressionCondition with
  | Some c => let* e := Expressions.build c in ret (Some e)
  | None => ret None
  end.

Definition buildFilter (query : QueryCommandInput) (filter : option Filters)
    : Build QueryCommandInput :=
  match filter with
  | None => ret query
  | Some f =>
      let* e := generateFilterInput f in ret (setFilterExpression e query)
  end.

(** [Set.prototype.add] on an insertion-ordered set. *)
Definition setAdd (x : string) (s : list string) : list string :=
  if bool_decide (x ∈ s) then s else s ++ [x].

(** The [for (const field of fields)] loop of [generateProjectionExpression]. *)
Fixpoint addFields (fields : list string) (projectionFields : list string)
    : Build (list string) :=
  match fields with
  | [] => ret projectionFields
  | field :: rest =>
      let* fieldName := get (A field) None in
      addFields rest (setAdd fieldName projectionFields)
  end.

(** The set [projectionFields] when [generateProjectionExpression] reaches
    its [return]. *)
Definition projectionFields (keys : option KeyParams) (fields : list string)
    : Build (list string) :=
  let* projectionFields := addFields fields [] in
  match keys with
  | Some keys =>
      let* pkName := get (A (partitionKeyName keys)) None in
      let projectionFields := setAdd pkName projectionFields in
      match truthyOpt (sortKeyName keys), sortKeyName keys with
      | true, Some sk =>
          let* skName := get (A sk) None in
          ret (setAdd skName projectionFields)
      | _, _ => ret projectionFields
      end
  | None => ret projectionFields
  end.

Definition generateProjectionExpression (keys : option KeyParams)
    (fields : list string) : Build string :=
  let* projectionFields := projectionFields keys fields in
  ret (String.concat "," projectionFields).

Definition buildFields (keys : option KeyParams) (query : QueryCommandInput)
    (fields : option (list string)) : Build QueryCommandInput :=
  match fields with
  | None => ret query
  | Some fs =>
      let* e := generateProjectionExpression keys fs in
      ret (setProjectionExpression (Some e) query)
  end.

(** [!this.keys?.partitionKeyName || this.keys.partitionKeyValue === undefined] *)
Definition partitionKeyMissing (keys : option KeyParams) : bool :=
  match keys with
  | None => true
  | Some k =>
      negb (truthy (partitionKeyName k)) ||
      match partitionKeyValue k with None => true | Some _ => false end
  end.

(** The steps of [build] that follow the partition key check; they all work
    on the object [this.query] and on the fresh tracker. *)
Definition buildSteps (operation : Operation) (b : QueryBuilder)
    : Build QueryCommandInput :=
  let query := assign (query b) (rawQueryOptions b) in
  let* query :=
    match operation with
    | OpQuery => buildKeys query (keys b)
    | OpScan => ret query
    end in
  let query := buildIndex query (index b) in
  let* query := buildFilter query (filter b) in
  let* query := buildFilterExpression query (filterExpression b) in
  let* query := buildFields (keys b) query (fields b) in
  let query := buildPagination query (pagination b) in
  λ t, Ok (buildExpressionAttributeNamesAndValues query
             (attributeNames t) (attributeValues t), t).

(** [build(operation)].  The request it returns is the object [this.query]
    itself, so the builder that remains holds it in [query]; its [tracker] is
    the one this build created. *)
Definition build (operation : Operation) (b : QueryBuilder)
    : Result (QueryCommandInput * QueryBuilder) :=
  match operation, partitionKeyMissing (keys b) with
  | OpQuery, true => Err PartitionKeyRequired
  | _, _ =>
      match buildSteps operation b newAttributeTracker with
      | Ok (query, t) =>
          Ok (query,
              {| tableName := tableName b; query := query; index := index b;
                 keys := keys b; filter := filter b;
                 filterExpression := filterExpression b;
                 fields := fields b; pagination := pagination b;
                 rawQueryOptions := rawQueryOptions b; tracker := t |})
      | Err e => Err e
      end
  end.

End QueryBuilder.

(** ** baseDynamo.repository.ts: the paginated fetch engine *)

Module Repository.
Import Expressions QueryBuilder.

Section Engine.
(** The item records are never looked into. *)
Context {Item : Type}.

(** [QueryCommandOutput | ScanCommandOutput], the part the engine reads. *)
Record CommandOutput : Type := {
  Items : option (list Item);
  LastEvaluatedKey : option (gmap string Literal)
}.

(** What is handed to [documentClient.send]. *)
Inductive Command : Type :=
| QueryCommand (input : QueryCommandInput)
| ScanCommand (input : QueryCommandInput).

Definition isSome {A} (o : option A) : bool :=
  match o with Some _ => true | None => false end.

Definition hasResultBeenTruncated (inputLimit : option Z)
    (aggregatedOutputLength : option Z)
    (lastEvaluatedKey : option (gmap string Literal)) : bool :=
  let outputLength := orElse aggregatedOutputLength 0%Z in
  match inputLimit with
  | Some l =>
      if negb (l =? 0)%Z && (0 <? l)%Z
      then isSome lastEvaluatedKey && (outputLength <? l)%Z
      else isSome lastEvaluatedKey
  | None => isSome lastEvaluatedKey
  end.

(** [result.Items ?? []] *)
Definition itemsOf (result : CommandOutput) : list Item := orElse (Items result) [].

(** [{ ...input, Limit: input.Limit ? input.Limit - items.length : undefined,
       ExclusiveStartKey: result.LastEvaluatedKey }] *)
Definition nextInput (input : QueryCommandInput) (items : list Item)
    (result : CommandOutput) : QueryCommandInput :=
  setExclusiveStartKey (LastEvaluatedKey result)
    (setLimit
       match Limit input with
       | Some l => if (l =? 0)%Z then None else Some (l - Z.of_nat (length items))%Z
       | None => None
       end
       input).

(** The [while] loop shared by [queryAll] and [scanAll].  The document client
    is the list [responses] of the outputs its next calls resolve to, and
    [sent] the commands it has received; every iteration sends one command
    and takes one response.  [None]: the client had no response left for a
    command the loop sent. *)
Fixpoint pageLoop (next : QueryCommandInput → Command) (input : QueryCommandInput)
    (responses : list CommandOutput) (result : CommandOutput) (items : list Item)
    (sent : list Command) {struct responses}
    : option (CommandOutput * list Command) :=
  if hasResultBeenTruncated (Limit input) (Some (Z.of_nat (length items)))
       (LastEvaluatedKey result)
  then
    match responses with
    | [] => None
    | result' :: responses' =>
        pageLoop next input responses' result' (items ++ itemsOf result')
          (sent ++ [next (nextInput input items result)])
    end
  else Some ({| Items := Some items; LastEvaluatedKey := LastEvaluatedKey result |},
             sent).

(** One first command, then the loop. *)
Definition fetch (first next : QueryCommandInput → Command)
    (input : QueryCommandInput) (responses : list CommandOutput)
    : option (CommandOutput * list Command) :=
  match responses with
  | [] => None
  | result :: responses' =>
      pageLoop next input responses' result (itemsOf result) [first input]
  end.

(** [queryAll]: every command is a [QueryCommand]. *)
Definition queryAll := fetch QueryCommand QueryCommand.

(** [scanAll]: the first command is a [ScanCommand], the ones sent from the
    loop are [QueryCommand]s. *)
Definition scanAll := fetch ScanCommand QueryCommand.

Record PaginatedOutput : Type := {
  items : list Item;
  lastEvaluatedKey : option (gmap string Literal)
}.

Definition queryWithPagination (queryInput : QueryCommandInput)
    (responses : list CommandOutput) : option (PaginatedOutput * list Command) :=
  match queryAll queryInput responses with
  | Some (result, sent) =>
      Some ({| items := itemsOf result;
               lastEvaluatedKey := LastEvaluatedKey result |}, sent)
  | None => None
  end.

Definition queryWithAggregation (queryInput : QueryCommandInput)
    (responses : list CommandOutput) : option (list Item * list Command) :=
  match queryAll queryInput responses with
  | Some (result, sent) => Some (itemsOf result, sent)
  | None => None
  end.

Definition scanWithAggregation (scanInput : QueryCommandInput)
    (responses : list CommandOutput) : option (list Item * list Command) :=
  match scanAll scanInput responses with
  | Some (result, sent) => Some (itemsOf result, sent)
  | None => None
  end.
End Engine.
Arguments CommandOutput : clear implicits.
Arguments PaginatedOutput : clear implicits.

End Repository.

(** * Vocabulary of the properties *)

Module ExpressionSpec.
Import Expressions.

(** Structural induction over operands and conditions together, through the
    member lists of [In], [And] and [Or]. *)
Section Induction.
Variables (P : Operand → Prop) (Q : Condition → Prop).
Hypothesis HLiteral : ∀ v, P (OLiteral v).
Hypothesis HAttributeName : ∀ name, P (OAttributeName name).
Hypothesis HCondition : ∀ c, Q c → P (OCondition c).
Hypothesis HSize : ∀ path, P (OSize path).
Hypothesis HComparison : ∀ o1 cmp o2, P o1 → P o2 → Q (Comparison o1 cmp o2).
Hypothesis HBetween : ∀ o s e, P o → P s → P e → Q (Between o s e).
Hypothesis HBeginsWith : ∀ o s, P o → Q (BeginsWith o s).
Hypothesis HIn : ∀ o l, P o → Forall P l → Q (In o l).
Hypothesis HAnd : ∀ cs, Forall Q cs → Q (And cs).
Hypothesis HOr : ∀ cs, Forall Q cs → Q (Or cs).
Hypothesis HNot : ∀ c, Q c → Q (Not c).
Hypothesis HExists : ∀ path, Q (Exists path).
Hypothesis HNotExists : ∀ path, Q (NotExists path).
Hypothesis HType : ∀ path ty, Q (Type_ path ty).
Hypothesis HContains : ∀ path o, P o → Q (Contains path o).

Fixpoint operand_condition_ind (o : Operand) : P o :=
  match o with
  | OLiteral v => HLiteral v
  | OAttributeName name => HAttributeName name
  | OCondition c => HCondition c (condition_operand_ind c)
  | OSize path => HSize path
  end
with condition_operand_ind (c : Condition) : Q c :=
  match c with
  | Comparison o1 cmp o2 =>
      HComparison o1 cmp o2 (operand_condition_ind o1) (operand_condition_ind o2)
  | Between o s e =>
      HBetween o s e (operand_condition_ind o) (operand_condition_ind s)
        (operand_condition_ind e)
  | BeginsWith o s => HBeginsWith o s (operand_condition_ind o)
  | In o l =>
      HIn o l (operand_condition_ind o)
        ((fix members (l : list Operand) : Forall P l :=
            match l with
            | [] => @List.Forall_nil _ P
            | x :: l' => @List.Forall_cons _ P x l' (operand_condition_ind x) (members l')
            end) l)
  | And cs =>
      HAnd cs
        ((fix members (l : list Condition) : Forall Q l :=
            match l with
            | [] => @List.Forall_nil _ Q
            | x :: l' => @List.Forall_cons _ Q x l' (condition_operand_ind x) (members l')
            end) cs)
  | Or cs =>
      HOr cs
        ((fix members (l : list Condition) : Forall Q l :=
            match l with
            | [] => @List.Forall_nil _ Q
            | x :: l' => @List.Forall_cons _ Q x l' (condition_operand_ind x) (members l')
            end) cs)
  | Not c => HNot c (condition_operand_ind c)
  | Exists path => HExists path
  | NotExists path => HNotExists path
  | Type_ path ty => HType path ty
  | Contains path o => HContains path o (operand_condition_ind o)
  end.
End Induction.

(** [succeeds m]: [m] returns from every tracker. *)
Definition succeeds {A} (m : Build A) : Prop :=
  ∀ t, ∃ a t', m t = Ok (a, t').

(** [raisesOnly S m]: whatever [m] throws is in [S]. *)
Definition raisesOnly {A} (S : Error → Prop) (m : Build A) : Prop :=
  ∀ t e, m t = Err e → S e.

(** The two errors of the compiler itself. *)
Definition arityError (e : Error) : Prop :=
  match e with
  | AndTooFewOperands _ | OrTooFewOperands _ => True
  | _ => False
  end.

End ExpressionSpec.

Module BuilderSpec.
Import Expressions QueryBuilder.

(** *** The text a simple filter map stands for *)

(** [#key = :v_subN] *)
Definition equalityText (key : string) (n : nat) : string :=
  "#" +:+ key +:+ " = :v_sub" +:+ pretty n.

(** One field whose first value takes placeholder number [n]: one equality
    for one value, otherwise the equalities in parentheses joined by OR. *)
Definition fieldText (n : nat) (key : string) (values : list Literal) : string :=
  match values with
  | [_] => equalityText key n
  | _ => "(" +:+ String.concat ") OR (" (map (equalityText key) (seq n (length values)))
         +:+ ")"
  end.

(** The fields in turn, each numbering its values after the previous one's. *)
Fixpoint fieldTexts (n : nat) (filters : Filters) : list string :=
  match filters with
  | [] => []
  | (key, values) :: rest =>
      fieldText n key values :: fieldTexts (n + length values) rest
  end.

(** A single field stands alone; several are put in parentheses and joined
    by AND. *)
Definition filterText (n : nat) (filters : Filters) : string :=
  match filters with
  | [(key, values)] => fieldText n key values
  | _ => "(" +:+ String.concat ") AND (" (fieldTexts n filters) +:+ ")"
  end.

(** A partition key name and a partition key value are both staged. *)
Definition partitionKeyPresent (b : QueryBuilder) : Prop :=
  ∃ k v, keys b = Some k ∧ partitionKeyName k ≠ "" ∧ partitionKeyValue k = Some v.

(** The staged filter, if any, gives every field a value, and the staged
    filter expression, if any, is well formed. *)
Definition filterCompiles (b : QueryBuilder) : Prop :=
  match filter b with
  | Some f => Forall (λ entry, entry.2 ≠ []) f
  | None => True
  end ∧
  match filterExpression b with
  | Some c => wellFormed c = true
  | None => True
  end.

(** Chain the staging calls of a builder. *)
Definition andThen {A B} (r : Result A) (k : A → Result B) : Result B :=
  match r with Ok a => k a | Err e => Err e end.

Definition requestOf (r : Result (QueryCommandInput * QueryBuilder))
    : Result QueryCommandInput :=
  match r with Ok (request, _) => Ok request | Err e => Err e end.

Definition pkOnly : KeyParams :=
  {| partitionKeyName := "pk"; partitionKeyValue := Some "myPk";
     sortKeyName := None; sortKeyValue := None; sortKeyCondition := None |}.

Definition pkAndSk : KeyParams :=
  {| partitionKeyName := "pk"; partitionKeyValue := Some "myPk";
     sortKeyName := Some "sk"; sortKeyValue := Some "mySk";
     sortKeyCondition := None |}.

End BuilderSpec.

Module RepositorySpec.
Import Expressions QueryBuilder Repository.

Section Fetch.
Context {Item : Type}.
Implicit Types (script : list (CommandOutput Item)).
Implicit Types (r : CommandOutput Item) (input : QueryCommandInput).

(** The items of the first [k] responses, in order. *)
Definition pagesItems script (k : nat) : list Item :=
  concat (map itemsOf (take k script)).

(** Is the result judged truncated once [k] responses are in, the last of
    them being [r]? *)
Definition truncatedAfter input script (k : nat) r : bool :=
  hasResultBeenTruncated (Limit input)
    (Some (Z.of_nat (length (pagesItems script k)))) (LastEvaluatedKey r).

(** What a fetch over [script] does, call by call: [calls] are the commands
    sent and [out] the output returned. *)
Definition Fetched (first next : QueryCommandInput → Command) input script
    (out : CommandOutput Item) (calls : list Command) : Prop :=
  1 ≤ length calls ≤ length script ∧
  calls !! 0 = Some (first input) ∧
  (∀ k, 1 ≤ k < length calls →
     ∃ r, script !! (k - 1) = Some r ∧
          truncatedAfter input script k r = true ∧
          calls !! k = Some (next (nextInput input (pagesItems script k) r))) ∧
  (∃ r, script !! (length calls - 1) = Some r ∧
        truncatedAfter input script (length calls) r = false ∧
        out = {| Items := Some (pagesItems script (length calls));
                 LastEvaluatedKey := LastEvaluatedKey r |}).

End Fetch.

(** *** The scenario of the repository's tests *)

(** A response holding [items] and, if [token] is given, the continuation
    token [{ x: token }]. *)
Definition page (items : list Z) (token : option Z) : CommandOutput Z :=
  {| Items := Some items;
     LastEvaluatedKey := (λ x, {[ "x" := LNumber x ]}) <$> token |}.

(** Three pages of three items, a token after the first and the second. *)
Definition pages : list (CommandOutput Z) :=
  [page [1; 2; 3]%Z (Some 1%Z); page [4; 5; 6]%Z (Some 2%Z); page [7; 8; 9]%Z None].

(** [{ TableName: "foo", Limit: limit, ExclusiveStartKey: { x: token } }] *)
Definition foo (limit token : option Z) : QueryCommandInput :=
  {| TableName := Some "foo"; IndexName := None; KeyConditionExpression := None;
     FilterExpression := None; ProjectionExpression := None;
     ExpressionAttributeNames := None; ExpressionAttributeValues := None;
     Limit := limit;
     ExclusiveStartKey := (λ x, {[ "x" := LNumber x ]}) <$> token;
     ScanIndexForward := None; ConsistentRead := None |}.

End RepositorySpec.

(** * Vocabulary of the further properties *)

Module TrackerSpec.
Import Expressions.

(** Every name placeholder is "#" followed by the name it stands for. *)
Definition namesConsistent (t : AttributeTracker) : Prop :=
  ∀ p n, attributeNames t !! p = Some n → p = "#" +:+ n.

(** The value placeholders are exactly ":v_sub0" ... ":v_sub(counter-1)". *)
Definition valuesNumbered (t : AttributeTracker) : Prop :=
  ∀ p, is_Some (attributeValues t !! p)
       ↔ ∃ k, k < valueCounter t ∧ p = ":v_sub" +:+ pretty k.

Definition consistent (t : AttributeTracker) : Prop :=
  namesConsistent t ∧ valuesNumbered t.

(** [t'] continues [t]: the invariants are kept, the counter has not gone
    back, and no binding of [t] was removed or changed. *)
Definition continues (t t' : AttributeTracker) : Prop :=
  consistent t →
  consistent t' ∧
  valueCounter t ≤ valueCounter t' ∧
  (∀ p v, attributeValues t !! p = Some v → attributeValues t' !! p = Some v) ∧
  (∀ p n, attributeNames t !! p = Some n → attributeNames t' !! p = Some n).

(** Whenever [m] returns, the tracker it leaves is related by [R] to the one
    it started from. *)
Definition leaves {A} (R : AttributeTracker → AttributeTracker → Prop)
    (m : Build A) : Prop :=
  ∀ t a t', m t = Ok (a, t') → R t t'.


End TrackerSpec.

Module PatchSpec.
Import Expressions QueryBuilder.

(** [step1] and then [step2], on the request the first one returns. *)
Definition andStep (step1 step2 : QueryCommandInput → Build QueryCommandInput)
    : QueryCommandInput → Build QueryCommandInput :=
  λ query, let* query1 := step1 query in step2 query1.

(** The steps of [build] that follow [Object.assign(this.query, raw)], as
    steps on the request they are handed. *)
Definition stepsFrom (operation : Operation) (b : QueryBuilder)
    : QueryCommandInput → Build QueryCommandInput :=
  andStep
    (λ query, match operation with
              | OpQuery => buildKeys query (keys b)
              | OpScan => ret query
              end)
    (andStep (λ query, ret (buildIndex query (index b)))
       (andStep (λ query, buildFilter query (filter b))
          (andStep (λ query, buildFilterExpression query (filterExpression b))
             (andStep (λ query, buildFields (keys b) query (fields b))
                (andStep (λ query, ret (buildPagination query (pagination b)))
                   (λ query t,
                      Ok (buildExpressionAttributeNamesAndValues query
                            (attributeNames t) (attributeValues t), t))))))).

(** [f] either fixes the property [π] of a request or leaves it as it was. *)
Definition fieldPatch {X} (π : QueryCommandInput → X)
    (f : QueryCommandInput → QueryCommandInput) : Prop :=
  (∃ c, ∀ q, π (f q) = c) ∨ (∀ q, π (f q) = π q).

(** [f] rewrites a request property by property, never touching [TableName]
    or [ConsistentRead]. *)
Definition IsPatch (f : QueryCommandInput → QueryCommandInput) : Prop :=
  (∀ q, TableName (f q) = TableName q) ∧
  (∀ q, ConsistentRead (f q) = ConsistentRead q) ∧
  fieldPatch IndexName f ∧
  fieldPatch KeyConditionExpression f ∧
  fieldPatch FilterExpression f ∧
  fieldPatch ProjectionExpression f ∧
  fieldPatch ExpressionAttributeNames f ∧
  fieldPatch ExpressionAttributeValues f ∧
  fieldPatch Limit f ∧
  fieldPatch ExclusiveStartKey f ∧
  fieldPatch ScanIndexForward f.

(** From every tracker, [step] either raises whatever request it is handed,
    or patches it in a way that does not depend on the request. *)
Definition patching (step : QueryCommandInput → Build QueryCommandInput) : Prop :=
  ∀ t, (∃ f t', IsPatch f ∧ ∀ q, step q t = Ok (f q, t')) ∨
       (∃ e, ∀ q, step q t = Err e).



(** The staged sort key condition, if it is used, is well formed. *)
Definition keyConditionCompiles (b : QueryBuilder) : Prop :=
  match keys b with
  | Some k =>
      match sortKeyCondition k with
      | Some c => wellFormed c = true
      | None => True
      end
  | None => True
  end.

End PatchSpec.

(** ** baseDynamo.repository.ts: keys, partial updates, transactions *)

Module Writes.
Import Expressions.

(** What [init] stores on the repository. *)
Record BaseDynamoRepository : Type := {
  tableName : string;
  partitionKeyName : string;
  sortKeyName : option string
}.

(** The [throw new Error(...)] of [generatePrimaryKey] and
    [generateUpdateParams]. *)
Inductive WriteError : Type :=
| SortKeyRequiredInPrimaryKey (sortKeyName : string)
| PartitionKeyRequiredWhenUpdating (partitionKeyName : string)
| SortKeyRequiredWhenUpdating (sortKeyName : string).

Inductive Outcome (A : Type) : Type :=
| Done (a : A)
| Thrown (e : WriteError).
Arguments Done {A} a.
Arguments Thrown {A} e.

(** A record [Record<string, any>] as [for ... in] enumerates it: its own
    properties in order, each name once. *)
Definition JsRecord : Type := list (string * Literal).

(** [o[name]]: [undefined] for a property the record does not have. *)
Fixpoint property (o : JsRecord) (name : string) : Literal :=
  match o with
  | [] => LUndefined
  | (k, v) :: rest => if String.eqb k name then v else property rest name
  end.

(** Truthiness of a literal. *)
Definition truthyLiteral (v : Literal) : bool :=
  match v with
  | LString s => QueryBuilder.truthy s
  | LNumber n => negb (n =? 0)%Z
  | LDate _ => true
  | LNull | LUndefined => false
  end.

Definition isUndefined (v : Literal) : bool :=
  match v with LUndefined => true | _ => false end.

(** [generatePrimaryKey].  The values are declared [string];
    [generateUpdateParams] hands it whatever the record holds, so they are
    literals here, [undefined] included. *)
Definition generatePrimaryKey (this : BaseDynamoRepository)
    (partitionKeyValue sortKeyValue : Literal) : Outcome (gmap string Literal) :=
  let key : gmap string Literal := {[ partitionKeyName this := partitionKeyValue ]} in
  match sortKeyName this with
  | Some sk =>
      if QueryBuilder.truthy sk then
        if isUndefined sortKeyValue then Thrown (SortKeyRequiredInPrimaryKey sk)
        else Done (<[sk := sortKeyValue]> key)
      else Done key
  | None => Done key
  end.

(** [UpdateCommandInput]; [ConditionExpression] is the property
    [transactionalWrite] may add. *)
Record UpdateCommandInput : Type := {
  TableName : string;
  Key : gmap string Literal;
  UpdateExpression : option string;
  ExpressionAttributeNames : gmap string string;
  ExpressionAttributeValues : gmap string Literal;
  ReturnValues : string;
  ConditionExpression : option string
}.

(** The three variables the loop of [generateUpdateParams] assigns. *)
Record UpdateState : Type := {
  updateExpression : option string;
  expressionAttributeNames : gmap string string;
  expressionAttributeValues : gmap string Literal
}.

(** The body of the loop for a property that is assigned. *)
Definition assignProperty (st : UpdateState) (name : string) (value : Literal)
    : UpdateState :=
  let propertyNameAlias := "#" +:+ name in
  let propertyValueAlias := ":" +:+ name in
  let updateExpression :=
    if QueryBuilder.truthyOpt (updateExpression st)
    then orElse (updateExpression st) "" +:+ ", "
    else "SET " in
  {| updateExpression :=
       Some (updateExpression +:+ propertyNameAlias +:+ " = " +:+ propertyValueAlias);
     expressionAttributeNames :=
       <[propertyNameAlias := name]> (expressionAttributeNames st);
     expressionAttributeValues :=
       <[propertyValueAlias := value]> (expressionAttributeValues st) |}.

(** [property === this.partitionKeyName || property === this.sortKeyName] *)
Definition isKeyProperty (this : BaseDynamoRepository) (name : string) : bool :=
  String.eqb name (partitionKeyName this) ||
  match sortKeyName this with Some sk => String.eqb name sk | None => false end.

(** [for (const property in updates)]; a record names each property once,
    so [updates[property]] is the value enumerated with it. *)
Fixpoint updateLoop (this : BaseDynamoRepository) (entries : JsRecord)
    (st : UpdateState) : UpdateState :=
  match entries with
  | [] => st
  | (name, value) :: rest =>
      if isKeyProperty this name then updateLoop this rest st
      else if isUndefined value then updateLoop this rest st
      else updateLoop this rest (assignProperty st name value)
  end.

(** [this.sortKeyName], when it is truthy. *)
Definition configuredSortKey (this : BaseDynamoRepository) : option string :=
  match sortKeyName this with
  | Some sk => if QueryBuilder.truthy sk then Some sk else None
  | None => None
  end.

(** [generateUpdateParams] from its loop on, the two checks passed. *)
Definition updateParamsChecked (this : BaseDynamoRepository) (updates : JsRecord)
    : Outcome UpdateCommandInput :=
  let st := updateLoop this updates
              {| updateExpression := None; expressionAttributeNames := ∅;
                 expressionAttributeValues := ∅ |} in
  let partitionKeyValue := property updates (partitionKeyName this) in
  let sortKeyValue :=
    match configuredSortKey this with
    | Some sk => property updates sk
    | None => LUndefined
    end in
  match generatePrimaryKey this partitionKeyValue sortKeyValue with
  | Done itemKey =>
      Done {| TableName := tableName this; Key := itemKey;
              UpdateExpression := updateExpression st;
              ExpressionAttributeNames := expressionAttributeNames st;
              ExpressionAttributeValues := expressionAttributeValues st;
              ReturnValues := "ALL_NEW"; ConditionExpression := None |}
  | Thrown e => Thrown e
  end.

Definition generateUpdateParams (this : BaseDynamoRepository) (updates : JsRecord)
    : Outcome UpdateCommandInput :=
  if negb (truthyLiteral (property updates (partitionKeyName this)))
  then Thrown (PartitionKeyRequiredWhenUpdating (partitionKeyName this))
  else
    match configuredSortKey this with
    | Some sk =>
        if isUndefined (property updates sk)
        then Thrown (SortKeyRequiredWhenUpdating sk)
        else updateParamsChecked this updates
    | None => updateParamsChecked this updates
    end.

(** The properties [generateUpdateParams] assigns: not a key, not
    [undefined]. *)
Definition assigned (this : BaseDynamoRepository) (updates : JsRecord) : JsRecord :=
  filter (λ entry, isKeyProperty this entry.1 = false ∧ isUndefined entry.2 = false)
    updates.

(** [#name = :name] *)
Definition assignmentText (entry : string * Literal) : string :=
  "#" +:+ entry.1 +:+ " = :" +:+ entry.1.

(** The update expression after the assignments [done]. *)
Definition assignmentsText (done : JsRecord) : option string :=
  match done with
  | [] => None
  | _ => Some ("SET " +:+ String.concat ", " (map assignmentText done))
  end.

End Writes.

Module Transactions.
Import Expressions.

(** [DynamoTransactionWriteItem] *)
Record DynamoTransactionWriteItem : Type := {
  record : option Writes.JsRecord;
  operation : string;
  partitionKeyValue : option string;
  sortKeyValue : option string;
  conditionExpression : option string;
  expressionAttributeNames : option (gmap string string);
  expressionAttributeValues : option (gmap string Literal)
}.

(** One element of [TransactItems]. *)
Inductive TransactItem : Type :=
| Put (TableName : string) (Item : Writes.JsRecord)
    (ConditionExpression : option string)
    (ExpressionAttributeNames : option (gmap string string))
    (ExpressionAttributeValues : option (gmap string Literal))
| Update (params : Writes.UpdateCommandInput)
| Delete (TableName : string) (Key : gmap string Literal)
    (ConditionExpression : option string)
    (ExpressionAttributeNames : option (gmap string string))
    (ExpressionAttributeValues : option (gmap string Literal)).

(** [...(conditionExpression && { ConditionExpression: conditionExpression })] *)
Definition whenTruthy (s : option string) : option string :=
  if QueryBuilder.truthyOpt s then s else None.

(** The three [if] blocks of the [Update] case, on the generated params. *)
Definition amendUpdate (item : DynamoTransactionWriteItem)
    (u : Writes.UpdateCommandInput) : Writes.UpdateCommandInput :=
  {| Writes.TableName := Writes.TableName u;
     Writes.Key := Writes.Key u;
     Writes.UpdateExpression := Writes.UpdateExpression u;
     Writes.ExpressionAttributeNames :=
       match expressionAttributeNames item with
       | Some names => names ∪ Writes.ExpressionAttributeNames u
       | None => Writes.ExpressionAttributeNames u
       end;
     Writes.ExpressionAttributeValues :=
       match expressionAttributeValues item with
       | Some values => values ∪ Writes.ExpressionAttributeValues u
       | None => Writes.ExpressionAttributeValues u
       end;
     Writes.ReturnValues := Writes.ReturnValues u;
     Writes.ConditionExpression :=
       if QueryBuilder.truthyOpt (conditionExpression item)
       then conditionExpression item
       else Writes.ConditionExpression u |}.

(** The body of [entities.forEach]: what one entity pushes. *)
Definition transactItem (this : Writes.BaseDynamoRepository)
    (item : DynamoTransactionWriteItem) : Writes.Outcome (list TransactItem) :=
  if String.eqb (operation item) "PUT" then
    match record item with
    | Some r =>
        Writes.Done [Put (Writes.tableName this) r
                       (whenTruthy (conditionExpression item))
                       (expressionAttributeNames item)
                       (expressionAttributeValues item)]
    | None => Writes.Done []
    end
  else if String.eqb (operation item) "UPDATE" then
    match record item with
    | Some r =>
        match Writes.generateUpdateParams this r with
        | Writes.Done u => Writes.Done [Update (amendUpdate item u)]
        | Writes.Thrown e => Writes.Thrown e
        end
    | None => Writes.Done []
    end
  else if String.eqb (operation item) "DELETE" then
    match partitionKeyValue item with
    | Some pk =>
        if QueryBuilder.truthy pk then
          match Writes.generatePrimaryKey this (LString pk)
                  (QueryBuilder.literalOf (sortKeyValue item)) with
          | Writes.Done key =>
              Writes.Done [Delete (Writes.tableName this) key
                             (whenTruthy (conditionExpression item))
                             (expressionAttributeNames item)
                             (expressionAttributeValues item)]
          | Writes.Thrown e => Writes.Thrown e
          end
        else Writes.Done []
    | None => Writes.Done []
    end
  else Writes.Done [].

(** The [TransactItems] built by [transactionalWrite] before it sends them;
    an entity that throws ends the loop. *)
Fixpoint transactItems (this : Writes.BaseDynamoRepository)
    (entities : list DynamoTransactionWriteItem)
    : Writes.Outcome (list TransactItem) :=
  match entities with
  | [] => Writes.Done []
  | item :: rest =>
      match transactItem this item with
      | Writes.Done pushed =>
          match transactItems this rest with
          | Writes.Done items => Writes.Done (pushed ++ items)
          | Writes.Thrown e => Writes.Thrown e
          end
      | Writes.Thrown e => Writes.Thrown e
      end
  end.

(** [transactionalWrite], the client accepting the command: the items sent
    and the value returned. *)
Definition transactionalWrite (this : Writes.BaseDynamoRepository)
    (entities : list DynamoTransactionWriteItem)
    : Writes.Outcome (list TransactItem * list DynamoTransactionWriteItem) :=
  match transactItems this entities with
  | Writes.Done items => Writes.Done (items, entities)
  | Writes.Thrown e => Writes.Thrown e
  end.

(** An entity no case of the [switch] pushes anything for. *)
Definition skipped (item : DynamoTransactionWriteItem) : Prop :=
  (operation item ≠ "PUT" ∧ operation item ≠ "UPDATE" ∧ operation item ≠ "DELETE") ∨
  ((operation item = "PUT" ∨ operation item = "UPDATE") ∧ record item = None) ∨
  (operation item = "DELETE" ∧
   (partitionKeyValue item = None ∨ partitionKeyValue item = Some "")).

End Transactions.

(** ** baseDynamo.repository.ts: the query and scan helpers *)

Module Callers.
Import Expressions Repository BuilderSpec.

(** [QueryInputParams] *)
Record QueryInputParams : Type := {
  indexName : option string;
  partitionKeyName : option string;
  partitionKeyValue : string;
  sortKeyName : option string;
  sortKeyValue : option string;
  filterInputParams : option QueryBuilder.Filters
}.

Section Helpers.
Context {Item : Type}.
Implicit Types (responses : list (CommandOutput Item)).
Implicit Types (this : Writes.BaseDynamoRepository).

(** [new QueryBuilder(this.tableName).withFilter(filters).build("scan")],
    then [scanWithAggregation].  The builder may raise; the aggregation is
    [None] when the client has no response left. *)
Definition scanWithFilters this (filters : option QueryBuilder.Filters) responses
    : Result (option (list Item * list Command)) :=
  match requestOf
          (andThen (QueryBuilder.withFilter filters
                      (QueryBuilder.new (Writes.tableName this)))
             (QueryBuilder.build QueryBuilder.OpScan)) with
  | Ok queryInput => Ok (scanWithAggregation queryInput responses)
  | Err e => Err e
  end.

(** [queryWithFilters]; [indexName] and [filterInputParams] of [params] are
    not read. *)
Definition queryWithFilters this (params : QueryInputParams)
    (filterInputParams : option QueryBuilder.Filters) responses
    : Result (option (list Item * list Command)) :=
  match requestOf
          (andThen
             (QueryBuilder.withKeys
                {| QueryBuilder.partitionKeyName :=
                     orElse (partitionKeyName params) (Writes.partitionKeyName this);
                   QueryBuilder.partitionKeyValue := Some (partitionKeyValue params);
                   QueryBuilder.sortKeyName := sortKeyName params;
                   QueryBuilder.sortKeyValue := sortKeyValue params;
                   QueryBuilder.sortKeyCondition := None |}
                (QueryBuilder.new (Writes.tableName this)))
             (λ b, andThen (QueryBuilder.withFilter filterInputParams b)
                     (QueryBuilder.build QueryBuilder.OpQuery))) with
  | Ok queryInput => Ok (queryWithAggregation queryInput responses)
  | Err e => Err e
  end.

(** [queryGlobalSecondaryIndex] *)
Definition queryGlobalSecondaryIndex this (indexName partitionKeyName
    partitionKeyValue sortKeyName sortKeyValue : string)
    (filterOptions : option QueryBuilder.Filters)
    (paginationOptions : option QueryBuilder.PaginationOptions) responses
    : Result (option (PaginatedOutput Item * list Command)) :=
  let options :=
    orElse paginationOptions
      {| QueryBuilder.pageSize := None; QueryBuilder.lastEvaluatedKey := None;
         QueryBuilder.sortDir := None |} in
  match requestOf
          (andThen
             (QueryBuilder.withIndex {| QueryBuilder.indexName := Some indexName |}
                (QueryBuilder.new (Writes.tableName this)))
             (λ b, andThen
                (QueryBuilder.withKeys
                   {| QueryBuilder.partitionKeyName := partitionKeyName;
                      QueryBuilder.partitionKeyValue := Some partitionKeyValue;
                      QueryBuilder.sortKeyName := Some sortKeyName;
                      QueryBuilder.sortKeyValue := Some sortKeyValue;
                      QueryBuilder.sortKeyCondition := None |} b)
                (λ b, andThen (QueryBuilder.withFilter filterOptions b)
                        (λ b, QueryBuilder.build QueryBuilder.OpQuery
                                (QueryBuilder.withPagination (Some options) b))))) with
  | Ok query => Ok (queryWithPagination query responses)
  | Err e => Err e
  end.

(** [queryLocalSecondaryIndex]: the same chain on the table's own partition
    key. *)
Definition queryLocalSecondaryIndex this (indexName partitionKeyValue sortKeyName
    sortKeyValue : string) (filterOptions : option QueryBuilder.Filters)
    (paginationOptions : option QueryBuilder.PaginationOptions) responses
    : Result (option (PaginatedOutput Item * list Command)) :=
  let options :=
    orElse paginationOptions
      {| QueryBuilder.pageSize := None; QueryBuilder.lastEvaluatedKey := None;
         QueryBuilder.sortDir := None |} in
  match requestOf
          (andThen
             (QueryBuilder.withIndex {| QueryBuilder.indexName := Some indexName |}
                (QueryBuilder.new (Writes.tableName this)))
             (λ b, andThen
                (QueryBuilder.withKeys
                   {| QueryBuilder.partitionKeyName := Writes.partitionKeyName this;
                      QueryBuilder.partitionKeyValue := Some partitionKeyValue;
                      QueryBuilder.sortKeyName := Some sortKeyName;
                      QueryBuilder.sortKeyValue := Some sortKeyValue;
                      QueryBuilder.sortKeyCondition := None |} b)
                (λ b, andThen (QueryBuilder.withFilter filterOptions b)
                        (λ b, QueryBuilder.build QueryBuilder.OpQuery
                                (QueryBuilder.withPagination (Some options) b))))) with
  | Ok query => Ok (queryWithPagination query responses)
  | Err e => Err e
  end.

End Helpers.

(** The simple filter, if one is given, gives every field a value. *)
Definition filterHasValues (filters : option QueryBuilder.Filters) : Prop :=
  match filters with
  | Some f => Forall (λ entry, entry.2 ≠ []) f
  | None => True
  end.

(** The builder a helper has staged when it calls [build]: the constructor's
    builder with the given index, keys, simple filter and pagination. *)
Definition staged (tableName : string) (index : option QueryBuilder.IndexParams)
    (keys : option QueryBuilder.KeyParams) (filter : option QueryBuilder.Filters)
    (pagination : option QueryBuilder.PaginationOptions) : QueryBuilder.QueryBuilder :=
  {| QueryBuilder.tableName := tableName;
     QueryBuilder.query := QueryBuilder.query (QueryBuilder.new tableName);
     QueryBuilder.index := index; QueryBuilder.keys := keys;
     QueryBuilder.filter := filter; QueryBuilder.filterExpression := None;
     QueryBuilder.fields := None; QueryBuilder.pagination := pagination;
     QueryBuilder.rawQueryOptions := None;
     QueryBuilder.tracker := newAttributeTracker |}.

(** No page size is asked for. *)
Definition noPageSize (paginationOptions : option QueryBuilder.PaginationOptions)
    : Prop :=
  match paginationOptions with
  | Some p => QueryBuilder.pageSize p = None
  | None => True
  end.

(** The first [n] pages of [script] carry a continuation token and page
    [n] carries none. *)
Definition lastPageAt {Item} (script : list (Repository.CommandOutput Item))
    (n : nat) : Prop :=
  (∃ r, script !! n = Some r ∧ Repository.LastEvaluatedKey r = None) ∧
  (∀ j r', j < n → script !! j = Some r' →
           is_Some (Repository.LastEvaluatedKey r')).

End Callers.

(** * Properties of the expression compiler *)

Module ExpressionProperties.
Import Expressions ExpressionSpec.

Lemma succeeds_ret {A} (a : A) : succeeds (ret a).
Proof. intros t. by exists a, t. Qed.

Lemma succeeds_bind {A B} (m : Build A) (k : A → Build B) :
  succeeds m → (∀ a, succeeds (k a)) → succeeds (let* a := m in k a).
Proof.
  intros Hm Hk t. unfold bind.
  destruct (Hm t) as (a & t' & ->). apply Hk.
Qed.

Lemma succeeds_mapM {A B} (f : A → Build B) (xs : list A) :
  Forall (λ x, succeeds (f x)) xs → succeeds (mapM f xs).
Proof.
  induction 1 as [|x xs Hx _ IH]; simpl.
  - apply succeeds_ret.
  - apply succeeds_bind; [done|]. intros y.
    apply succeeds_bind; [done|]. intros ys. apply succeeds_ret.
Qed.

Lemma succeeds_getName name alias : succeeds (getName name alias).
Proof. intros t. unfold getName. eauto. Qed.

Lemma succeeds_getValue v alias : succeeds (getValue v alias).
Proof. intros t. unfold getValue. eauto. Qed.

Lemma succeeds_escapePath path : succeeds (escapePath path).
Proof.
  unfold escapePath. apply succeeds_bind.
  - apply succeeds_mapM, Forall_forall. intros. apply succeeds_getName.
  - intros. apply succeeds_ret.
Qed.

Local Ltac step :=
  repeat match goal with
    | |- succeeds (bind _ _) => apply succeeds_bind; [|intros ?]
    | |- succeeds (ret _) => apply succeeds_ret
    | |- succeeds (getName _ _) => apply succeeds_getName
    | |- succeeds (getValue _ _) => apply succeeds_getValue
    | |- succeeds (escapePath _) => apply succeeds_escapePath
    | |- succeeds (get _ _) => solve [auto]
    | |- succeeds (build _) => solve [auto]
    end.

(** A well-formed tree compiles, whatever the tracker holds. *)
Lemma wellFormed_succeeds :
  (∀ o, operandWellFormed o = true → ∀ alias, succeeds (get o alias)) ∧
  (∀ c, wellFormed c = true → succeeds (build c)).
Proof.
  assert (Hlist : ∀ {X} (f : X → bool) (R : X → Prop) (l : list X),
             Forall (λ x, f x = true → R x) l → forallb f l = true → Forall R l).
  { intros X f R l H. induction H as [|x l Hx _ IH]; simpl; [constructor|].
    intros [? ?]%andb_true_iff. constructor; auto. }
  pose (P := λ o, operandWellFormed o = true → ∀ alias, succeeds (get o alias)).
  pose (Q := λ c, wellFormed c = true → succeeds (build c)).
  assert (HP : ∀ o, P o).
  { apply (operand_condition_ind P Q); subst P Q; simpl.
    - intros. apply succeeds_getValue.
    - intros. apply succeeds_getName.
    - auto.
    - intros. step.
    - intros o1 cmp o2 H1 H2 [? ?]%andb_true_iff. step.
    - intros o s e H1 H2 H3 [[? ?]%andb_true_iff ?]%andb_true_iff. step.
    - intros o s H1 ?. step.
    - intros o l H1 Hl [? Hall]%andb_true_iff.
      apply succeeds_bind; [auto|intros ?].
      apply succeeds_bind; [|intros; apply succeeds_ret].
      apply succeeds_mapM.
      eapply Forall_impl; [exact (Hlist _ _ _ l Hl Hall)|].
      simpl. auto.
    - intros cs Hcs [Hlen Hall]%andb_true_iff.
      pose proof (Hlist _ _ _ cs Hcs Hall) as Hmembers.
      destruct cs as [|x [|y cs]]; [discriminate..|].
      apply succeeds_bind; [|intros; apply succeeds_ret].
      by apply succeeds_mapM.
    - intros cs Hcs [Hlen Hall]%andb_true_iff.
      pose proof (Hlist _ _ _ cs Hcs Hall) as Hmembers.
      destruct cs as [|x [|y cs]]; [discriminate..|].
      apply succeeds_bind; [|intros; apply succeeds_ret].
      by apply succeeds_mapM.
    - intros c H ?. step.
    - intros. step.
    - intros. step.
    - intros. step.
    - intros path o H ?. step. }
  split; [exact HP|].
  intros c Hc. exact (HP (OCondition c) Hc None).
Qed.

Lemma raisesOnly_ret {A} S (a : A) : raisesOnly S (ret a).
Proof. by intros t e. Qed.

Lemma raisesOnly_bind {A B} S (m : Build A) (k : A → Build B) :
  raisesOnly S m → (∀ a, raisesOnly S (k a)) → raisesOnly S (let* a := m in k a).
Proof.
  intros Hm Hk t e. unfold bind.
  destruct (m t) as [[a t']|e'] eqn:E.
  - apply Hk.
  - intros [= <-]. by eapply Hm.
Qed.

Lemma raisesOnly_mapM {A B} S (f : A → Build B) (xs : list A) :
  Forall (λ x, raisesOnly S (f x)) xs → raisesOnly S (mapM f xs).
Proof.
  induction 1 as [|x xs Hx _ IH]; simpl.
  - apply raisesOnly_ret.
  - apply raisesOnly_bind; [done|]. intros y.
    apply raisesOnly_bind; [done|]. intros ys. apply raisesOnly_ret.
Qed.

Lemma raisesOnly_getName S name alias : raisesOnly S (getName name alias).
Proof. by intros t e. Qed.

Lemma raisesOnly_getValue S v alias : raisesOnly S (getValue v alias).
Proof. by intros t e. Qed.

Lemma raisesOnly_escapePath S path : raisesOnly S (escapePath path).
Proof.
  unfold escapePath. apply raisesOnly_bind.
  - apply raisesOnly_mapM, Forall_forall. intros. apply raisesOnly_getName.
  - intros. apply raisesOnly_ret.
Qed.

Local Ltac stepR :=
  repeat match goal with
    | |- raisesOnly _ (bind _ _) => apply raisesOnly_bind; [|intros ?]
    | |- raisesOnly _ (ret _) => apply raisesOnly_ret
    | |- raisesOnly _ (getName _ _) => apply raisesOnly_getName
    | |- raisesOnly _ (getValue _ _) => apply raisesOnly_getValue
    | |- raisesOnly _ (escapePath _) => apply raisesOnly_escapePath
    | |- raisesOnly _ (get _ _) => solve [auto]
    | |- raisesOnly _ (build _) => solve [auto]
    end.

(** Compiling a condition raises nothing but the arity errors. *)
Lemma build_raisesOnly_arity :
  (∀ o alias, raisesOnly arityError (get o alias)) ∧
  (∀ c, raisesOnly arityError (build c)).
Proof.
  pose (P := λ o, ∀ alias, raisesOnly arityError (get o alias)).
  pose (Q := λ c, raisesOnly arityError (build c)).
  assert (HP : ∀ o, P o).
  { apply (operand_condition_ind P Q); subst P Q; simpl.
    - intros. apply raisesOnly_getValue.
    - intros. apply raisesOnly_getName.
    - auto.
    - intros. stepR.
    - intros. stepR.
    - intros. stepR.
    - intros. stepR.
    - intros o l H1 Hl.
      apply raisesOnly_bind; [auto|intros ?].
      apply raisesOnly_bind; [|intros; apply raisesOnly_ret].
      apply raisesOnly_mapM. eapply Forall_impl; [exact Hl|]. simpl. auto.
    - intros cs Hcs. destruct cs as [|x [|y cs]].
      + intros t e [= <-]. exact I.
      + intros t e [= <-]. exact I.
      + apply raisesOnly_bind; [|intros; apply raisesOnly_ret].
        by apply raisesOnly_mapM.
    - intros cs Hcs. destruct cs as [|x [|y cs]].
      + intros t e [= <-]. exact I.
      + intros t e [= <-]. exact I.
      + apply raisesOnly_bind; [|intros; apply raisesOnly_ret].
        by apply raisesOnly_mapM.
    - intros. stepR.
    - intros. stepR.
    - intros. stepR.
    - intros. stepR.
    - intros. stepR. }
  split; [exact HP|].
  intros c. exact (HP (OCondition c) None).
Qed.

(** *** Strings and decimal numerals *)

Lemma append_cons (c : Ascii.ascii) (s1 s2 : string) :
  String c s1 +:+ s2 = String c (s1 +:+ s2).
Proof. reflexivity. Qed.

Lemma append_assoc (s1 s2 s3 : string) : (s1 +:+ s2) +:+ s3 = s1 +:+ (s2 +:+ s3).
Proof.
  induction s1 as [|c s1 IH]; [done|].
  rewrite !append_cons. by rewrite IH.
Qed.

(** Two strings that are equal end in the same character. *)
Lemma append_last_inj (u1 u2 : string) (c1 c2 : Ascii.ascii) :
  u1 +:+ String c1 "" = u2 +:+ String c2 "" → c1 = c2.
Proof.
  revert u2.
  induction u1 as [|a u1 IH]; intros [|b u2]; rewrite ?append_cons; intros H.
  - by injection H.
  - injection H as _ H. by destruct u2.
  - injection H as _ H. by destruct u1.
  - injection H as _ H. eauto.
Qed.

Lemma pretty_N_go_append (x : N) (s : string) :
  pretty_N_go x s = pretty_N_go x "" +:+ s.
Proof.
  revert s. induction (N.lt_wf_0 x) as [x _ IH]; intros s.
  destruct (decide (x = 0)%N) as [->|Hx].
  - by rewrite !pretty_N_go_0.
  - rewrite !(pretty_N_go_step x) by lia.
    assert (x `div` 10 < x)%N as Hlt by (apply N.div_lt; lia).
    rewrite (IH _ Hlt (String _ s)), (IH _ Hlt (String _ "")).
    by rewrite append_assoc.
Qed.

(** The last character of a decimal numeral is the digit of the number
    modulo ten. *)
Lemma pretty_nat_last (n : nat) :
  ∃ u, pretty n = u +:+ String (pretty_N_char (N.of_nat n `mod` 10)) "".
Proof.
  unfold pretty, pretty_nat, pretty, pretty_N.
  destruct (decide (N.of_nat n = 0)%N) as [->|Hn].
  - by exists "".
  - rewrite pretty_N_go_step by lia.
    rewrite pretty_N_go_append. eauto.
Qed.

(** Consecutive counters never give the same placeholder, whatever the two
    prefixes are. *)
Lemma pretty_successor_distinct (a1 a2 : string) (n : nat) :
  a1 +:+ pretty n ≠ a2 +:+ pretty (S n).
Proof.
  destruct (pretty_nat_last n) as [u1 ->].
  destruct (pretty_nat_last (S n)) as [u2 ->].
  rewrite <- !append_assoc. intros H%append_last_inj.
  apply pretty_N_char_inj in H; try (apply N.mod_lt; lia).
  replace (N.of_nat (S n)) with (N.of_nat n + 1)%N in H by lia.
  assert (N.of_nat n `mod` 10 < 10)%N by (apply N.mod_lt; lia).
  rewrite (N.Div0.add_mod (N.of_nat n) 1 10) in H.
  change (1 `mod` 10)%N with 1%N in H.
  destruct (decide (N.of_nat n `mod` 10 = 9)%N) as [E|E].
  - rewrite E in H. by vm_compute in H.
  - rewrite (N.mod_small (N.of_nat n `mod` 10 + 1) 10) in H by lia. lia.
Qed.

Lemma mapM_length {A B} (f : A → Build B) (xs : list A) t ys t' :
  mapM f xs t = Ok (ys, t') → length ys = length xs.
Proof.
  revert t ys t'. induction xs as [|x xs IH]; simpl; intros t ys t'.
  - unfold ret. by intros [= <- _].
  - unfold bind at 1. destruct (f x t) as [[y t1]|]; [|done].
    unfold bind at 1. destruct (mapM f xs t1) as [[ys' t2]|] eqn:E; [|done].
    unfold ret. intros [= <- _]. simpl. f_equal. eauto.
Qed.

(** C7. Compiling an [And] or an [Or] with no or one sub-condition raises the
    compiler's own arity error, whatever the sub-condition is.  With two or
    more sub-conditions the result is the strings the sub-conditions compile
    to, from left to right against the one tracker, each in parentheses and
    joined by " AND " (" OR "); an error raised by a sub-condition is passed
    on; and the sub-conditions do compile when none of them holds an [And] or
    [Or] of fewer than two members. *)
Theorem and_or_build (conditions : list Condition) (t : AttributeTracker) :
  (length conditions < 2 →
     build (And conditions) t = Err (AndTooFewOperands (length conditions)) ∧
     build (Or conditions) t = Err (OrTooFewOperands (length conditions))) ∧
  (2 ≤ length conditions →
     (∀ built t',
        mapM build conditions t = Ok (built, t') →
        length built = length conditions ∧
        build (And conditions) t
          = Ok ("(" +:+ String.concat ") AND (" built +:+ ")", t') ∧
        build (Or conditions) t
          = Ok ("(" +:+ String.concat ") OR (" built +:+ ")", t')) ∧
     (∀ e,
        mapM build conditions t = Err e →
        build (And conditions) t = Err e ∧ build (Or conditions) t = Err e) ∧
     (Forall (λ c, wellFormed c = true) conditions →
        ∃ built t', mapM build conditions t = Ok (built, t'))).
Proof.
  split.
  - intros Hlen. destruct conditions as [|x [|y cs]]; simpl in *; (done || lia).
  - intros Hlen.
    assert (build (And conditions) t
            = (let* built := mapM build conditions in
               ret ("(" +:+ String.concat ") AND (" built +:+ ")")) t) as ->.
    { destruct conditions as [|x [|y cs]]; simpl in Hlen; [lia..|done]. }
    assert (build (Or conditions) t
            = (let* built := mapM build conditions in
               ret ("(" +:+ String.concat ") OR (" built +:+ ")")) t) as ->.
    { destruct conditions as [|x [|y cs]]; simpl in Hlen; [lia..|done]. }
    unfold bind. split; [|split].
    + intros built t' Hbuilt. rewrite Hbuilt.
      split; [by eapply mapM_length|done].
    + intros e Hbuilt. by rewrite Hbuilt.
    + intros Hwf. apply succeeds_mapM.
      eapply Forall_impl; [exact Hwf|].
      intros c Hc. by apply wellFormed_succeeds.
Qed.

Lemma and_or_build_witness :
  build (And []) newAttributeTracker = Err (AndTooFewOperands 0) ∧
  build (Or [Exists "a"]) newAttributeTracker = Err (OrTooFewOperands 1) ∧
  build (And [Eq (A "a") (OLiteral (LNumber 1)); Eq (A "b") (OLiteral (LNumber 2))])
    newAttributeTracker
  = Ok ("(#a = :v_sub0) AND (#b = :v_sub1)",
        {| valueCounter := 2;
           attributeNames := {[ "#a" := "a"; "#b" := "b" ]};
           attributeValues := {[ ":v_sub0" := LNumber 1; ":v_sub1" := LNumber 2 ]} |}) ∧
  build (And [And []; Eq (A "b") (OLiteral (LNumber 2))]) newAttributeTracker
  = Err (AndTooFewOperands 0).
Proof.
  split; [|split; [|split]].
  - destruct (proj1 (and_or_build [] newAttributeTracker)) as [H _];
      [simpl; lia|exact H].
  - destruct (proj1 (and_or_build [Exists "a"] newAttributeTracker)) as [_ H];
      [simpl; lia|exact H].
  - destruct (proj2 (and_or_build
        [Eq (A "a") (OLiteral (LNumber 1)); Eq (A "b") (OLiteral (LNumber 2))]
        newAttributeTracker)) as (Hok & _ & _); [simpl; lia|].
    destruct (Hok ["#a = :v_sub0"; "#b = :v_sub1"]
                {| valueCounter := 2;
                   attributeNames := {[ "#a" := "a"; "#b" := "b" ]};
                   attributeValues :=
                     {[ ":v_sub0" := LNumber 1; ":v_sub1" := LNumber 2 ]} |})
      as (_ & Hand & _); [vm_compute; reflexivity|exact Hand].
  - destruct (proj2 (and_or_build [And []; Eq (A "b") (OLiteral (LNumber 2))]
        newAttributeTracker)) as (_ & Herr & _); [simpl; lia|].
    apply (proj1 (Herr _ eq_refl)).
Defined.

(** C9. Two resolutions of literals, one after the other on one tracker and
    under any aliases, allocate the placeholders numbered by the counter and by
    its successor.  The two placeholders differ, also for equal literals; both
    stay bound in [attributeValues]; the counter grows by one at each
    resolution and is 0 in a new tracker. *)
Theorem value_placeholders_sequential (t : AttributeTracker) (v1 v2 : Literal)
    (alias1 alias2 : option string) :
  ∃ p1 t1 p2 t2,
    get (OLiteral v1) alias1 t = Ok (p1, t1) ∧
    get (OLiteral v2) alias2 t1 = Ok (p2, t2) ∧
    p1 = ":" +:+ orElse alias1 "v_sub" +:+ pretty (valueCounter t) ∧
    p2 = ":" +:+ orElse alias2 "v_sub" +:+ pretty (S (valueCounter t)) ∧
    p1 ≠ p2 ∧
    valueCounter t1 = S (valueCounter t) ∧
    valueCounter t2 = S (valueCounter t1) ∧
    attributeValues t2 !! p1 = Some (convertValue v1) ∧
    attributeValues t2 !! p2 = Some (convertValue v2) ∧
    valueCounter newAttributeTracker = 0.
Proof.
  assert (":" +:+ orElse alias1 "v_sub" +:+ pretty (valueCounter t)
          ≠ ":" +:+ orElse alias2 "v_sub" +:+ pretty (S (valueCounter t))) as Hne.
  { rewrite <- !append_assoc. apply pretty_successor_distinct. }
  simpl. unfold getValue. simpl.
  eexists _, _, _, _. repeat split; try reflexivity; simpl.
  - exact Hne.
  - rewrite lookup_insert_ne by (intros E; by apply Hne).
    apply lookup_insert_eq.
  - apply lookup_insert_eq.
Qed.

(** C10. Two different attribute names resolved under one alias both get the
    placeholder "#" followed by the alias, and the names map then binds that
    placeholder to the name resolved last: the first binding is overwritten. *)
Theorem alias_shared_by_two_names (t : AttributeTracker) (name1 name2 alias : string) :
  name1 ≠ name2 →
  ∃ t1 t2,
    get (A name1) (Some alias) t = Ok ("#" +:+ alias, t1) ∧
    attributeNames t1 !! ("#" +:+ alias) = Some name1 ∧
    get (A name2) (Some alias) t1 = Ok ("#" +:+ alias, t2) ∧
    attributeNames t2 !! ("#" +:+ alias) = Some name2 ∧
    attributeNames t2 !! ("#" +:+ alias) ≠ Some name1 ∧
    (∀ p, p ≠ "#" +:+ alias → attributeNames t2 !! p = attributeNames t !! p).
Proof.
  intros Hne. simpl. unfold getName. simpl.
  eexists _, _. repeat split; try reflexivity; simpl.
  - apply lookup_insert_eq.
  - apply lookup_insert_eq.
  - rewrite lookup_insert_eq. congruence.
  - intros p Hp. by rewrite !lookup_insert_ne.
Qed.

Lemma alias_shared_by_two_names_witness :
  "price" ≠ "cost" ∧
  ∃ t1 t2,
    get (A "price") (Some "x") newAttributeTracker = Ok ("#x", t1) ∧
    get (A "cost") (Some "x") t1 = Ok ("#x", t2) ∧
    attributeNames t2 !! "#x" = Some "cost".
Proof.
  assert ("price" ≠ "cost") as Hne by discriminate.
  split; [exact Hne|].
  destruct (alias_shared_by_two_names newAttributeTracker "price" "cost" "x" Hne)
    as (t1 & t2 & H1 & _ & H2 & H3 & _).
  exists t1, t2. auto.
Defined.

End ExpressionProperties.

(** * Properties of the request builder *)

Module BuilderProperties.
Import Expressions QueryBuilder ExpressionSpec BuilderSpec ExpressionProperties.

Lemma build_equality (key : string) (v : Literal) (t : AttributeTracker) :
  ∃ t', Expressions.build (Comparison (A key) CmpEq (OLiteral v)) t
          = Ok (equalityText key (valueCounter t), t') ∧
        valueCounter t' = S (valueCounter t).
Proof. eexists. split; reflexivity. Qed.

Lemma build_equalities (key : string) (values : list Literal) (t : AttributeTracker) :
  ∃ t', mapM Expressions.build
          (map (λ v, Comparison (A key) CmpEq (OLiteral v)) values) t
        = Ok (map (equalityText key) (seq (valueCounter t) (length values)), t') ∧
        valueCounter t' = valueCounter t + length values.
Proof.
  revert t. induction values as [|v values IH]; intros t.
  - exists t. split; [done|simpl; lia].
  - destruct (build_equality key v t) as (t1 & H1 & Hc1).
    destruct (IH t1) as (t2 & H2 & Hc2).
    exists t2. split; [|simpl; lia].
    cbn [map mapM length seq]. unfold bind at 1. rewrite H1.
    unfold bind at 1. rewrite H2, Hc1. done.
Qed.

Lemma build_fieldCondition (key : string) (values : list Literal) (t : AttributeTracker) :
  values ≠ [] →
  ∃ t', Expressions.build (fieldCondition (key, values)) t
          = Ok (fieldText (valueCounter t) key values, t') ∧
        valueCounter t' = valueCounter t + length values.
Proof.
  intros Hne. destruct values as [|v1 [|v2 values]]; [done| |].
  - destruct (build_equality key v1 t) as (t' & H & Hc).
    exists t'. split; [exact H|simpl; lia].
  - destruct (build_equalities key (v1 :: v2 :: values) t) as (t' & H & Hc).
    exists t'. split; [|done].
    change (Expressions.build (fieldCondition (key, v1 :: v2 :: values)) t)
      with ((let* built := mapM Expressions.build
                 (map (λ v, Comparison (A key) CmpEq (OLiteral v))
                    (v1 :: v2 :: values)) in
             ret ("(" +:+ String.concat ") OR (" built +:+ ")")) t).
    unfold bind at 1. by rewrite H.
Qed.

Lemma build_fieldConditions (filters : Filters) (t : AttributeTracker) :
  Forall (λ entry, entry.2 ≠ []) filters →
  ∃ t', mapM Expressions.build (map fieldCondition filters) t
          = Ok (fieldTexts (valueCounter t) filters, t').
Proof.
  intros Hall. revert t.
  induction Hall as [|[key values] filters Hne _ IH]; intros t.
  - by exists t.
  - destruct (build_fieldCondition key values t Hne) as (t1 & H1 & Hc1).
    destruct (IH t1) as (t2 & H2).
    exists t2. cbn [map mapM fieldTexts]. unfold bind at 1. rewrite H1.
    unfold bind at 1. rewrite H2, Hc1. done.
Qed.

(** C5. A simple filter map with at least one field, each field with at least
    one value, compiles at [build()] to: one equality for a field with one
    value; the OR of the n equalities for a field with n >= 2 values; the AND
    of the fields' conditions for two or more fields; the single field's
    condition, unwrapped, for one field.  The filter step of [build()] stores
    that text as [FilterExpression]. *)
Theorem simple_filter_text (filters : Filters) (query : QueryCommandInput)
    (t : AttributeTracker) :
  filters ≠ [] →
  Forall (λ entry, entry.2 ≠ []) filters →
  ∃ t',
    buildFilter query (Some filters) t
      = Ok (setFilterExpression (Some (filterText (valueCounter t) filters)) query, t') ∧
    (∀ key v, fieldText (valueCounter t) key [v]
              = "#" +:+ key +:+ " = :v_sub" +:+ pretty (valueCounter t)) ∧
    (∀ key v1 v2,
       fieldText (valueCounter t) key [v1; v2]
       = "(#" +:+ key +:+ " = :v_sub" +:+ pretty (valueCounter t) +:+ ") OR (#"
         +:+ key +:+ " = :v_sub" +:+ pretty (S (valueCounter t)) +:+ ")") ∧
    (∀ v1 v2 v3, ∃ b request b',
       withFilter (Some [("f1", [v1]); ("f2", [v2; v3])]) (new "table") = Ok b ∧
       QueryBuilder.build OpScan b = Ok (request, b') ∧
       FilterExpression request
         = Some "(#f1 = :v_sub0) AND ((#f2 = :v_sub1) OR (#f2 = :v_sub2))" ∧
       ExpressionAttributeNames request = Some {[ "#f1" := "f1"; "#f2" := "f2" ]} ∧
       ExpressionAttributeValues request
         = Some (<[":v_sub2" := convertValue v3]>
                   (<[":v_sub1" := convertValue v2]>
                      (<[":v_sub0" := convertValue v1]> ∅)))).
Proof.
  intros Hne Hall.
  assert (∃ t', generateFilterInput filters t
                = Ok (Some (filterText (valueCounter t) filters), t')) as (t' & Ht').
  { destruct filters as [|[key values] [|entry2 rest]]; [done| |].
    - apply Forall_cons in Hall as [Hv _].
      destruct (build_fieldCondition key values t Hv) as (t' & H & _).
      exists t'.
      change (generateFilterInput [(key, values)] t)
        with ((let* e := Expressions.build (fieldCondition (key, values)) in
               ret (Some e)) t).
      unfold bind. by rewrite H.
    - destruct (build_fieldConditions _ t Hall) as (t' & H).
      exists t'.
      change (generateFilterInput ((key, values) :: entry2 :: rest) t)
        with ((let* e :=
                 (let* built := mapM Expressions.build
                      (map fieldCondition ((key, values) :: entry2 :: rest)) in
                  ret ("(" +:+ String.concat ") AND (" built +:+ ")")) in
               ret (Some e)) t).
      unfold bind. by rewrite H. }
  exists t'. split; [|split; [|split]].
  - unfold buildFilter, bind. by rewrite Ht'.
  - reflexivity.
  - intros key v1 v2. unfold fieldText, equalityText.
    cbn [length seq map String.concat]. by rewrite !append_assoc.
  - intros v1 v2 v3. eexists _, _, _.
    split; [reflexivity|]. split; [vm_compute; reflexivity|].
    repeat split.
Qed.

Lemma simple_filter_text_witness :
  ∃ t',
    buildFilter emptyInput
      (Some [("f1", [LString "v1"]); ("f2", [LString "v2"; LString "v3"])])
      newAttributeTracker
    = Ok (setFilterExpression
            (Some "(#f1 = :v_sub0) AND ((#f2 = :v_sub1) OR (#f2 = :v_sub2))")
            emptyInput, t').
Proof.
  destruct (simple_filter_text
              [("f1", [LString "v1"]); ("f2", [LString "v2"; LString "v3"])]
              emptyInput newAttributeTracker) as (t' & H & _).
  - discriminate.
  - repeat constructor; discriminate.
  - exists t'. exact H.
Defined.

(** *** Projection *)

Lemma placeholder_inj (a b : string) : "#" +:+ a = "#" +:+ b → a = b.
Proof. intros [= E]. exact E. Qed.

Lemma setAdd_elem (x y : string) (s : list string) :
  y ∈ setAdd x s ↔ y ∈ s ∨ y = x.
Proof.
  unfold setAdd. case_bool_decide as Hx.
  - split; [auto|]. intros [?| ->]; done.
  - rewrite elem_of_app, list_elem_of_singleton. done.
Qed.

Lemma setAdd_NoDup (x : string) (s : list string) : NoDup s → NoDup (setAdd x s).
Proof.
  intros Hs. unfold setAdd. case_bool_decide as Hx; [done|].
  apply NoDup_app. split; [done|]. split.
  - intros y Hy ->%list_elem_of_singleton. done.
  - apply NoDup_singleton.
Qed.

Lemma setAdd_new (x : string) (s : list string) : x ∉ s → setAdd x s = s ++ [x].
Proof. intros Hx. unfold setAdd. by rewrite bool_decide_false. Qed.

Lemma addFields_spec (fields acc : list string) (t : AttributeTracker) :
  NoDup acc →
  ∃ l t', addFields fields acc t = Ok (l, t') ∧ NoDup l ∧
          ∀ p, p ∈ l ↔ p ∈ acc ∨ p ∈ map (λ f, "#" +:+ f) fields.
Proof.
  revert acc t. induction fields as [|f fields IH]; intros acc t Hacc.
  - exists acc, t. split; [done|]. split; [done|].
    intros p. simpl. rewrite elem_of_nil. tauto.
  - edestruct (IH (setAdd ("#" +:+ f) acc)) as (l & t' & H & Hnd & Hl);
      [by apply setAdd_NoDup|].
    exists l, t'. split; [exact H|]. split; [done|].
    intros p. rewrite Hl, setAdd_elem. simpl. rewrite elem_of_cons. tauto.
Qed.

(** C6. With a key configuration staged, the projection holds, besides the
    placeholders of the requested fields, the partition key's and - when a
    sort key name is given - the sort key's; no placeholder occurs twice, also
    when a requested field is a key field; the expression is the placeholders
    joined by commas.  Fields [a; b] on keys [pk], [sk], all different, give
    #a,#b,#pk,#sk. *)
Theorem projection_includes_keys (k : KeyParams) (fields : list string)
    (t : AttributeTracker) :
  ∃ l t',
    projectionFields (Some k) fields t = Ok (l, t') ∧
    generateProjectionExpression (Some k) fields t = Ok (String.concat "," l, t') ∧
    NoDup l ∧
    (∀ p, p ∈ l ↔
          p ∈ map (λ f, "#" +:+ f) fields ∨ p = "#" +:+ partitionKeyName k ∨
          ∃ sk, sortKeyName k = Some sk ∧ sk ≠ "" ∧ p = "#" +:+ sk) ∧
    (∀ a b sk,
       fields = [a; b] → sortKeyName k = Some sk → sk ≠ "" →
       NoDup [a; b; partitionKeyName k; sk] →
       l = ["#" +:+ a; "#" +:+ b; "#" +:+ partitionKeyName k; "#" +:+ sk] ∧
       String.concat "," l
       = "#" +:+ a +:+ ",#" +:+ b +:+ ",#" +:+ partitionKeyName k +:+ ",#" +:+ sk).
Proof.
  destruct (addFields_spec fields [] t) as (l0 & t0 & H0 & Hnd0 & Hl0);
    [apply NoDup_nil_2|].
  assert (∃ l t', projectionFields (Some k) fields t = Ok (l, t') ∧ NoDup l ∧
            (∀ p, p ∈ l ↔
               p ∈ map (λ f, "#" +:+ f) fields ∨ p = "#" +:+ partitionKeyName k ∨
               ∃ sk, sortKeyName k = Some sk ∧ sk ≠ "" ∧ p = "#" +:+ sk) ∧
            (∀ sk, sortKeyName k = Some sk → sk ≠ "" →
               l = setAdd ("#" +:+ sk) (setAdd ("#" +:+ partitionKeyName k) l0)))
    as (l & t' & Hproj & Hnd & Hl & Hshape).
  { unfold projectionFields, bind. rewrite H0. simpl.
    destruct (sortKeyName k) as [sk|] eqn:Hsk; simpl.
    - unfold truthy. destruct (String.eqb_spec sk "") as [->|Hne]; simpl.
      + eexists _, _. split; [reflexivity|]. split; [by apply setAdd_NoDup|].
        split; [|by intros ? [= <-]].
        intros p. rewrite setAdd_elem, Hl0, elem_of_nil.
        split; [tauto|]. intros [?|[?|(sk & [= <-] & ? & _)]]; tauto.
      + eexists _, _. split; [reflexivity|].
        split; [by do 2 apply setAdd_NoDup|].
        split; [|by intros ? [= <-]].
        intros p. rewrite !setAdd_elem, Hl0, elem_of_nil.
        split; [|intros [?|[?|(? & [= <-] & _ & ?)]]; tauto].
        intros [[[[]|?]|?]|?]; eauto 6.
    - eexists _, _. split; [reflexivity|]. split; [by apply setAdd_NoDup|].
      split; [|done].
      intros p. rewrite setAdd_elem, Hl0, elem_of_nil.
      split; [tauto|]. intros [?|[?|(sk & ? & _)]]; [tauto..|done]. }
  exists l, t'. split; [done|]. split.
  { unfold generateProjectionExpression, bind. by rewrite Hproj. }
  split; [done|]. split; [done|].
  intros a b sk -> Hsk Hne Hdistinct.
  assert (l0 = ["#" +:+ a; "#" +:+ b]) as ->.
  { apply NoDup_cons in Hdistinct as [Ha _].
    assert ("#" +:+ a ≠ "#" +:+ b) as Hab.
    { intros E%placeholder_inj. apply Ha. rewrite E. left. }
    simpl in H0. unfold getName, bind, ret in H0. simpl in H0.
    rewrite (setAdd_new _ []) in H0 by apply not_elem_of_nil.
    rewrite (setAdd_new ("#" +:+ b)) in H0.
    - by injection H0 as <- _.
    - simpl. rewrite list_elem_of_singleton. congruence. }
  assert (l = ["#" +:+ a; "#" +:+ b; "#" +:+ partitionKeyName k; "#" +:+ sk]) as ->.
  { rewrite (Hshape sk Hsk Hne).
    apply NoDup_cons in Hdistinct as [Ha Hdistinct].
    apply NoDup_cons in Hdistinct as [Hb Hdistinct].
    apply NoDup_cons in Hdistinct as [Hpk _].
    rewrite (setAdd_new ("#" +:+ partitionKeyName k)).
    - rewrite setAdd_new; [done|]. simpl.
      rewrite !elem_of_cons, elem_of_nil.
      intros [E%placeholder_inj|[E%placeholder_inj|[E%placeholder_inj|[]]]].
      + apply Ha. rewrite <- E. repeat constructor.
      + apply Hb. rewrite <- E. repeat constructor.
      + apply Hpk. rewrite <- E. repeat constructor.
    - rewrite !elem_of_cons, elem_of_nil.
      intros [E%placeholder_inj|[E%placeholder_inj|[]]].
      + apply Ha. rewrite <- E. repeat constructor.
      + apply Hb. rewrite <- E. repeat constructor. }
  split; [done|].
  cbn [String.concat].
  by rewrite (append_assoc "#" a), (append_assoc "#" b),
    (append_assoc "#" (partitionKeyName k)).
Qed.

Lemma projection_includes_keys_witness :
  ∃ t',
    generateProjectionExpression
      (Some {| partitionKeyName := "pk"; partitionKeyValue := Some "myPk";
               sortKeyName := Some "sk"; sortKeyValue := Some "mySk";
               sortKeyCondition := None |})
      ["a"; "b"] newAttributeTracker
    = Ok ("#a,#b,#pk,#sk", t').
Proof.
  destruct (projection_includes_keys
              {| partitionKeyName := "pk"; partitionKeyValue := Some "myPk";
                 sortKeyName := Some "sk"; sortKeyValue := Some "mySk";
                 sortKeyCondition := None |}
              ["a"; "b"] newAttributeTracker)
    as (l & t' & _ & Hgen & _ & _ & Hexample).
  destruct (Hexample "a" "b" "sk") as [_ Htext].
  - reflexivity.
  - reflexivity.
  - discriminate.
  - repeat constructor; rewrite ?elem_of_cons, ?elem_of_nil; intros H;
      repeat (destruct H as [H|H]; [discriminate|]); exact H.
  - exists t'. rewrite Hgen, Htext. reflexivity.
Defined.

(** A requested field that is a key field is listed once. *)
Example projection_requested_key :
  ∃ t',
    generateProjectionExpression
      (Some {| partitionKeyName := "pk"; partitionKeyValue := Some "myPk";
               sortKeyName := Some "sk"; sortKeyValue := None;
               sortKeyCondition := None |})
      ["sk"; "a"; "pk"; "a"] newAttributeTracker
    = Ok ("#sk,#a,#pk", t').
Proof. eexists. vm_compute. reflexivity. Qed.

(** *** [build] and the partition key *)

Lemma partitionKeyMissing_spec (b : QueryBuilder) :
  partitionKeyMissing (keys b) = false ↔ partitionKeyPresent b.
Proof.
  unfold partitionKeyMissing, partitionKeyPresent, truthy.
  destruct (keys b) as [k|]; [|split; [done|by intros (? & ? & ? & _)]].
  destruct (String.eqb_spec (partitionKeyName k) "") as [E|E];
    destruct (partitionKeyValue k) as [v|] eqn:Ev; simpl.
  - split; [done|]. by intros (? & ? & [= <-] & ? & _).
  - split; [done|]. by intros (? & ? & [= <-] & ? & _).
  - split; [|done]. intros _. by exists k, v.
  - split; [done|]. intros (? & ? & [= <-] & _ & ?). congruence.
Qed.

Lemma succeeds_generateFilterInput (f : Filters) :
  Forall (λ entry, entry.2 ≠ []) f → succeeds (generateFilterInput f).
Proof.
  intros Hall t. destruct f as [|[key values] [|entry2 rest]].
  - by eexists _, _.
  - apply Forall_cons in Hall as [Hv _].
    destruct (build_fieldCondition key values t Hv) as (t' & H & _).
    change (generateFilterInput [(key, values)] t)
      with ((let* e := Expressions.build (fieldCondition (key, values)) in
             ret (Some e)) t).
    unfold bind. rewrite H. by eexists _, _.
  - destruct (build_fieldConditions _ t Hall) as (t' & H).
    change (generateFilterInput ((key, values) :: entry2 :: rest) t)
      with ((let* e :=
               (let* built := mapM Expressions.build
                    (map fieldCondition ((key, values) :: entry2 :: rest)) in
                ret ("(" +:+ String.concat ") AND (" built +:+ ")")) in
             ret (Some e)) t).
    unfold bind. rewrite H. by eexists _, _.
Qed.

Lemma succeeds_addFields (fields acc : list string) : succeeds (addFields fields acc).
Proof.
  revert acc. induction fields as [|f fields IH]; intros acc; simpl.
  - apply succeeds_ret.
  - apply succeeds_bind; [apply succeeds_getName|]. intros. apply IH.
Qed.

Lemma succeeds_buildFields keys query fields : succeeds (buildFields keys query fields).
Proof.
  destruct fields as [fs|]; simpl; [|apply succeeds_ret].
  apply succeeds_bind; [|intros; apply succeeds_ret].
  unfold generateProjectionExpression.
  apply succeeds_bind; [|intros; apply succeeds_ret].
  unfold projectionFields.
  apply succeeds_bind; [apply succeeds_addFields|]. intros l.
  destruct keys as [k|]; [|apply succeeds_ret].
  apply succeeds_bind; [apply succeeds_getName|]. intros pk.
  destruct (truthyOpt (sortKeyName k)), (sortKeyName k); try apply succeeds_ret.
  apply succeeds_bind; [apply succeeds_getName|]. intros. apply succeeds_ret.
Qed.

Lemma raisesOnly_buildSteps (operation : Operation) (b : QueryBuilder) :
  raisesOnly arityError (buildSteps operation b).
Proof.
  pose proof (proj2 build_raisesOnly_arity) as Hbuild.
  assert (∀ fs acc, raisesOnly arityError (addFields fs acc)) as Hadd.
  { intros fs. induction fs as [|f fs IH]; intros acc; simpl.
    - apply raisesOnly_ret.
    - apply raisesOnly_bind; [apply raisesOnly_getName|]. intros. apply IH. }
  unfold buildSteps.
  apply raisesOnly_bind.
  { destruct operation; [|apply raisesOnly_ret].
    unfold buildKeys. destruct (keys b) as [k|]; [|apply raisesOnly_ret].
    destruct (truthyOpt (sortKeyName k)), (sortKeyName k), (sortKeyValue k),
      (sortKeyCondition k);
      (apply raisesOnly_bind; [apply Hbuild|intros; apply raisesOnly_ret]). }
  intros q1. apply raisesOnly_bind.
  { unfold buildFilter. destruct (filter b) as [f|]; [|apply raisesOnly_ret].
    apply raisesOnly_bind; [|intros; apply raisesOnly_ret].
    unfold generateFilterInput.
    destruct (if (0 <? length f)%nat then generateFilterExpression f else None);
      [|apply raisesOnly_ret].
    apply raisesOnly_bind; [apply Hbuild|intros; apply raisesOnly_ret]. }
  intros q2. apply raisesOnly_bind.
  { unfold buildFilterExpression.
    destruct (filterExpression b); [|apply raisesOnly_ret].
    apply raisesOnly_bind; [apply Hbuild|intros; apply raisesOnly_ret]. }
  intros q3. apply raisesOnly_bind.
  { unfold buildFields. destruct (fields b) as [fs|]; [|apply raisesOnly_ret].
    apply raisesOnly_bind; [|intros; apply raisesOnly_ret].
    unfold generateProjectionExpression.
    apply raisesOnly_bind; [|intros; apply raisesOnly_ret].
    unfold projectionFields.
    apply raisesOnly_bind; [apply Hadd|]. intros l.
    destruct (keys b) as [k|]; [|apply raisesOnly_ret].
    apply raisesOnly_bind; [apply raisesOnly_getName|]. intros pk.
    destruct (truthyOpt (sortKeyName k)), (sortKeyName k);
      try apply raisesOnly_ret.
    apply raisesOnly_bind; [apply raisesOnly_getName|].
    intros. apply raisesOnly_ret. }
  intros q4 t e. done.
Qed.

(** C8. Unless a partition key name and a partition key value are both
    staged, [build("query")] raises the partition key error.  On the same
    builder state [build("scan")] never raises that error, and it returns a
    request whenever the staged filter compiles - so from every state with no
    filter staged. *)
Theorem query_requires_partition_key (b : QueryBuilder) :
  (¬ partitionKeyPresent b → QueryBuilder.build OpQuery b = Err PartitionKeyRequired) ∧
  QueryBuilder.build OpScan b ≠ Err PartitionKeyRequired ∧
  (filterCompiles b → ∃ request b', QueryBuilder.build OpScan b = Ok (request, b')).
Proof.
  split; [|split].
  - intros Hmissing. unfold QueryBuilder.build.
    destruct (partitionKeyMissing (keys b)) eqn:E; [done|].
    by apply partitionKeyMissing_spec in E.
  - unfold QueryBuilder.build.
    destruct (buildSteps OpScan b newAttributeTracker) as [[q t]|e] eqn:E.
    + by destruct (partitionKeyMissing (keys b)).
    + apply raisesOnly_buildSteps in E.
      destruct (partitionKeyMissing (keys b)); intros [= ->]; exact E.
  - intros [Hfilter Hexpr].
    assert (succeeds (buildSteps OpScan b)) as Hsteps.
    { unfold buildSteps.
      apply succeeds_bind; [apply succeeds_ret|]. intros q1.
      apply succeeds_bind.
      { unfold buildFilter. destruct (filter b) as [f|]; [|apply succeeds_ret].
        apply succeeds_bind; [|intros; apply succeeds_ret].
        by apply succeeds_generateFilterInput. }
      intros q2. apply succeeds_bind.
      { unfold buildFilterExpression.
        destruct (filterExpression b) as [c|]; [|apply succeeds_ret].
        apply succeeds_bind; [|intros; apply succeeds_ret].
        by apply wellFormed_succeeds. }
      intros q3. apply succeeds_bind; [apply succeeds_buildFields|].
      intros q4 t. by eexists _, _. }
    destruct (Hsteps newAttributeTracker) as (q & t & E).
    unfold QueryBuilder.build. rewrite E.
    destruct (partitionKeyMissing (keys b)); by eexists _, _.
Qed.

Lemma query_requires_partition_key_witness :
  QueryBuilder.build OpQuery (new "table") = Err PartitionKeyRequired ∧
  ∃ request b', QueryBuilder.build OpScan (new "table") = Ok (request, b').
Proof.
  split.
  - apply (query_requires_partition_key (new "table")).
    by intros (k & v & [=] & _).
  - apply (query_requires_partition_key (new "table")).
    by split.
Defined.

(** *** Building twice *)

(** [build] replaces the tracker before it reads it: what the builder's
    tracker held has no effect. *)
Lemma build_ignores_tracker (operation : Operation) (b : QueryBuilder)
    (t : AttributeTracker) :
  QueryBuilder.build operation
    {| tableName := tableName b; query := query b; index := index b;
       keys := keys b; filter := filter b; filterExpression := filterExpression b;
       fields := fields b; pagination := pagination b;
       rawQueryOptions := rawQueryOptions b; tracker := t |}
  = QueryBuilder.build operation b.
Proof. reflexivity. Qed.

(** C3. A second [build()] on one builder is not independent of the first.
    [build] assigns into the one object [this.query], which the first build
    has already filled: after a query build, a scan build of the same staged
    configuration still carries the key condition and the name and value maps
    of the first build, which a scan build of that configuration on its own
    does not produce; and a page size that is no longer staged stays in the
    request as [Limit]. *)
Theorem second_build_keeps_first_request :
  let staged :=
    {| partitionKeyName := "pk"; partitionKeyValue := Some "myPk";
       sortKeyName := None; sortKeyValue := None; sortKeyCondition := None |} in
  ∃ b request1 b1 request2 b2 alone b',
    withKeys staged (new "table") = Ok b ∧
    QueryBuilder.build OpQuery b = Ok (request1, b1) ∧
    QueryBuilder.build OpScan b1 = Ok (request2, b2) ∧
    QueryBuilder.build OpScan b = Ok (alone, b') ∧
    (keys b1, index b1, filter b1, filterExpression b1, fields b1, pagination b1,
     rawQueryOptions b1)
    = (keys b, index b, filter b, filterExpression b, fields b, pagination b,
       rawQueryOptions b) ∧
    KeyConditionExpression alone = None ∧
    ExpressionAttributeNames alone = None ∧
    ExpressionAttributeValues alone = None ∧
    KeyConditionExpression request2 = Some "#pk = :v_sub0" ∧
    ExpressionAttributeNames request2 = Some {[ "#pk" := "pk" ]} ∧
    ExpressionAttributeValues request2 = Some {[ ":v_sub0" := LString "myPk" ]} ∧
    attributeNames (tracker b2) = ∅ ∧
    (∃ request3 b3 request4 b4,
       QueryBuilder.build OpQuery
         (withPagination
            (Some {| pageSize := Some 2%Z; lastEvaluatedKey := None; sortDir := None |}) b)
       = Ok (request3, b3) ∧
       QueryBuilder.build OpQuery (withPagination None b3) = Ok (request4, b4) ∧
       Limit request3 = Some 2%Z ∧
       pagination (withPagination None b3) = None ∧
       Limit request4 = Some 2%Z).
Proof.
  intros staged.
  eexists _, _, _, _, _, _, _.
  split; [reflexivity|].
  split; [vm_compute; reflexivity|].
  split; [vm_compute; reflexivity|].
  split; [vm_compute; reflexivity|].
  repeat (split; [reflexivity|]).
  eexists _, _, _, _.
  split; [vm_compute; reflexivity|].
  split; [vm_compute; reflexivity|].
  repeat split.
Qed.

End BuilderProperties.

(** * Properties of the paginated fetch engine *)

Module RepositoryProperties.
Import Expressions QueryBuilder Repository RepositorySpec.

Section Fetch.
Context {Item : Type}.
Implicit Types (script responses seen : list (CommandOutput Item)).
Implicit Types (result r : CommandOutput Item) (input : QueryCommandInput).

Lemma pagesItems_snoc seen result responses :
  pagesItems (seen ++ result :: responses) (S (length seen))
  = pagesItems (seen ++ result :: responses) (length seen) ++ itemsOf result.
Proof.
  unfold pagesItems. induction seen as [|a seen IH]; simpl.
  - by rewrite ?take_0, app_nil_r.
  - by rewrite IH, app_assoc.
Qed.

Lemma pageLoop_spec first next input script responses :
  ∀ seen result items sent out calls,
    script = seen ++ result :: responses →
    items = pagesItems script (S (length seen)) →
    length sent = S (length seen) →
    sent !! 0 = Some (first input) →
    (∀ k, 1 ≤ k < length sent →
       ∃ r, script !! (k - 1) = Some r ∧
            truncatedAfter input script k r = true ∧
            sent !! k = Some (next (nextInput input (pagesItems script k) r))) →
    pageLoop next input responses result items sent = Some (out, calls) →
    Fetched first next input script out calls.
Proof.
  induction responses as [|result' responses IH];
    intros seen result items sent out calls Hscript Hitems Hlen Hfirst Hsent Hloop;
    simpl in Hloop;
    destruct (hasResultBeenTruncated (Limit input)
                (Some (Z.of_nat (length items))) (LastEvaluatedKey result))
      eqn:Htrunc; try done.
  - injection Hloop as <- <-.
    assert (script !! length seen = Some result) as Hres.
    { rewrite Hscript. by apply list_lookup_middle. }
    split; [|split; [done|split; [done|]]].
    + rewrite Hscript, length_app, Hlen. simpl. lia.
    + exists result. rewrite Hlen. simpl. rewrite Nat.sub_0_r.
      split; [done|]. unfold truncatedAfter. rewrite <- Hitems. by split.
  - assert (script !! length seen = Some result) as Hres.
    { rewrite Hscript. by apply list_lookup_middle. }
    eapply (IH (seen ++ [result]) result'); [| | | | |exact Hloop].
    + rewrite Hscript. by rewrite <- app_assoc.
    + assert (script = (seen ++ [result]) ++ result' :: responses) as Hscript'
        by (by rewrite Hscript, <- app_assoc).
      rewrite Hitems, Hscript', (pagesItems_snoc (seen ++ [result])).
      by rewrite length_app, Nat.add_1_r.
    + rewrite !length_app. simpl. lia.
    + rewrite lookup_app_l by lia. done.
    + intros k Hk. rewrite length_app in Hk. simpl in Hk.
      destruct (decide (k < length sent)) as [Hlt|Hge].
      * destruct (Hsent k) as (r & ? & ? & ?); [lia|].
        exists r. rewrite lookup_app_l by lia. done.
      * assert (k = length sent) as -> by lia.
        exists result. rewrite Hlen. simpl. rewrite Nat.sub_0_r.
        split; [done|]. unfold truncatedAfter. rewrite <- Hitems.
        split; [done|].
        rewrite <- Hlen, list_lookup_middle by done. done.
  - injection Hloop as <- <-.
    assert (script !! length seen = Some result) as Hres.
    { rewrite Hscript. by apply list_lookup_middle. }
    split; [|split; [done|split; [done|]]].
    + rewrite Hscript, length_app, Hlen. simpl. lia.
    + exists result. rewrite Hlen. simpl. rewrite Nat.sub_0_r.
      split; [done|]. unfold truncatedAfter. rewrite <- Hitems. by split.
Qed.

(** Every fetch that returns went as [Fetched] says. *)
Lemma fetch_spec first next input script out calls :
  fetch first next input script = Some (out, calls) →
  Fetched first next input script out calls.
Proof.
  destruct script as [|result responses]; [done|]. simpl. intros Hloop.
  eapply (pageLoop_spec first next input _ responses [] result); [..|exact Hloop].
  - done.
  - unfold pagesItems. simpl. by rewrite app_nil_r.
  - done.
  - done.
  - simpl. intros k Hk. lia.
Qed.

Lemma pageLoop_returns next input responses :
  ∀ result items sent n r,
    (result :: responses) !! n = Some r →
    hasResultBeenTruncated (Limit input)
      (Some (Z.of_nat (length (items ++ concat (map itemsOf (take n responses))))))
      (LastEvaluatedKey r) = false →
    ∃ out calls, pageLoop next input responses result items sent = Some (out, calls).
Proof.
  induction responses as [|result' responses IH];
    intros result items sent n r Hn Hstop; simpl;
    destruct (hasResultBeenTruncated (Limit input)
                (Some (Z.of_nat (length items))) (LastEvaluatedKey result))
      eqn:Htrunc; eauto.
  - destruct n as [|n]; [|done]. simpl in Hn. injection Hn as <-.
    simpl in Hstop. rewrite app_nil_r in Hstop. congruence.
  - destruct n as [|n].
    + simpl in Hn. injection Hn as <-.
      simpl in Hstop. rewrite app_nil_r in Hstop. congruence.
    + apply (IH result' _ _ n r); [done|].
      simpl in Hstop. by rewrite <- app_assoc.
Qed.

(** A fetch returns as soon as the script holds a response after which the
    result is not judged truncated. *)
Lemma fetch_returns first next input script n r :
  script !! n = Some r →
  truncatedAfter input script (S n) r = false →
  ∃ out calls, fetch first next input script = Some (out, calls).
Proof.
  destruct script as [|result responses]; [done|]. intros Hn Hstop. simpl.
  by apply (pageLoop_returns next input responses result _ _ n r).
Qed.
End Fetch.

(** C1. With a limit L > 0 the result is judged truncated exactly when a
    continuation token is present and the accumulated count is below L; with
    no limit, or limit 0, exactly when a token is present.  An absent count
    is 0. *)
Theorem truncation_decision (inputLimit : option Z) (count : Z)
    (token : option (gmap string Literal)) :
  (∀ L, inputLimit = Some L → (0 < L)%Z →
     hasResultBeenTruncated inputLimit (Some count) token = true
     ↔ token ≠ None ∧ (count < L)%Z) ∧
  (inputLimit = None ∨ inputLimit = Some 0%Z →
     hasResultBeenTruncated inputLimit (Some count) token = true ↔ token ≠ None) ∧
  hasResultBeenTruncated inputLimit None token
  = hasResultBeenTruncated inputLimit (Some 0%Z) token.
Proof.
  split; [|split; [|done]].
  - intros L -> HL. unfold hasResultBeenTruncated. simpl.
    destruct (Z.eqb_spec L 0); [lia|].
    destruct (Z.ltb_spec 0 L); [|lia]. simpl.
    destruct token; simpl.
    + destruct (Z.ltb_spec count L); split; try done; intros [_ ?]; lia.
    + split; [done|]. by intros [? _].
  - intros [-> | ->]; unfold hasResultBeenTruncated; simpl;
      destruct token; simpl; split; done.
Qed.

Lemma truncation_decision_witness :
  hasResultBeenTruncated (Some 6%Z) (Some 3%Z) (Some {[ "x" := LNumber 1 ]}) = true ∧
  hasResultBeenTruncated (Some 3%Z) (Some 3%Z) (Some {[ "x" := LNumber 1 ]}) ≠ true ∧
  hasResultBeenTruncated None (Some 3%Z) (Some {[ "x" := LNumber 1 ]}) = true ∧
  hasResultBeenTruncated (Some 0%Z) (Some 3%Z) None ≠ true.
Proof.
  split; [|split; [|split]].
  - apply (proj1 (truncation_decision (Some 6%Z) 3 (Some {[ "x" := LNumber 1 ]}))
             6%Z eq_refl); [lia|].
    split; [discriminate|lia].
  - intros H.
    apply (proj1 (truncation_decision (Some 3%Z) 3 (Some {[ "x" := LNumber 1 ]}))
             3%Z eq_refl) in H; lia.
  - apply (proj1 (proj2 (truncation_decision None 3 (Some {[ "x" := LNumber 1 ]})))
             (or_introl eq_refl)).
    discriminate.
  - intros H.
    apply (proj1 (proj2 (truncation_decision (Some 0%Z) 3 None))
             (or_intror eq_refl)) in H.
    by apply H.
Defined.

(** C2. [queryAll] sends one first query; while the accumulated result is
    judged truncated it sends a follow-up query whose [Limit] is the original
    limit less the items accumulated (none when no limit, or limit 0, was
    requested) and whose [ExclusiveStartKey] is the token of the response
    before, and appends that page's items; it returns at the first response
    after which the result is not judged truncated.  On pages of sizes 3, 3, 3
    with tokens after the first two: limit 3 takes 1 call and returns 3 items,
    limit 6 takes 2 calls (the second with limit 3) and returns 6, limit 10
    and no limit take 3 calls and return 9. *)
Theorem queryAll_pages :
  (∀ (Item : Type) input (script : list (CommandOutput Item)) out calls,
     queryAll input script = Some (out, calls) →
     Fetched QueryCommand QueryCommand input script out calls) ∧
  (∀ (Item : Type) input (script : list (CommandOutput Item)) n r,
     script !! n = Some r →
     truncatedAfter input script (S n) r = false →
     ∃ out calls, queryAll input script = Some (out, calls)) ∧
  (∀ (Item : Type) input (items : list Item) (r : CommandOutput Item),
     Limit (nextInput input items r)
     = match Limit input with
       | Some L => if (L =? 0)%Z then None else Some (L - Z.of_nat (length items))%Z
       | None => None
       end ∧
     ExclusiveStartKey (nextInput input items r) = LastEvaluatedKey r ∧
     setExclusiveStartKey None (setLimit None (nextInput input items r))
     = setExclusiveStartKey None (setLimit None input)) ∧
  queryWithPagination (foo (Some 3%Z) None) pages
  = Some ({| items := [1; 2; 3]%Z; lastEvaluatedKey := Some {[ "x" := LNumber 1 ]} |},
          [QueryCommand (foo (Some 3%Z) None)]) ∧
  queryWithPagination (foo (Some 6%Z) None) pages
  = Some ({| items := [1; 2; 3; 4; 5; 6]%Z;
             lastEvaluatedKey := Some {[ "x" := LNumber 2 ]} |},
          [QueryCommand (foo (Some 6%Z) None);
           QueryCommand (foo (Some 3%Z) (Some 1%Z))]) ∧
  queryWithPagination (foo (Some 10%Z) None) pages
  = Some ({| items := [1; 2; 3; 4; 5; 6; 7; 8; 9]%Z; lastEvaluatedKey := None |},
          [QueryCommand (foo (Some 10%Z) None);
           QueryCommand (foo (Some 7%Z) (Some 1%Z));
           QueryCommand (foo (Some 4%Z) (Some 2%Z))]) ∧
  queryWithPagination (foo None None) pages
  = Some ({| items := [1; 2; 3; 4; 5; 6; 7; 8; 9]%Z; lastEvaluatedKey := None |},
          [QueryCommand (foo None None);
           QueryCommand (foo None (Some 1%Z));
           QueryCommand (foo None (Some 2%Z))]).
Proof.
  split; [|split; [|split]].
  - intros Item input script out calls. apply fetch_spec.
  - intros Item input script n r. apply fetch_returns.
  - intros Item input items r. repeat split.
  - repeat split; vm_compute; reflexivity.
Qed.

Lemma queryAll_pages_witness :
  Fetched QueryCommand QueryCommand (foo (Some 6%Z) None) pages
    {| Items := Some [1; 2; 3; 4; 5; 6]%Z;
       LastEvaluatedKey := Some {[ "x" := LNumber 2 ]} |}
    [QueryCommand (foo (Some 6%Z) None); QueryCommand (foo (Some 3%Z) (Some 1%Z))] ∧
  ∃ out calls, queryAll (foo (Some 10%Z) None) pages = Some (out, calls).
Proof.
  split.
  - apply (proj1 queryAll_pages). vm_compute. reflexivity.
  - apply (proj1 (proj2 queryAll_pages) Z (foo (Some 10%Z) None) pages 2
             (page [7; 8; 9]%Z None)).
    + reflexivity.
    + reflexivity.
Defined.

(** C4. [scanAll] sends a scan-shaped first command, and every command it
    sends from its loop is query-shaped, carrying the scan's parameters with
    [Limit] and [ExclusiveStartKey] adjusted.  Whenever the first response is
    judged truncated, the loop goes on having sent such a query as its second
    command. *)
Theorem scanAll_continues_with_query :
  (∀ (Item : Type) input (script : list (CommandOutput Item)) out calls,
     scanAll input script = Some (out, calls) →
     calls !! 0 = Some (ScanCommand input) ∧
     ∀ k, 1 ≤ k < length calls →
       ∃ r, script !! (k - 1) = Some r ∧
            calls !! k = Some (QueryCommand (nextInput input (pagesItems script k) r)) ∧
            calls !! k ≠ Some (ScanCommand (nextInput input (pagesItems script k) r))) ∧
  (∀ (Item : Type) input (r0 r1 : CommandOutput Item) rest,
     hasResultBeenTruncated (Limit input) (Some (Z.of_nat (length (itemsOf r0))))
       (LastEvaluatedKey r0) = true →
     scanAll input (r0 :: r1 :: rest)
     = pageLoop QueryCommand input rest r1 (itemsOf r0 ++ itemsOf r1)
         [ScanCommand input; QueryCommand (nextInput input (itemsOf r0) r0)]) ∧
  scanWithAggregation (foo None None) pages
  = Some ([1; 2; 3; 4; 5; 6; 7; 8; 9]%Z,
          [ScanCommand (foo None None);
           QueryCommand (foo None (Some 1%Z));
           QueryCommand (foo None (Some 2%Z))]).
Proof.
  split; [|split].
  - intros Item input script out calls Hscan.
    apply fetch_spec in Hscan as (_ & Hfirst & Hnext & _).
    split; [done|]. intros k Hk.
    destruct (Hnext k Hk) as (r & Hr & _ & Hcall).
    exists r. split; [done|]. split; [done|]. by rewrite Hcall.
  - intros Item input r0 r1 rest Htrunc.
    unfold scanAll, fetch. simpl. by rewrite Htrunc.
  - vm_compute. reflexivity.
Qed.

Lemma scanAll_continues_with_query_witness :
  scanAll (foo None None) pages
  = pageLoop QueryCommand (foo None None) [page [7; 8; 9]%Z None]
      (page [4; 5; 6]%Z (Some 2%Z)) [1; 2; 3; 4; 5; 6]%Z
      [ScanCommand (foo None None); QueryCommand (foo None (Some 1%Z))].
Proof.
  apply (proj1 (proj2 scanAll_continues_with_query) Z (foo None None)
           (page [1; 2; 3]%Z (Some 1%Z)) (page [4; 5; 6]%Z (Some 2%Z))
           [page [7; 8; 9]%Z None]).
  reflexivity.
Defined.

End RepositoryProperties.

(** * The repository's unit tests, replayed on the model *)

Module Tests.
Import Expressions QueryBuilder BuilderSpec.

Example builds_a_basic_AND_expression :
  Expressions.build
    (And [Comparison (A "propA") CmpNe (OLiteral (LNumber 1));
          Comparison (A "propA") CmpNe (OLiteral (LNumber 2))]) newAttributeTracker
  = Ok ("(#propA <> :v_sub0) AND (#propA <> :v_sub1)",
        {| valueCounter := 2;
           attributeNames := {[ "#propA" := "propA" ]};
           attributeValues := {[ ":v_sub0" := LNumber 1; ":v_sub1" := LNumber 2 ]} |}).
Proof. vm_compute. reflexivity. Qed.

Example builds_a_type_expression :
  Expressions.build (Type_ "parent.nested" TList) newAttributeTracker
  = Ok ("attribute_type(#parent.#nested, :v_sub0)",
        {| valueCounter := 1;
           attributeNames := {[ "#parent" := "parent"; "#nested" := "nested" ]};
           attributeValues := {[ ":v_sub0" := LString "L" ]} |}).
Proof. vm_compute. reflexivity. Qed.

Example builds_a_NOT_expression :
  (λ r, match r with Ok (s, _) => Some s | Err _ => None end)
    (Expressions.build
       (Not (And [Comparison (A "propA") CmpNe (OLiteral (LNumber 1));
                  Comparison (A "propA") CmpNe (OLiteral (LNumber 2))]))
       newAttributeTracker)
  = Some "NOT ((#propA <> :v_sub0) AND (#propA <> :v_sub1))".
Proof. vm_compute. reflexivity. Qed.

Example with_a_primary_key_and_sort_key :
  requestOf (andThen (withKeys pkAndSk (new "table")) (QueryBuilder.build OpQuery))
  = Ok {| TableName := Some "table"; IndexName := None;
          KeyConditionExpression := Some "(#pk = :v_sub0) AND (#sk = :v_sub1)";
          FilterExpression := None; ProjectionExpression := None;
          ExpressionAttributeNames := Some {[ "#pk" := "pk"; "#sk" := "sk" ]};
          ExpressionAttributeValues :=
            Some {[ ":v_sub0" := LString "myPk"; ":v_sub1" := LString "mySk" ]};
          Limit := None; ExclusiveStartKey := None; ScanIndexForward := None;
          ConsistentRead := None |}.
Proof. vm_compute. reflexivity. Qed.

Example with_a_sort_key_condition_expression :
  requestOf
    (andThen
       (withKeys
          {| partitionKeyName := "pk"; partitionKeyValue := Some "myPk";
             sortKeyName := None; sortKeyValue := None;
             sortKeyCondition := Some (BeginsWith (A "sk") "tenant#abc") |}
          (new "table"))
       (QueryBuilder.build OpQuery))
  = Ok {| TableName := Some "table"; IndexName := None;
          KeyConditionExpression :=
            Some "(#pk = :v_sub0) AND (begins_with(#sk, :v_sub1))";
          FilterExpression := None; ProjectionExpression := None;
          ExpressionAttributeNames := Some {[ "#pk" := "pk"; "#sk" := "sk" ]};
          ExpressionAttributeValues :=
            Some {[ ":v_sub0" := LString "myPk"; ":v_sub1" := LString "tenant#abc" ]};
          Limit := None; ExclusiveStartKey := None; ScanIndexForward := None;
          ConsistentRead := None |}.
Proof. vm_compute. reflexivity. Qed.

Example filter_with_multiple_fields :
  requestOf
    (andThen (withKeys pkOnly (new "table")) (λ b,
     andThen (withFilter
                (Some [("foo", [LString "value1"]);
                       ("bar", [LString "value2"; LString "value3"]);
                       ("baz", [LString "value4"])]) b)
       (QueryBuilder.build OpQuery)))
  = Ok {| TableName := Some "table"; IndexName := None;
          KeyConditionExpression := Some "#pk = :v_sub0";
          FilterExpression :=
            Some "(#foo = :v_sub1) AND ((#bar = :v_sub2) OR (#bar = :v_sub3)) AND (#baz = :v_sub4)";
          ProjectionExpression := None;
          ExpressionAttributeNames :=
            Some {[ "#pk" := "pk"; "#foo" := "foo"; "#bar" := "bar"; "#baz" := "baz" ]};
          ExpressionAttributeValues :=
            Some {[ ":v_sub0" := LString "myPk"; ":v_sub1" := LString "value1";
                    ":v_sub2" := LString "value2"; ":v_sub3" := LString "value3";
                    ":v_sub4" := LString "value4" ]};
          Limit := None; ExclusiveStartKey := None; ScanIndexForward := None;
          ConsistentRead := None |}.
Proof. vm_compute. reflexivity. Qed.

Example projection_expression_for_field_names :
  requestOf
    (andThen (withKeys pkAndSk (new "table")) (λ b,
     QueryBuilder.build OpQuery (withFields ["foo"; "bar"] b)))
  = Ok {| TableName := Some "table"; IndexName := None;
          KeyConditionExpression := Some "(#pk = :v_sub0) AND (#sk = :v_sub1)";
          FilterExpression := None;
          ProjectionExpression := Some "#foo,#bar,#pk,#sk";
          ExpressionAttributeNames :=
            Some {[ "#pk" := "pk"; "#sk" := "sk"; "#foo" := "foo"; "#bar" := "bar" ]};
          ExpressionAttributeValues :=
            Some {[ ":v_sub0" := LString "myPk"; ":v_sub1" := LString "mySk" ]};
          Limit := None; ExclusiveStartKey := None; ScanIndexForward := None;
          ConsistentRead := None |}.
Proof. vm_compute. reflexivity. Qed.

Example overwrites_conflicting_custom_inputs :
  requestOf
    (andThen (withKeys pkOnly (new "table")) (λ b,
     QueryBuilder.build OpQuery
       (withRaw (setExpressionAttributeNames (Some {[ "#foo" := "foo" ]}) emptyInput) b)))
  = Ok {| TableName := Some "table"; IndexName := None;
          KeyConditionExpression := Some "#pk = :v_sub0";
          FilterExpression := None; ProjectionExpression := None;
          ExpressionAttributeNames := Some {[ "#pk" := "pk" ]};
          ExpressionAttributeValues := Some {[ ":v_sub0" := LString "myPk" ]};
          Limit := None; ExclusiveStartKey := None; ScanIndexForward := None;
          ConsistentRead := None |}.
Proof. vm_compute. reflexivity. Qed.

Example sets_ExclusiveStartKey_on_the_query :
  requestOf
    (andThen (withKeys pkOnly (new "table")) (λ b,
     QueryBuilder.build OpQuery
       (withPagination
          (Some {| pageSize := Some 2%Z;
                   lastEvaluatedKey := Some {[ "pk" := LString "myPk" ]};
                   sortDir := Some Desc |}) b)))
  = Ok {| TableName := Some "table"; IndexName := None;
          KeyConditionExpression := Some "#pk = :v_sub0";
          FilterExpression := None; ProjectionExpression := None;
          ExpressionAttributeNames := Some {[ "#pk" := "pk" ]};
          ExpressionAttributeValues := Some {[ ":v_sub0" := LString "myPk" ]};
          Limit := Some 2%Z;
          ExclusiveStartKey := Some {[ "pk" := LString "myPk" ]};
          ScanIndexForward := Some false; ConsistentRead := None |}.
Proof. vm_compute. reflexivity. Qed.

End Tests.

(** * Further properties of the expression compiler *)

Module ExpressionExtras.
Import Expressions ExpressionSpec TrackerSpec ExpressionProperties.

Lemma bind_Ok {A B} (m : Build A) (k : A → Build B) t b t2 :
  (let* a := m in k a) t = Ok (b, t2) →
  ∃ a t1, m t = Ok (a, t1) ∧ k a t1 = Ok (b, t2).
Proof.
  unfold bind. destruct (m t) as [[a t1]|]; [|done]. intros H. by exists a, t1.
Qed.




(** *** Names *)

(** X1. Resolving the same attribute name again under the same alias (or
    again without one) returns the same placeholder and leaves the tracker as
    the first resolution left it. *)
Theorem name_resolution_idempotent (t : AttributeTracker) (name : string)
    (alias : option string) :
  ∃ t1,
    get (A name) alias t = Ok ("#" +:+ orElse alias name, t1) ∧
    get (A name) alias t1 = Ok ("#" +:+ orElse alias name, t1) ∧
    attributeNames t1 !! ("#" +:+ orElse alias name) = Some name ∧
    valueCounter t1 = valueCounter t ∧
    attributeValues t1 = attributeValues t.
Proof.
  eexists. split; [reflexivity|]. simpl. unfold getName. simpl.
  split; [by rewrite insert_insert_eq|].
  split; [apply lookup_insert_eq|done].
Qed.

(** X2. Without aliases, two different attribute names get two different
    placeholders, and both stay bound to their own name; the same holds for
    one name resolved once without alias and once under an alias other than
    the name. *)
Theorem distinct_names_do_not_collide (t : AttributeTracker) (name1 name2 : string) :
  name1 ≠ name2 →
  ∃ p1 t1 p2 t2,
    get (A name1) None t = Ok (p1, t1) ∧
    get (A name2) None t1 = Ok (p2, t2) ∧
    p1 ≠ p2 ∧
    attributeNames t2 !! p1 = Some name1 ∧
    attributeNames t2 !! p2 = Some name2 ∧
    ∃ p3 t3,
      get (A name1) (Some name2) t2 = Ok (p3, t3) ∧ p3 ≠ p1 ∧
      attributeNames t3 !! p1 = Some name1 ∧
      attributeNames t3 !! p3 = Some name1.
Proof.
  intros Hne.
  assert ("#" +:+ name1 ≠ "#" +:+ name2) as Hp.
  { intros [= E]. by apply Hne. }
  simpl. unfold getName. simpl.
  eexists _, _, _, _. split; [reflexivity|]. split; [reflexivity|].
  split; [exact Hp|]. simpl.
  split; [by rewrite lookup_insert_ne, lookup_insert_eq|].
  split; [apply lookup_insert_eq|].
  eexists _, _. split; [reflexivity|]. split; [done|]. simpl.
  split; [|apply lookup_insert_eq].
  rewrite lookup_insert_ne by done.
  by rewrite lookup_insert_ne, lookup_insert_eq.
Qed.

Lemma distinct_names_do_not_collide_witness :
  ∃ p1 t1 p2 t2,
    get (A "pk") None newAttributeTracker = Ok (p1, t1) ∧
    get (A "sk") None t1 = Ok (p2, t2) ∧
    p1 ≠ p2 ∧
    attributeNames t2 !! p1 = Some "pk" ∧
    attributeNames t2 !! p2 = Some "sk".
Proof.
  destruct (distinct_names_do_not_collide newAttributeTracker "pk" "sk")
    as (p1 & t1 & p2 & t2 & H1 & H2 & H3 & H4 & H5 & _); [discriminate|].
  by exists p1, t1, p2, t2.
Defined.

(** *** Paths *)

Lemma split_nonempty (sep : Ascii.ascii) (s : string) : split sep s ≠ [].
Proof.
  induction s as [|c s IH]; simpl; [done|].
  destruct (Ascii.eqb c sep); [done|]. by destruct (split sep s).
Qed.

Lemma concat_cons_nonempty (sep x : string) (xs : list string) :
  xs ≠ [] → String.concat sep (x :: xs) = x +:+ sep +:+ String.concat sep xs.
Proof. by destruct xs. Qed.

(** Joining the segments with the separator gives the path back. *)
Lemma split_concat (s : string) :
  String.concat "." (split (Ascii.ascii_of_nat 46) s) = s.
Proof.
  induction s as [|c s IH]; [done|]. simpl split.
  destruct (Ascii.eqb_spec c (Ascii.ascii_of_nat 46)) as [->|Hc].
  - rewrite concat_cons_nonempty by apply split_nonempty.
    rewrite IH. reflexivity.
  - pose proof (split_nonempty (Ascii.ascii_of_nat 46) s) as Hne.
    destruct (split (Ascii.ascii_of_nat 46) s) as [|p [|q ps]]; [done| |].
    + simpl in *. by rewrite IH.
    + rewrite concat_cons_nonempty in IH by done.
      rewrite concat_cons_nonempty by done.
      rewrite append_cons. by rewrite IH.
Qed.

Lemma getNames_spec (parts : list string) (t : AttributeTracker) :
  ∃ t',
    mapM (λ part, getName part None) parts t
      = Ok (map (λ part, "#" +:+ part) parts, t') ∧
    valueCounter t' = valueCounter t ∧
    attributeValues t' = attributeValues t ∧
    (∀ part, part ∈ parts → attributeNames t' !! ("#" +:+ part) = Some part) ∧
    (∀ p, (∀ part, part ∈ parts → p ≠ "#" +:+ part) →
          attributeNames t' !! p = attributeNames t !! p).
Proof.
  revert t. induction parts as [|x parts IH]; intros t.
  - exists t. repeat split; try done. intros part Hin. by apply elem_of_nil in Hin.
  - destruct (IH {| valueCounter := valueCounter t;
                    attributeNames := <["#" +:+ x := x]> (attributeNames t);
                    attributeValues := attributeValues t |})
      as (t' & Hm & Hc & Hv & Hbound & Hframe).
    exists t'. split; [|split; [done|split; [done|split]]].
    + change (mapM (λ part, getName part None) (x :: parts) t)
        with ((let* ys := mapM (λ part, getName part None) parts in
               ret (("#" +:+ x) :: ys))
                {| valueCounter := valueCounter t;
                   attributeNames := <["#" +:+ x := x]> (attributeNames t);
                   attributeValues := attributeValues t |}).
      unfold bind. by rewrite Hm.
    + intros part [->|Hin]%elem_of_cons; [|by apply Hbound].
      destruct (decide (x ∈ parts)) as [Hin|Hnin]; [by apply Hbound|].
      rewrite Hframe.
      * simpl. apply lookup_insert_eq.
      * intros y Hy [= E]. change (x = y) in E. by subst y.
    + intros p Hp. rewrite Hframe.
      * simpl. apply lookup_insert_ne. intros E. eapply Hp; [left|done].
      * intros part Hin. apply Hp. by right.
Qed.

(** X3. A dotted path is escaped segment by segment: the result is the
    segments, each behind "#", joined by dots again; every segment is bound
    to its placeholder; no value placeholder is allocated; and the segments
    joined by dots are the path itself. *)
Theorem escapePath_segments (path : string) (t : AttributeTracker) :
  let parts := split (Ascii.ascii_of_nat 46) path in
  ∃ t',
    escapePath path t
      = Ok (String.concat "." (map (λ part, "#" +:+ part) parts), t') ∧
    String.concat "." parts = path ∧
    parts ≠ [] ∧
    valueCounter t' = valueCounter t ∧
    attributeValues t' = attributeValues t ∧
    (∀ part, part ∈ parts → attributeNames t' !! ("#" +:+ part) = Some part) ∧
    (∀ p, (∀ part, part ∈ parts → p ≠ "#" +:+ part) →
          attributeNames t' !! p = attributeNames t !! p).
Proof.
  intros parts.
  destruct (getNames_spec parts t) as (t' & Hm & Hc & Hv & Hbound & Hframe).
  exists t'. split.
  { unfold escapePath, bind. fold parts. by rewrite Hm. }
  split; [apply split_concat|]. split; [apply split_nonempty|]. done.
Qed.

(** *** What compiling does to the tracker *)

Lemma continues_refl (t : AttributeTracker) : continues t t.
Proof. intros Ht. repeat split; try apply Ht; auto. Qed.

Lemma continues_trans (t1 t2 t3 : AttributeTracker) :
  continues t1 t2 → continues t2 t3 → continues t1 t3.
Proof.
  intros H12 H23 Ht1.
  destruct (H12 Ht1) as (Ht2 & Hc12 & Hv12 & Hn12).
  destruct (H23 Ht2) as (Ht3 & Hc23 & Hv23 & Hn23).
  split; [done|]. split; [lia|]. split; auto.
Qed.

Lemma leaves_ret {A} (a : A) : leaves continues (ret a).
Proof. intros t a' t' [= _ <-]. apply continues_refl. Qed.

Lemma leaves_bind {A B} (m : Build A) (k : A → Build B) :
  leaves continues m → (∀ a, leaves continues (k a)) →
  leaves continues (let* a := m in k a).
Proof.
  intros Hm Hk t b t2 (a & t1 & H1 & H2)%bind_Ok.
  eapply continues_trans; [by eapply Hm|by eapply Hk].
Qed.

Lemma leaves_mapM {A B} (f : A → Build B) (xs : list A) :
  Forall (λ x, leaves continues (f x)) xs → leaves continues (mapM f xs).
Proof.
  induction 1 as [|x xs Hx _ IH]; simpl.
  - apply leaves_ret.
  - apply leaves_bind; [done|]. intros y.
    apply leaves_bind; [done|]. intros ys. apply leaves_ret.
Qed.

Lemma value_placeholder_inj (k n : nat) :
  ":v_sub" +:+ pretty k = ":v_sub" +:+ pretty n → k = n.
Proof. intros E%(inj (String.append ":v_sub")). by apply (inj pretty) in E. Qed.

Lemma leaves_getName (name : string) : leaves continues (getName name None).
Proof.
  intros t q t' [= _ <-] [Hn Hv]. simpl.
  split; [split|split; [done|split; [done|]]];
    unfold namesConsistent, valuesNumbered in *; simpl.
  - intros p n. rewrite lookup_insert. case_decide as E.
    + intros [= <-]. by rewrite <- E.
    + apply Hn.
  - exact Hv.
  - intros p n Hp. rewrite lookup_insert. case_decide as E; [|done].
    subst p. apply Hn in Hp. f_equal.
    injection Hp as Hp. change (name = n) in Hp. done.
Qed.

Lemma leaves_getValue (v : Literal) : leaves continues (getValue v None).
Proof.
  intros t q t' [= _ <-] [Hn Hv]. simpl.
  change (":" +:+ "v_sub" +:+ pretty (valueCounter t))
    with (":v_sub" +:+ pretty (valueCounter t)).
  split; [split|split; [lia|split; [|done]]];
    unfold namesConsistent, valuesNumbered in *; simpl.
  - exact Hn.
  - intros p. rewrite lookup_insert_is_Some, Hv. split.
    + intros [<-|[_ (k & Hk & ->)]]; [exists (valueCounter t)|exists k];
        split; (done || lia).
    + intros (k & Hk & ->).
      destruct (decide (k = valueCounter t)) as [->|Hne]; [by left|].
      right. split; [|exists k; split; [lia|done]].
      intros E%value_placeholder_inj. lia.
  - intros p w Hp.
    assert (is_Some (attributeValues t !! p)) as (k & Hk & ->)%Hv by eauto.
    rewrite lookup_insert_ne; [done|].
    intros E%value_placeholder_inj. lia.
Qed.

Lemma leaves_escapePath (path : string) : leaves continues (escapePath path).
Proof.
  unfold escapePath. apply leaves_bind.
  - apply leaves_mapM, Forall_forall. intros. apply leaves_getName.
  - intros. apply leaves_ret.
Qed.

Local Ltac stepL :=
  repeat match goal with
    | |- leaves _ (bind _ _) => apply leaves_bind; [|intros ?]
    | |- leaves _ (ret _) => apply leaves_ret
    | |- leaves _ (getName _ None) => apply leaves_getName
    | |- leaves _ (getValue _ None) => apply leaves_getValue
    | |- leaves _ (escapePath _) => apply leaves_escapePath
    | |- leaves _ (get _ None) => solve [auto]
    | |- leaves _ (build _) => solve [auto]
    end.

Lemma build_leaves_continues :
  (∀ o, leaves continues (get o None)) ∧ (∀ c, leaves continues (build c)).
Proof.
  pose (P := λ o, leaves continues (get o None)).
  pose (Q := λ c, leaves continues (build c)).
  assert (HP : ∀ o, P o).
  { apply (operand_condition_ind P Q); subst P Q; simpl.
    - intros. apply leaves_getValue.
    - intros. apply leaves_getName.
    - auto.
    - intros. stepL.
    - intros. stepL.
    - intros. stepL.
    - intros. stepL.
    - intros o l H1 Hl.
      apply leaves_bind; [auto|intros ?].
      apply leaves_bind; [|intros; apply leaves_ret].
      by apply leaves_mapM.
    - intros cs Hcs. destruct cs as [|x [|y cs]]; [by intros t a t'..|].
      apply leaves_bind; [|intros; apply leaves_ret]. by apply leaves_mapM.
    - intros cs Hcs. destruct cs as [|x [|y cs]]; [by intros t a t'..|].
      apply leaves_bind; [|intros; apply leaves_ret]. by apply leaves_mapM.
    - intros. stepL.
    - intros. stepL.
    - intros. stepL.
    - intros. stepL.
    - intros. stepL. }
  split; [exact HP|]. intros c. exact (HP (OCondition c)).
Qed.

Lemma consistent_new : consistent newAttributeTracker.
Proof.
  split.
  - intros p n Hp. simpl in Hp. by rewrite lookup_empty in Hp.
  - intros p. simpl. split.
    + intros [v Hv]. by rewrite lookup_empty in Hv.
    + intros (k & Hk & _). lia.
Qed.

(** X5. Compiling a condition against a tracker whose name placeholders are
    "#" + name and whose value placeholders are ":v_sub0", ..., numbered up to
    the counter, keeps it so; the counter does not go back; and every
    name or value binding made before is still there, unchanged.  A new
    tracker is such a tracker. *)
Theorem build_keeps_bindings (c : Condition) (t : AttributeTracker) (s : string)
    (t' : AttributeTracker) :
  build c t = Ok (s, t') →
  consistent t →
  consistent t' ∧
  valueCounter t ≤ valueCounter t' ∧
  (∀ p v, attributeValues t !! p = Some v → attributeValues t' !! p = Some v) ∧
  (∀ p n, attributeNames t !! p = Some n → attributeNames t' !! p = Some n) ∧
  consistent newAttributeTracker.
Proof.
  intros Hbuild Ht.
  destruct (proj2 build_leaves_continues c t s t' Hbuild Ht) as (? & ? & ? & ?).
  split; [done|]. split; [done|]. split; [done|]. split; [done|].
  apply consistent_new.
Qed.

Lemma build_keeps_bindings_witness :
  ∃ s t',
    build (Between (A "age") (OLiteral (LNumber 1)) (OLiteral (LNumber 9)))
      {| valueCounter := 1; attributeNames := {[ "#pk" := "pk" ]};
         attributeValues := {[ ":v_sub0" := LString "me" ]} |} = Ok (s, t') ∧
    attributeValues t' !! ":v_sub0" = Some (LString "me") ∧
    attributeNames t' !! "#pk" = Some "pk" ∧
    consistent t'.
Proof.
  eexists _, _. split; [vm_compute; reflexivity|].
  edestruct (build_keeps_bindings
               (Between (A "age") (OLiteral (LNumber 1)) (OLiteral (LNumber 9)))
               {| valueCounter := 1; attributeNames := {[ "#pk" := "pk" ]};
                  attributeValues := {[ ":v_sub0" := LString "me" ]} |})
    as (Hc & _ & Hv & Hn & _).
  - vm_compute. reflexivity.
  - split.
    + intros p n. simpl. rewrite lookup_singleton_Some. by intros [<- <-].
    + intros p. simpl. split.
      * intros [v [<- _]%lookup_singleton_Some]. exists 0. split; [lia|done].
      * intros (k & Hk & ->). assert (k = 0) as -> by lia.
        exists (LString "me"). apply lookup_singleton_eq.
  - split; [apply Hv, lookup_singleton_eq|].
    split; [apply Hn, lookup_singleton_eq|exact Hc].
Defined.

End ExpressionExtras.

(** * Further properties of the request builder *)

Module BuilderExtras.
Import Expressions QueryBuilder ExpressionSpec BuilderSpec TrackerSpec.
Import ExpressionProperties BuilderProperties ExpressionExtras.

(** X6. Index, keys and filter can each be staged once: a second [withIndex]
    or [withKeys] raises, and once a filter map or a filter expression is
    staged both [withFilter] and [withFilterExpression] raise, even when
    called with [undefined].  On a builder with no filter staged, calling
    either with [undefined] changes nothing. *)
Theorem staging_at_most_once (b : QueryBuilder) :
  (∀ i1 i2 b1, withIndex i1 b = Ok b1 → withIndex i2 b1 = Err OnlyOneIndex) ∧
  (∀ k1 k2 b1, withKeys k1 b = Ok b1 → withKeys k2 b1 = Err KeysOnlyOnce) ∧
  (∀ f b1, withFilter (Some f) b = Ok b1 →
     ∀ f2 c2, withFilter f2 b1 = Err OnlyOneFilter ∧
              withFilterExpression c2 b1 = Err OnlyOneFilter) ∧
  (∀ c b1, withFilterExpression (Some c) b = Ok b1 →
     ∀ f2 c2, withFilter f2 b1 = Err OnlyOneFilter ∧
              withFilterExpression c2 b1 = Err OnlyOneFilter) ∧
  (filter b = None → filterExpression b = None →
     withFilter None b = Ok b ∧ withFilterExpression None b = Ok b).
Proof.
  split; [|split; [|split; [|split]]].
  - intros i1 i2 b1. unfold withIndex.
    destruct (index b); [done|]. by intros [= <-].
  - intros k1 k2 b1. unfold withKeys.
    destruct (keys b); [done|]. by intros [= <-].
  - intros f b1. unfold withFilter at 1.
    destruct (filter b), (filterExpression b); try done.
    intros [= <-] f2 c2. done.
  - intros c b1. unfold withFilterExpression at 1.
    destruct (filter b), (filterExpression b); try done.
    intros [= <-] f2 c2. done.
  - intros Hf He. unfold withFilter, withFilterExpression. by rewrite Hf, He.
Qed.

Lemma staging_at_most_once_witness :
  ∃ b1, withKeys pkOnly (new "table") = Ok b1 ∧
        withKeys pkAndSk b1 = Err KeysOnlyOnce.
Proof.
  eexists. split; [reflexivity|].
  eapply (proj1 (proj2 (staging_at_most_once (new "table")))). reflexivity.
Defined.

(** *** The key condition *)

Lemma buildKeys_no_sort_value (query : QueryCommandInput) (k : KeyParams) :
  truthyOpt (sortKeyName k) = false ∨ sortKeyValue k = None →
  buildKeys query (Some k)
  = let partitionKeyCondition :=
      Eq (A (partitionKeyName k)) (OLiteral (literalOf (partitionKeyValue k))) in
    match sortKeyCondition k with
    | Some c =>
        let* e := Expressions.build (And [partitionKeyCondition; c]) in
        ret (setKeyConditionExpression (Some e) query)
    | None =>
        let* e := Expressions.build partitionKeyCondition in
        ret (setKeyConditionExpression (Some e) query)
    end.
Proof.
  intros Hnosort. unfold buildKeys.
  destruct Hnosort as [-> | ->]; [by destruct (sortKeyCondition k)|].
  by destruct (truthyOpt (sortKeyName k)), (sortKeyName k), (sortKeyCondition k).
Qed.

(** X7. The key condition [buildKeys] writes, the partition key value taking
    the tracker's next value placeholder: with a non-empty sort key name and a
    sort key value, the partition and the sort equality in parentheses joined
    by AND - also when a sort key condition is given as well, which is then
    not used; otherwise, with a sort key condition, the partition equality
    and that condition's text; otherwise the partition equality alone, a sort
    key name without value being ignored. *)
Theorem key_condition_forms (query : QueryCommandInput) (k : KeyParams)
    (t : AttributeTracker) :
  let pkText := equalityText (partitionKeyName k) (valueCounter t) in
  (∀ sk sv,
     sortKeyName k = Some sk → sk ≠ "" → sortKeyValue k = Some sv →
     ∃ t',
       buildKeys query (Some k) t
       = Ok (setKeyConditionExpression
               (Some ("(" +:+ String.concat ") AND ("
                                [pkText; equalityText sk (S (valueCounter t))]
                      +:+ ")")) query, t') ∧
       valueCounter t' = S (S (valueCounter t)) ∧
       attributeValues t' !! (":v_sub" +:+ pretty (valueCounter t))
         = Some (literalOf (partitionKeyValue k)) ∧
       attributeValues t' !! (":v_sub" +:+ pretty (S (valueCounter t)))
         = Some (LString sv)) ∧
  (truthyOpt (sortKeyName k) = false ∨ sortKeyValue k = None →
     sortKeyCondition k = None →
     ∃ t',
       buildKeys query (Some k) t
       = Ok (setKeyConditionExpression (Some pkText) query, t') ∧
       valueCounter t' = S (valueCounter t)) ∧
  (truthyOpt (sortKeyName k) = false ∨ sortKeyValue k = None →
     ∀ c, sortKeyCondition k = Some c →
     ∃ t1,
       Expressions.build
         (Eq (A (partitionKeyName k)) (OLiteral (literalOf (partitionKeyValue k)))) t
       = Ok (pkText, t1) ∧
       buildKeys query (Some k) t
       = match Expressions.build c t1 with
         | Ok (s, t') =>
             Ok (setKeyConditionExpression
                   (Some ("(" +:+ String.concat ") AND (" [pkText; s] +:+ ")"))
                   query, t')
         | Err e => Err e
         end).
Proof.
  intros pkText. split; [|split].
  - intros sk sv Hsk Hne Hsv. unfold buildKeys. rewrite Hsk, Hsv.
    unfold truthyOpt, truthy.
    destruct (String.eqb_spec sk "") as [|_]; [done|]. cbn [negb].
    eexists. split; [reflexivity|]. simpl. split; [done|].
    split; [|apply lookup_insert_eq].
    rewrite lookup_insert_ne.
    + rewrite lookup_insert_eq. by destruct (partitionKeyValue k).
    + intros E%value_placeholder_inj. lia.
  - intros Hnosort Hcond. rewrite buildKeys_no_sort_value by done.
    rewrite Hcond. cbv zeta. unfold bind. simpl. eexists. split; reflexivity.
  - intros Hnosort c Hcond. rewrite buildKeys_no_sort_value by done.
    rewrite Hcond. cbv zeta.
    destruct (build_equality (partitionKeyName k)
                (literalOf (partitionKeyValue k)) t) as (t1 & H1 & _).
    exists t1. split; [exact H1|].
    change (Expressions.build (And [?x; c]))
      with (let* built := mapM Expressions.build [x; c] in
            ret ("(" +:+ String.concat ") AND (" built +:+ ")")).
    cbn [mapM]. unfold bind, Eq. rewrite H1.
    by destruct (Expressions.build c t1) as [[? ?]|].
Qed.

Lemma key_condition_forms_witness :
  ∃ t',
    buildKeys emptyInput
      (Some {| partitionKeyName := "pk"; partitionKeyValue := Some "myPk";
               sortKeyName := Some "sk"; sortKeyValue := Some "mySk";
               sortKeyCondition := Some (BeginsWith (A "sk") "x") |})
      newAttributeTracker
    = Ok (setKeyConditionExpression (Some "(#pk = :v_sub0) AND (#sk = :v_sub1)")
            emptyInput, t').
Proof.
  destruct (proj1 (key_condition_forms emptyInput
              {| partitionKeyName := "pk"; partitionKeyValue := Some "myPk";
                 sortKeyName := Some "sk"; sortKeyValue := Some "mySk";
                 sortKeyCondition := Some (BeginsWith (A "sk") "x") |}
              newAttributeTracker) "sk" "mySk" eq_refl)
    as (t' & H & _); [discriminate|reflexivity|].
  exists t'. exact H.
Defined.

(** *** Filters that do not compile *)

Lemma fieldConditions_fail (filters : Filters) (t : AttributeTracker) :
  List.Exists (λ entry, entry.2 = []) filters →
  mapM Expressions.build (map fieldCondition filters) t = Err (OrTooFewOperands 0).
Proof.
  revert t. induction filters as [|[key values] filters IH]; intros t Hex.
  - by apply Exists_nil in Hex.
  - cbn [map mapM]. unfold bind at 1.
    destruct values as [|v values]; [done|].
    destruct (build_fieldCondition key (v :: values) t) as (t1 & H1 & _); [done|].
    rewrite H1. apply Exists_cons in Hex as [Hex|Hex]; [done|].
    unfold bind. by rewrite (IH t1 Hex).
Qed.

(** X8. A filter map in which some field has an empty list of values does not
    compile: the filter step raises the [Or] arity error with count 0, and so
    does [build("scan")], before any later step runs.  An empty filter map
    raises nothing and yields no filter expression. *)
Theorem filter_field_without_values (filters : Filters) :
  List.Exists (λ entry, entry.2 = []) filters →
  (∀ t, generateFilterInput filters t = Err (OrTooFewOperands 0)) ∧
  (∀ b, filter b = Some filters →
        QueryBuilder.build OpScan b = Err (OrTooFewOperands 0)) ∧
  (∀ t, generateFilterInput [] t = Ok (None, t)).
Proof.
  intros Hex.
  assert (∀ t, generateFilterInput filters t = Err (OrTooFewOperands 0)) as Hgen.
  { intros t. destruct filters as [|[key values] [|entry2 rest]].
    - by apply Exists_nil in Hex.
    - apply Exists_cons in Hex as [Hex|Hex]; [|by apply Exists_nil in Hex].
      simpl in Hex. by subst values.
    - pose proof (fieldConditions_fail _ t Hex) as H.
      change (generateFilterInput ((key, values) :: entry2 :: rest) t)
        with ((let* e :=
                 (let* built := mapM Expressions.build
                      (map fieldCondition ((key, values) :: entry2 :: rest)) in
                  ret ("(" +:+ String.concat ") AND (" built +:+ ")")) in
               ret (Some e)) t).
      unfold bind. by rewrite H. }
  split; [exact Hgen|]. split; [|done].
  intros b Hb. unfold QueryBuilder.build, buildSteps. rewrite Hb.
  unfold buildFilter. unfold bind at 1. unfold ret at 1.
  unfold bind at 1. unfold bind at 1. by rewrite Hgen.
Qed.

Lemma filter_field_without_values_witness :
  QueryBuilder.build OpScan
    {| tableName := "table"; query := emptyInput; index := None; keys := None;
       filter := Some [("status", [LString "active"]); ("tenant", [])];
       filterExpression := None; fields := None; pagination := None;
       rawQueryOptions := None; tracker := newAttributeTracker |}
  = Err (OrTooFewOperands 0).
Proof.
  apply (filter_field_without_values [("status", [LString "active"]); ("tenant", [])]).
  - apply Exists_cons_tl, Exists_cons_hd. reflexivity.
  - reflexivity.
Defined.

(** *** Projection without keys *)




(** *** Requests as patched by the build steps *)

Import PatchSpec.

Lemma buildSteps_stepsFrom (operation : Operation) (b : QueryBuilder) :
  buildSteps operation b
  = stepsFrom operation b (assign (query b) (rawQueryOptions b)).
Proof. reflexivity. Qed.

Lemma input_ext (q q' : QueryCommandInput) :
  TableName q = TableName q' → IndexName q = IndexName q' →
  KeyConditionExpression q = KeyConditionExpression q' →
  FilterExpression q = FilterExpression q' →
  ProjectionExpression q = ProjectionExpression q' →
  ExpressionAttributeNames q = ExpressionAttributeNames q' →
  ExpressionAttributeValues q = ExpressionAttributeValues q' →
  Limit q = Limit q' → ExclusiveStartKey q = ExclusiveStartKey q' →
  ScanIndexForward q = ScanIndexForward q' →
  ConsistentRead q = ConsistentRead q' → q = q'.
Proof. destruct q, q'; simpl; congruence. Qed.

Lemma fieldPatch_compose {X} (π : QueryCommandInput → X) f g :
  fieldPatch π f → fieldPatch π g → fieldPatch π (λ q, g (f q)).
Proof.
  intros Hf [[c Hg]|Hg].
  - left. exists c. intros q. apply Hg.
  - destruct Hf as [[c Hf]|Hf].
    + left. exists c. intros q. by rewrite Hg.
    + right. intros q. by rewrite Hg.
Qed.

Lemma IsPatch_compose f g : IsPatch f → IsPatch g → IsPatch (λ q, g (f q)).
Proof.
  intros (Ht & Hc & ? & ? & ? & ? & ? & ? & ? & ? & ?)
         (Ht' & Hc' & ? & ? & ? & ? & ? & ? & ? & ? & ?).
  split; [intros q; by rewrite Ht'|]. split; [intros q; by rewrite Hc'|].
  repeat split; by apply fieldPatch_compose.
Qed.

Lemma IsPatch_id : IsPatch (λ q, q).
Proof. split; [done|]. split; [done|]. repeat split; by right. Qed.

Local Ltac setter :=
  split; [done|]; split; [done|];
  repeat split; first [by right | left; eexists; intros; simpl; reflexivity].

Lemma IsPatch_setIndexName v : IsPatch (setIndexName v).
Proof. setter. Qed.
Lemma IsPatch_setKeyConditionExpression v : IsPatch (setKeyConditionExpression v).
Proof. setter. Qed.
Lemma IsPatch_setFilterExpression v : IsPatch (setFilterExpression v).
Proof. setter. Qed.
Lemma IsPatch_setProjectionExpression v : IsPatch (setProjectionExpression v).
Proof. setter. Qed.
Lemma IsPatch_setExpressionAttributeNames v : IsPatch (setExpressionAttributeNames v).
Proof. setter. Qed.
Lemma IsPatch_setExpressionAttributeValues v : IsPatch (setExpressionAttributeValues v).
Proof. setter. Qed.
Lemma IsPatch_setLimit v : IsPatch (setLimit v).
Proof. setter. Qed.
Lemma IsPatch_setExclusiveStartKey v : IsPatch (setExclusiveStartKey v).
Proof. setter. Qed.
Lemma IsPatch_setScanIndexForward v : IsPatch (setScanIndexForward v).
Proof. setter. Qed.

Lemma patching_pure g : IsPatch g → patching (λ q, ret (g q)).
Proof. intros Hg t. left. by exists g, t. Qed.

Lemma patching_set {X} (m : Build X) (g : X → QueryCommandInput → QueryCommandInput) :
  (∀ x, IsPatch (g x)) → patching (λ q, let* x := m in ret (g x q)).
Proof.
  intros Hg t. unfold bind. destruct (m t) as [[x t']|e].
  - left. by exists (g x), t'.
  - right. by exists e.
Qed.

Lemma patching_andStep step1 step2 :
  patching step1 → patching step2 → patching (andStep step1 step2).
Proof.
  intros H1 H2 t. unfold andStep, bind.
  destruct (H1 t) as [(f & t1 & Hf & E1)|(e & E1)].
  - destruct (H2 t1) as [(g & t2 & Hg & E2)|(e & E2)].
    + left. exists (λ q, g (f q)), t2. split; [by apply IsPatch_compose|].
      intros q. by rewrite E1, E2.
    + right. exists e. intros q. by rewrite E1, E2.
  - right. exists e. intros q. by rewrite E1.
Qed.

Lemma patching_stepsFrom (operation : Operation) (b : QueryBuilder) :
  patching (stepsFrom operation b).
Proof.
  unfold stepsFrom. repeat apply patching_andStep.
  - destruct operation; [|apply (patching_pure _ IsPatch_id)].
    unfold buildKeys. destruct (keys b) as [k|]; [|apply (patching_pure _ IsPatch_id)].
    destruct (truthyOpt (sortKeyName k)), (sortKeyName k), (sortKeyValue k),
      (sortKeyCondition k);
      apply (patching_set _ (λ e, setKeyConditionExpression (Some e)));
      intros; apply IsPatch_setKeyConditionExpression.
  - apply patching_pure. unfold buildIndex.
    destruct (index b) as [i|]; [|apply IsPatch_id].
    destruct (truthyOpt (indexName i)); [apply IsPatch_setIndexName|apply IsPatch_id].
  - unfold buildFilter. destruct (filter b) as [f|]; [|apply (patching_pure _ IsPatch_id)].
    apply (patching_set _ setFilterExpression).
    intros; apply IsPatch_setFilterExpression.
  - unfold buildFilterExpression.
    destruct (filterExpression b); [|apply (patching_pure _ IsPatch_id)].
    apply (patching_set _ (λ e, setFilterExpression (Some e))).
    intros; apply IsPatch_setFilterExpression.
  - unfold buildFields. destruct (fields b); [|apply (patching_pure _ IsPatch_id)].
    apply (patching_set _ (λ e, setProjectionExpression (Some e))).
    intros; apply IsPatch_setProjectionExpression.
  - apply patching_pure. unfold buildPagination.
    destruct (pagination b) as [p|]; [|apply IsPatch_id].
    apply (IsPatch_compose (λ q, match lastEvaluatedKey p with
                                 | Some k => setExclusiveStartKey (Some k) (setLimit (pageSize p) q)
                                 | None => setLimit (pageSize p) q
                                 end)
             (λ q, match sortDir p with
                   | Some Desc => setScanIndexForward (Some false) q
                   | _ => q
                   end)).
    + destruct (lastEvaluatedKey p).
      * apply (IsPatch_compose (setLimit _) (setExclusiveStartKey _));
          [apply IsPatch_setLimit|apply IsPatch_setExclusiveStartKey].
      * apply IsPatch_setLimit.
    + destruct (sortDir p) as [[]|];
        [apply IsPatch_id|apply IsPatch_setScanIndexForward|apply IsPatch_id].
  - intros t. left.
    exists (λ q, buildExpressionAttributeNamesAndValues q
                   (attributeNames t) (attributeValues t)), t.
    split; [|done]. unfold buildExpressionAttributeNamesAndValues.
    apply (IsPatch_compose
             (λ q, if (0 <? size (attributeNames t))%nat
                   then setExpressionAttributeNames (Some (attributeNames t)) q else q)
             (λ q, if (0 <? size (attributeValues t))%nat
                   then setExpressionAttributeValues (Some (attributeValues t)) q else q)).
    + destruct (0 <? size (attributeNames t))%nat;
        [apply IsPatch_setExpressionAttributeNames|apply IsPatch_id].
    + destruct (0 <? size (attributeValues t))%nat;
        [apply IsPatch_setExpressionAttributeValues|apply IsPatch_id].
Qed.

Lemma assign_field {X} (π : QueryCommandInput → option X) q raw :
  (∀ t s, π (assign t (Some s)) = override (π s) (π t)) →
  π (assign q raw) = match raw with
                     | Some s => override (π s) (π q)
                     | None => π q
                     end.
Proof. intros H. destruct raw; [apply H|done]. Qed.

Lemma override_twice {X} (a x : option X) : override a (override a x) = override a x.
Proof. by destruct a. Qed.

Lemma fieldPatch_absorbs {X} (π : QueryCommandInput → option X) f q raw :
  (∀ t s, π (assign t (Some s)) = override (π s) (π t)) →
  fieldPatch π f →
  π (f (assign (f (assign q raw)) raw)) = π (f (assign q raw)).
Proof.
  intros Hπ [[c Hc]|Hkeep]; [by rewrite !Hc|].
  rewrite !Hkeep, (assign_field π _ raw Hπ), Hkeep, (assign_field π q raw Hπ).
  destruct raw; [apply override_twice|done].
Qed.

Lemma patch_absorbs f q raw :
  IsPatch f → f (assign (f (assign q raw)) raw) = f (assign q raw).
Proof.
  intros (Ht & Hc & ? & ? & ? & ? & ? & ? & ? & ? & ?).
  apply input_ext; try (by apply fieldPatch_absorbs).
  - apply (fieldPatch_absorbs TableName); [done|by right].
  - apply (fieldPatch_absorbs ConsistentRead); [done|by right].
Qed.

Lemma build_Ok (operation : Operation) (b : QueryBuilder) request b1 :
  QueryBuilder.build operation b = Ok (request, b1) →
  ∃ t', buildSteps operation b newAttributeTracker = Ok (request, t') ∧
        b1 = {| tableName := tableName b; query := request; index := index b;
                keys := keys b; filter := filter b;
                filterExpression := filterExpression b;
                fields := fields b; pagination := pagination b;
                rawQueryOptions := rawQueryOptions b; tracker := t' |} ∧
        (operation = OpQuery → partitionKeyMissing (keys b) = false).
Proof.
  unfold QueryBuilder.build.
  destruct (buildSteps operation b newAttributeTracker) as [[q t']|e] eqn:E.
  - destruct operation, (partitionKeyMissing (keys b)); try done;
      intros [= <- <-]; by exists t'.
  - by destruct operation, (partitionKeyMissing (keys b)).
Qed.

(** X10. Building again with the same operation, nothing staged in
    between, returns the same request and leaves the builder as the first
    build left it. *)
Theorem rebuild_same_operation (operation : Operation) (b : QueryBuilder)
    (request : QueryCommandInput) (b1 : QueryBuilder) :
  QueryBuilder.build operation b = Ok (request, b1) →
  QueryBuilder.build operation b1 = Ok (request, b1).
Proof.
  intros (t' & Hsteps & -> & Hkeys)%build_Ok.
  rewrite buildSteps_stepsFrom in Hsteps.
  destruct (patching_stepsFrom operation b newAttributeTracker)
    as [(f & t2 & Hf & Hall)|(e & Hall)]; [|by rewrite Hall in Hsteps].
  rewrite Hall in Hsteps. injection Hsteps as <- <-.
  unfold QueryBuilder.build. cbn [keys].
  rewrite buildSteps_stepsFrom. cbn [query rawQueryOptions].
  change (stepsFrom operation _) with (stepsFrom operation b).
  rewrite Hall, (patch_absorbs f _ _ Hf).
  destruct operation; [rewrite Hkeys|]; done.
Qed.

Lemma rebuild_same_operation_witness :
  let b :=
    {| tableName := "table"; query := query (new "table"); index := None;
       keys := Some pkAndSk; filter := None; filterExpression := None;
       fields := Some ["a"]; pagination := None; rawQueryOptions := None;
       tracker := newAttributeTracker |} in
  ∃ request b1,
    QueryBuilder.build OpQuery b = Ok (request, b1) ∧
    QueryBuilder.build OpQuery b1 = Ok (request, b1).
Proof.
  intros b.
  destruct (QueryBuilder.build OpQuery b) as [[r b1]|e] eqn:E;
    [|vm_compute in E; discriminate].
  exists r, b1. split; [reflexivity|].
  exact (rebuild_same_operation OpQuery b r b1 E).
Defined.



(** *** The tracker a build leaves *)

Lemma leaves_addFields (fs acc : list string) : leaves continues (addFields fs acc).
Proof.
  revert acc. induction fs as [|f fs IH]; intros acc; simpl.
  - apply leaves_ret.
  - apply leaves_bind; [apply leaves_getName|]. intros. apply IH.
Qed.

Lemma leaves_stepsFrom (operation : Operation) (b : QueryBuilder) q t r t' :
  stepsFrom operation b q t = Ok (r, t') →
  continues t t' ∧
  ∃ q', r = buildExpressionAttributeNamesAndValues q'
              (attributeNames t') (attributeValues t').
Proof.
  pose proof (proj2 build_leaves_continues) as Hbuild.
  unfold stepsFrom, andStep.
  intros (q1 & t1 & H1 & H)%bind_Ok.
  apply bind_Ok in H as (q2 & t2 & H2 & H).
  apply bind_Ok in H as (q3 & t3 & H3 & H).
  apply bind_Ok in H as (q4 & t4 & H4 & H).
  apply bind_Ok in H as (q5 & t5 & H5 & H).
  apply bind_Ok in H as (q6 & t6 & H6 & H).
  injection H as <- <-. injection H2 as <- <-. injection H6 as <- <-.
  split; [|by eexists].
  assert (continues t t1) as C1.
  { destruct operation; [|injection H1 as <- <-; apply continues_refl].
    revert H1. unfold buildKeys. destruct (keys b) as [k|];
      [|intros [= _ <-]; apply continues_refl].
    destruct (truthyOpt (sortKeyName k)), (sortKeyName k), (sortKeyValue k),
      (sortKeyCondition k);
      intros (e & t0 & He & [= _ <-])%bind_Ok; exact (Hbuild _ _ _ _ He). }
  assert (continues t1 t3) as C3.
  { revert H3. unfold buildFilter. destruct (filter b) as [f|];
      [|intros [= _ <-]; apply continues_refl].
    intros (e & t0 & He & [= _ <-])%bind_Ok. revert He.
    unfold generateFilterInput.
    destruct (if (0 <? length f)%nat then generateFilterExpression f else None);
      [|intros [= _ <-]; apply continues_refl].
    intros (e' & t0' & He & [= _ <-])%bind_Ok. exact (Hbuild _ _ _ _ He). }
  assert (continues t3 t4) as C4.
  { revert H4. unfold buildFilterExpression. destruct (filterExpression b);
      [|intros [= _ <-]; apply continues_refl].
    intros (e & t0 & He & [= _ <-])%bind_Ok. exact (Hbuild _ _ _ _ He). }
  assert (continues t4 t5) as C5.
  { revert H5. unfold buildFields. destruct (fields b) as [fs|];
      [|intros [= _ <-]; apply continues_refl].
    intros (e & t0 & He & [= _ <-])%bind_Ok. revert He.
    unfold generateProjectionExpression.
    intros (l & t0' & He & [= _ <-])%bind_Ok. revert He.
    unfold projectionFields.
    intros (l0 & t7 & Hadd & He)%bind_Ok.
    eapply continues_trans; [exact (leaves_addFields _ _ _ _ _ Hadd)|].
    destruct (keys b) as [k|]; [|injection He as _ <-; apply continues_refl].
    apply bind_Ok in He as (pk & t8 & Hpk & He).
    eapply continues_trans; [exact (leaves_getName _ _ _ _ Hpk)|].
    destruct (truthyOpt (sortKeyName k)), (sortKeyName k);
      try (injection He as _ <-; apply continues_refl).
    apply bind_Ok in He as (sk & t9 & Hsk & [= _ <-]).
    exact (leaves_getName _ _ _ _ Hsk). }
  eauto using continues_trans.
Qed.

(** X12. The tracker a successful [build] leaves has only "#" + name and
    consecutively numbered ":v_sub" placeholders, and its maps are the ones
    the request carries: whenever the tracker's name map (value map) is not
    empty, it is the request's [ExpressionAttributeNames]
    ([ExpressionAttributeValues]), replacing whatever raw options or an
    earlier build put there. *)
Theorem built_request_carries_tracker (operation : Operation) (b : QueryBuilder)
    (request : QueryCommandInput) (b1 : QueryBuilder) :
  QueryBuilder.build operation b = Ok (request, b1) →
  consistent (tracker b1) ∧
  (attributeNames (tracker b1) ≠ ∅ →
     ExpressionAttributeNames request = Some (attributeNames (tracker b1))) ∧
  (attributeValues (tracker b1) ≠ ∅ →
     ExpressionAttributeValues request = Some (attributeValues (tracker b1))).
Proof.
  intros (t' & Hsteps & -> & _)%build_Ok. cbn [tracker].
  rewrite buildSteps_stepsFrom in Hsteps.
  apply leaves_stepsFrom in Hsteps as (Hcont & q' & ->).
  split; [by apply Hcont, consistent_new|].
  unfold buildExpressionAttributeNamesAndValues.
  split; intros Hne%map_size_non_empty_iff.
  - destruct (Nat.ltb_spec 0 (size (attributeNames t'))); [|lia].
    by destruct (0 <? size (attributeValues t'))%nat.
  - destruct (Nat.ltb_spec 0 (size (attributeValues t'))); [|lia]. done.
Qed.

Lemma built_request_carries_tracker_witness :
  let b :=
    {| tableName := "table"; query := query (new "table"); index := None;
       keys := Some pkOnly; filter := None; filterExpression := None;
       fields := None; pagination := None;
       rawQueryOptions :=
         Some (setExpressionAttributeNames (Some {[ "#foo" := "foo" ]}) emptyInput);
       tracker := newAttributeTracker |} in
  ∃ request b1,
    QueryBuilder.build OpQuery b = Ok (request, b1) ∧
    consistent (tracker b1) ∧
    ExpressionAttributeNames request = Some {[ "#pk" := "pk" ]}.
Proof.
  intros b.
  destruct (QueryBuilder.build OpQuery b) as [[r b1]|e] eqn:E;
    [|vm_compute in E; discriminate].
  destruct (built_request_carries_tracker OpQuery b r b1 E) as (Hc & Hn & _).
  exists r, b1. split; [reflexivity|]. split; [exact Hc|].
  vm_compute in E. injection E as <- <-. reflexivity.
Defined.

(** *** When a query build returns *)

Lemma succeeds_buildKeys query (k : KeyParams) :
  match sortKeyCondition k with Some c => wellFormed c = true | None => True end →
  succeeds (buildKeys query (Some k)).
Proof.
  intros Hc. unfold buildKeys.
  assert (succeeds (Expressions.build
            (Eq (A (partitionKeyName k)) (OLiteral (literalOf (partitionKeyValue k))))))
    as Hpk by (by apply wellFormed_succeeds).
  destruct (truthyOpt (sortKeyName k)), (sortKeyName k) as [sk|],
    (sortKeyValue k) as [sv|], (sortKeyCondition k) as [c|];
    (apply succeeds_bind; [|intros; apply succeeds_ret]);
    try exact Hpk; apply wellFormed_succeeds; simpl; by rewrite ?Hc.
Qed.



End BuilderExtras.

(** * Further properties of the paginated fetch engine *)

Module RepositoryExtras.
Import Expressions QueryBuilder Repository RepositorySpec RepositoryProperties.

Section Engine.
Context {Item : Type}.
Implicit Types (script responses : list (CommandOutput Item)).
Implicit Types (result r out : CommandOutput Item) (input : QueryCommandInput).

Lemma truncated_positive_limit (L count : Z) (token : option (gmap string Literal)) :
  (0 < L)%Z →
  hasResultBeenTruncated (Some L) (Some count) token = true →
  is_Some token ∧ (count < L)%Z.
Proof.
  intros HL. unfold hasResultBeenTruncated. simpl.
  destruct (Z.eqb_spec L 0); [lia|]. destruct (Z.ltb_spec 0 L); [|lia]. simpl.
  destruct token; simpl; [|done].
  destruct (Z.ltb_spec count L); [eauto|done].
Qed.

(** X14. With a limit L > 0, every command the loop sends after the first
    asks for at least 1 and at most L items and carries a start key. *)
Theorem follow_up_limit_positive (first next : QueryCommandInput → Command)
    input script out calls (L : Z) :
  Limit input = Some L → (0 < L)%Z →
  fetch first next input script = Some (out, calls) →
  ∀ k, 1 ≤ k < length calls →
    ∃ q l, calls !! k = Some (next q) ∧
           Limit q = Some l ∧ (1 ≤ l ≤ L)%Z ∧
           is_Some (ExclusiveStartKey q).
Proof.
  intros HL Hpos Hfetch k Hk.
  apply fetch_spec in Hfetch as (_ & _ & Hnext & _).
  destruct (Hnext k Hk) as (r & Hr & Htrunc & Hcall).
  unfold truncatedAfter in Htrunc. rewrite HL in Htrunc.
  apply truncated_positive_limit in Htrunc as [Htoken Hcount]; [|done].
  eexists _, _. split; [exact Hcall|]. unfold nextInput. simpl. rewrite HL.
  destruct (Z.eqb_spec L 0); [lia|]. split; [done|]. split; [lia|done].
Qed.

(** X15. What the returned cursor means: [queryWithPagination] hands back a
    continuation token only when a limit L > 0 was requested and at least L
    items are returned; without a limit (or with limit 0) it never hands one
    back. *)
Theorem returned_cursor_means_full_page input script
    (page : PaginatedOutput Item) calls key :
  queryWithPagination input script = Some (page, calls) →
  lastEvaluatedKey page = Some key →
  ∃ L, Limit input = Some L ∧ (0 < L)%Z ∧
       (L ≤ Z.of_nat (length (items page)))%Z.
Proof.
  unfold queryWithPagination.
  destruct (queryAll input script) as [[result sent]|] eqn:Hq; [|done].
  intros [= <- <-]. simpl.
  apply fetch_spec in Hq as (_ & _ & _ & r & _ & Hstop & ->). simpl.
  intros Hkey. unfold truncatedAfter, hasResultBeenTruncated in Hstop.
  rewrite Hkey in Hstop. simpl in Hstop. unfold itemsOf. simpl.
  destruct (Limit input) as [L|]; [|done]. exists L. split; [done|].
  destruct (Z.eqb_spec L 0); simpl in Hstop; [done|].
  destruct (Z.ltb_spec 0 L); simpl in Hstop; [|done].
  split; [done|].
  by destruct (Z.ltb_spec (Z.of_nat (length (pagesItems script (length sent)))) L).
Qed.

Lemma fetch_unlimited (first next : QueryCommandInput → Command)
    input script (n : nat) r :
  Limit input = None →
  script !! n = Some r → LastEvaluatedKey r = None →
  (∀ j r', j < n → script !! j = Some r' → is_Some (LastEvaluatedKey r')) →
  ∃ calls,
    fetch first next input script
    = Some ({| Items := Some (pagesItems script (S n)); LastEvaluatedKey := None |},
            calls) ∧
    length calls = S n.
Proof.
  intros HL Hn Hlast Htokens.
  assert (Htr : ∀ k r', truncatedAfter input script k r'
                        = Repository.isSome (LastEvaluatedKey r')).
  { intros k r'. unfold truncatedAfter, hasResultBeenTruncated. by rewrite HL. }
  destruct (fetch_returns first next input script n r Hn) as (out & calls & Hfetch).
  { by rewrite Htr, Hlast. }
  exists calls.
  destruct (fetch_spec _ _ _ _ _ _ Hfetch) as (Hlen & _ & Hnext & r' & Hr' & Hstop & ->).
  rewrite Htr in Hstop.
  assert (length calls = S n) as Hcalls.
  { destruct (decide (length calls - 1 < n)) as [Hlt|Hge].
    - destruct (Htokens _ _ Hlt Hr') as [key Hkey]. by rewrite Hkey in Hstop.
    - destruct (decide (length calls = S n)) as [|Hne]; [done|].
      destruct (Hnext (S n)) as (r2 & Hr2 & Htrunc & _); [lia|].
      simpl in Hr2. rewrite Nat.sub_0_r, Hn in Hr2. injection Hr2 as <-.
      by rewrite Htr, Hlast in Htrunc. }
  split; [|done]. rewrite Hfetch, Hcalls. do 3 f_equal.
  rewrite Hcalls in Hr'. simpl in Hr'. rewrite Nat.sub_0_r, Hn in Hr'.
  by injection Hr' as <-.
Qed.

(** X16. Aggregation without a limit reads the pages up to and including
    the first one that has no continuation token: it sends one command per
    page read and returns all their items, in order, and no token. *)
Theorem unlimited_fetch_reads_to_last_page (first next : QueryCommandInput → Command)
    input script (n : nat) r :
  Limit input = None →
  script !! n = Some r → LastEvaluatedKey r = None →
  (∀ j r', j < n → script !! j = Some r' → is_Some (LastEvaluatedKey r')) →
  ∃ calls,
    fetch first next input script
    = Some ({| Items := Some (pagesItems script (S n)); LastEvaluatedKey := None |},
            calls) ∧
    length calls = S n.
Proof. apply fetch_unlimited. Qed.

Lemma pageLoop_sent next input responses :
  ∀ result (items : list Item) sent,
    pageLoop next input responses result items sent
    = match pageLoop next input responses result items [] with
      | Some (out, calls) => Some (out, sent ++ calls)
      | None => None
      end.
Proof.
  induction responses as [|result' responses IH]; intros result items sent; simpl;
    destruct (hasResultBeenTruncated (Limit input)
                (Some (Z.of_nat (length items))) (LastEvaluatedKey result));
    try done; try by rewrite app_nil_r.
  rewrite (IH result' _ (sent ++ _)), (IH result' _ [_]).
  destruct (pageLoop next input responses result' _ []) as [[out calls]|]; [|done].
  by rewrite <- app_assoc.
Qed.

(** X17. On the same responses [scanAll] and [queryAll] return the same
    output and send the same commands but for the first, which is a
    [ScanCommand] for the one and a [QueryCommand] for the other; one fails
    for want of responses exactly when the other does. *)
Theorem scan_and_query_differ_in_first_command input script :
  match queryAll input script, scanAll input script with
  | Some (out1, calls1), Some (out2, calls2) =>
      out1 = out2 ∧
      ∃ rest, calls1 = QueryCommand input :: rest ∧
              calls2 = ScanCommand input :: rest
  | None, None => True
  | _, _ => False
  end.
Proof.
  unfold queryAll, scanAll, fetch. destruct script as [|result responses]; [done|].
  rewrite (pageLoop_sent _ _ _ _ _ [QueryCommand input]).
  rewrite (pageLoop_sent _ _ _ _ _ [ScanCommand input]).
  destruct (pageLoop QueryCommand input responses result (itemsOf result) [])
    as [[out calls]|]; [|done].
  split; [done|]. by exists calls.
Qed.

End Engine.

Lemma follow_up_limit_positive_witness :
  ∃ q l, [QueryCommand (foo (Some 6%Z) None);
          QueryCommand (foo (Some 3%Z) (Some 1%Z))] !! 1 = Some (QueryCommand q) ∧
         Limit q = Some l ∧ (1 ≤ l ≤ 6)%Z ∧ is_Some (ExclusiveStartKey q).
Proof.
  apply (follow_up_limit_positive QueryCommand QueryCommand (foo (Some 6%Z) None)
           pages {| Items := Some [1; 2; 3; 4; 5; 6]%Z;
                    LastEvaluatedKey := Some {[ "x" := LNumber 2 ]} |}).
  - reflexivity.
  - lia.
  - vm_compute. reflexivity.
  - simpl. lia.
Defined.

Lemma returned_cursor_means_full_page_witness :
  ∃ L, Limit (foo (Some 6%Z) None) = Some L ∧ (0 < L)%Z ∧
       (L ≤ Z.of_nat (length [1; 2; 3; 4; 5; 6]%Z))%Z.
Proof.
  apply (returned_cursor_means_full_page (foo (Some 6%Z) None) pages
           {| items := [1; 2; 3; 4; 5; 6]%Z;
              lastEvaluatedKey := Some {[ "x" := LNumber 2 ]} |}
           [QueryCommand (foo (Some 6%Z) None);
            QueryCommand (foo (Some 3%Z) (Some 1%Z))]
           {[ "x" := LNumber 2 ]}).
  - vm_compute. reflexivity.
  - reflexivity.
Defined.

Lemma unlimited_fetch_reads_to_last_page_witness :
  ∃ calls,
    queryAll (foo None None) pages
    = Some ({| Items := Some [1; 2; 3; 4; 5; 6; 7; 8; 9]%Z; LastEvaluatedKey := None |},
            calls) ∧
    length calls = 3.
Proof.
  apply (unlimited_fetch_reads_to_last_page QueryCommand QueryCommand
           (foo None None) pages 2 (page [7; 8; 9]%Z None)); try reflexivity.
  intros j r' Hj H. destruct j as [|[|j]]; [| |lia];
    cbn in H; injection H as <-; by eexists.
Defined.

End RepositoryExtras.

(** * Keys and partial updates *)

Module WritesExtras.
Import Expressions Writes ExpressionProperties.

Lemma isUndefined_spec (v : Literal) : isUndefined v = true ↔ v = LUndefined.
Proof. by destruct v. Qed.

(** [generatePrimaryKey] by the sort key the repository is configured with. *)
Lemma generatePrimaryKey_configured (this : BaseDynamoRepository) (pkv skv : Literal) :
  generatePrimaryKey this pkv skv =
  match configuredSortKey this with
  | Some sk =>
      if isUndefined skv then Thrown (SortKeyRequiredInPrimaryKey sk)
      else Done (<[sk := skv]> {[ partitionKeyName this := pkv ]})
  | None => Done {[ partitionKeyName this := pkv ]}
  end.
Proof.
  unfold generatePrimaryKey, configuredSortKey.
  destruct (sortKeyName this) as [sk|]; [|done]. by destruct (QueryBuilder.truthy sk).
Qed.

Lemma primaryKey_lookup (this : BaseDynamoRepository) (pkv skv : Literal)
    (key : gmap string Literal) (name : string) :
  generatePrimaryKey this pkv skv = Done key →
  key !! name =
    if decide (configuredSortKey this = Some name) then Some skv
    else if decide (name = partitionKeyName this) then Some pkv else None.
Proof.
  rewrite generatePrimaryKey_configured.
  destruct (configuredSortKey this) as [sk|].
  - destruct (isUndefined skv); [done|]. intros [= <-].
    rewrite lookup_insert. destruct (decide (sk = name)) as [->|Hne].
    + by rewrite decide_True.
    + rewrite decide_False by congruence.
      rewrite lookup_singleton. by repeat case_decide.
  - intros [= <-]. rewrite decide_False by done.
    rewrite lookup_singleton. by repeat case_decide.
Qed.

(** X18. [generatePrimaryKey] raises exactly when the repository has a
    (non-empty) sort key name and no sort key value is given.  Otherwise the
    key holds the partition key attribute and, if configured, the sort key
    attribute, and nothing else; where both names coincide the sort key
    value is the one kept. *)
Theorem primary_key_attributes (this : BaseDynamoRepository) (pkv skv : Literal) :
  (∀ e, generatePrimaryKey this pkv skv = Thrown e ↔
        ∃ sk, configuredSortKey this = Some sk ∧ skv = LUndefined ∧
              e = SortKeyRequiredInPrimaryKey sk) ∧
  (∀ key, generatePrimaryKey this pkv skv = Done key →
     ∀ name, key !! name =
       if decide (configuredSortKey this = Some name) then Some skv
       else if decide (name = partitionKeyName this) then Some pkv else None).
Proof.
  split.
  - intros e. rewrite generatePrimaryKey_configured.
    destruct (configuredSortKey this) as [sk|].
    + destruct (isUndefined skv) eqn:E.
      * apply isUndefined_spec in E. split.
        -- intros [= <-]. by exists sk.
        -- by intros (sk' & [= <-] & _ & ->).
      * split; [done|]. intros (_ & _ & Hu & _).
        apply isUndefined_spec in Hu. congruence.
    + split; [done|]. by intros (? & ? & _).
  - intros key H name. by apply primaryKey_lookup.
Qed.

(** What [generateUpdateParams] returns once its two checks have passed: the
    key cannot fail any more. *)
Lemma updateParamsChecked_Done (this : BaseDynamoRepository) (updates : JsRecord) :
  (∀ sk, configuredSortKey this = Some sk → property updates sk ≠ LUndefined) →
  ∃ key,
    generatePrimaryKey this (property updates (partitionKeyName this))
      match configuredSortKey this with
      | Some sk => property updates sk
      | None => LUndefined
      end = Done key ∧
    updateParamsChecked this updates =
    Done (let st := updateLoop this updates
                      {| updateExpression := None; expressionAttributeNames := ∅;
                         expressionAttributeValues := ∅ |} in
          {| TableName := tableName this; Key := key;
             UpdateExpression := updateExpression st;
             ExpressionAttributeNames := expressionAttributeNames st;
             ExpressionAttributeValues := expressionAttributeValues st;
             ReturnValues := "ALL_NEW"; ConditionExpression := None |}).
Proof.
  intros Hsk. unfold updateParamsChecked.
  rewrite generatePrimaryKey_configured.
  destruct (configuredSortKey this) as [sk|].
  - destruct (isUndefined (property updates sk)) eqn:E.
    + apply isUndefined_spec in E. by destruct (Hsk sk).
    + by eexists.
  - by eexists.
Qed.

Lemma generateUpdateParams_Done (this : BaseDynamoRepository) (updates : JsRecord)
    (u : UpdateCommandInput) :
  generateUpdateParams this updates = Done u →
  truthyLiteral (property updates (partitionKeyName this)) = true ∧
  (∀ sk, configuredSortKey this = Some sk → property updates sk ≠ LUndefined) ∧
  ∃ key,
    generatePrimaryKey this (property updates (partitionKeyName this))
      match configuredSortKey this with
      | Some sk => property updates sk
      | None => LUndefined
      end = Done key ∧
    u = let st := updateLoop this updates
                    {| updateExpression := None; expressionAttributeNames := ∅;
                       expressionAttributeValues := ∅ |} in
        {| TableName := tableName this; Key := key;
           UpdateExpression := updateExpression st;
           ExpressionAttributeNames := expressionAttributeNames st;
           ExpressionAttributeValues := expressionAttributeValues st;
           ReturnValues := "ALL_NEW"; ConditionExpression := None |}.
Proof.
  unfold generateUpdateParams.
  destruct (truthyLiteral (property updates (partitionKeyName this))); [|done].
  simpl. intros H.
  assert (∀ sk, configuredSortKey this = Some sk → property updates sk ≠ LUndefined)
    as Hsk.
  { intros sk Hc Hu. rewrite Hc in H. by rewrite Hu in H. }
  destruct (updateParamsChecked_Done this updates Hsk) as (key & Hkey & Hchk).
  split; [done|]. split; [done|]. exists key. split; [done|].
  rewrite Hchk in H.
  destruct (configuredSortKey this) as [sk|];
    [destruct (isUndefined (property updates sk)); [done|]|]; by injection H.
Qed.

(** X19. [generateUpdateParams] raises exactly when the record's partition
    key value is falsy (then the partition key error, whatever else is
    missing) or, that value being truthy, the configured sort key has no
    value in the record; the error of [generatePrimaryKey] never surfaces.
    The key of the parameters it returns holds the record's values of the
    key attributes and nothing else. *)
Theorem update_requires_key_values (this : BaseDynamoRepository) (updates : JsRecord) :
  (∀ e, generateUpdateParams this updates = Thrown e ↔
     (truthyLiteral (property updates (partitionKeyName this)) = false ∧
      e = PartitionKeyRequiredWhenUpdating (partitionKeyName this)) ∨
     (truthyLiteral (property updates (partitionKeyName this)) = true ∧
      ∃ sk, configuredSortKey this = Some sk ∧ property updates sk = LUndefined ∧
            e = SortKeyRequiredWhenUpdating sk)) ∧
  (∀ u, generateUpdateParams this updates = Done u →
     ∀ name, Key u !! name =
       if decide (configuredSortKey this = Some name) then Some (property updates name)
       else if decide (name = partitionKeyName this)
            then Some (property updates (partitionKeyName this)) else None).
Proof.
  split.
  - intros e. unfold generateUpdateParams.
    destruct (truthyLiteral (property updates (partitionKeyName this))); simpl.
    + destruct (configuredSortKey this) as [sk|] eqn:Ec.
      * destruct (isUndefined (property updates sk)) eqn:E.
        -- apply isUndefined_spec in E. split.
           ++ intros [= <-]. right. split; [done|]. by exists sk.
           ++ by intros [[? _]|(_ & sk' & [= <-] & _ & ->)].
        -- destruct (updateParamsChecked_Done this updates) as (key & _ & ->).
           { intros sk' Hc Hu. rewrite Ec in Hc. injection Hc as <-.
             rewrite Hu in E. done. }
           split; [done|].
           intros [[? _]|(_ & sk' & [= <-] & Hu & _)]; [done|].
           by rewrite Hu in E.
      * destruct (updateParamsChecked_Done this updates) as (key & _ & ->).
        { intros sk' Hc. by rewrite Ec in Hc. }
        split; [done|]. by intros [[? _]|(_ & sk' & ? & _)].
    + split.
      * intros [= <-]. by left.
      * by intros [[_ ->]|[? _]].
  - intros u H name.
    destruct (generateUpdateParams_Done this updates u H) as (_ & _ & key & Hkey & ->).
    simpl. rewrite (primaryKey_lookup _ _ _ _ name Hkey).
    destruct (configuredSortKey this) as [sk|]; [|done].
    destruct (decide (Some sk = Some name)) as [[= ->]|]; done.
Qed.

Lemma assigned_cons (this : BaseDynamoRepository) (name : string) (value : Literal)
    (rest : JsRecord) :
  assigned this ((name, value) :: rest) =
  if isKeyProperty this name then assigned this rest
  else if isUndefined value then assigned this rest
  else (name, value) :: assigned this rest.
Proof.
  unfold assigned, JsRecord. rewrite filter_cons. simpl.
  destruct (isKeyProperty this name), (isUndefined value);
    case_decide as H; try done; by destruct H.
Qed.

Lemma assigned_elem (this : BaseDynamoRepository) (updates : JsRecord)
    (name : string) (value : Literal) :
  (name, value) ∈ assigned this updates ↔
  isKeyProperty this name = false ∧ value ≠ LUndefined ∧ (name, value) ∈ updates.
Proof.
  unfold assigned, JsRecord. rewrite list_elem_of_filter. simpl.
  rewrite <- isUndefined_spec. destruct (isUndefined value); intuition congruence.
Qed.

Lemma assigned_NoDup (this : BaseDynamoRepository) (updates : JsRecord) :
  NoDup updates.*1 → NoDup (assigned this updates).*1.
Proof.
  intros H. eapply sublist_NoDup; [exact H|].
  apply fmap_sublist. apply sublist_filter.
Qed.

Lemma concat_snoc (sep x : string) (xs : list string) :
  xs ≠ [] → String.concat sep (xs ++ [x]) = String.concat sep xs +:+ sep +:+ x.
Proof.
  induction xs as [|a [|b xs] IH]; [done|done|]. intros _.
  change (a +:+ sep +:+ String.concat sep ((b :: xs) ++ [x])
          = (a +:+ sep +:+ String.concat sep (b :: xs)) +:+ sep +:+ x).
  rewrite IH by done. by rewrite !append_assoc.
Qed.

Lemma truthy_SET (s : string) : QueryBuilder.truthy ("SET " +:+ s) = true.
Proof. reflexivity. Qed.

Lemma assignProperty_text (st : UpdateState) (done : JsRecord) (name : string)
    (value : Literal) :
  updateExpression st = assignmentsText done →
  updateExpression (assignProperty st name value)
  = assignmentsText (done ++ [(name, value)]).
Proof.
  intros Hst. unfold assignProperty. cbn [updateExpression]. rewrite Hst.
  destruct done as [|d done]; [done|].
  cbn [assignmentsText QueryBuilder.truthyOpt orElse].
  change ((d :: done) ++ [(name, value)]) with (d :: (done ++ [(name, value)])).
  cbn [assignmentsText]. f_equal.
  change (d :: (done ++ [(name, value)])) with ((d :: done) ++ [(name, value)]).
  rewrite map_app. cbn [map]. rewrite concat_snoc by done.
  rewrite truthy_SET, !append_assoc. reflexivity.
Qed.

Lemma updateLoop_text (this : BaseDynamoRepository) (entries : JsRecord) :
  ∀ st done,
    updateExpression st = assignmentsText done →
    updateExpression (updateLoop this entries st)
    = assignmentsText (done ++ assigned this entries).
Proof.
  induction entries as [|[name value] rest IH]; intros st done Hst.
  - by rewrite app_nil_r.
  - rewrite assigned_cons. simpl.
    destruct (isKeyProperty this name); [by apply IH|].
    destruct (isUndefined value); [by apply IH|].
    rewrite (IH _ (done ++ [(name, value)])).
    + by rewrite <- app_assoc.
    + by apply assignProperty_text.
Qed.

(** X20. The update expression of [generateUpdateParams] is [SET] followed
    by one assignment [#name = :name] for each property of the record that
    is not a key attribute and whose value is not [undefined], in the
    record's order and separated by commas; if there is no such property
    the parameters carry no update expression at all. *)
Theorem update_expression_text (this : BaseDynamoRepository) (updates : JsRecord)
    (u : UpdateCommandInput) :
  generateUpdateParams this updates = Done u →
  UpdateExpression u =
    match assigned this updates with
    | [] => None
    | entries => Some ("SET " +:+ String.concat ", " (map assignmentText entries))
    end.
Proof.
  intros H.
  destruct (generateUpdateParams_Done this updates u H) as (_ & _ & key & _ & ->).
  cbn [UpdateExpression].
  rewrite (updateLoop_text this updates _ []) by done.
  simpl. by destruct (assigned this updates).
Qed.

Lemma update_expression_text_witness :
  ∃ u,
    generateUpdateParams
      {| tableName := "table"; partitionKeyName := "pk"; sortKeyName := Some "sk" |}
      [("pk", LString "p"); ("status", LString "active"); ("sk", LNumber 0);
       ("note", LUndefined); ("count", LNumber 2)] = Done u ∧
    UpdateExpression u = Some "SET #status = :status, #count = :count".
Proof.
  eexists. split; [reflexivity|].
  by rewrite (update_expression_text
                {| tableName := "table"; partitionKeyName := "pk";
                   sortKeyName := Some "sk" |}
                [("pk", LString "p"); ("status", LString "active");
                 ("sk", LNumber 0); ("note", LUndefined); ("count", LNumber 2)] _
                eq_refl).
Defined.

Lemma alias_inj (prefix a b : string) : prefix +:+ a = prefix +:+ b → a = b.
Proof.
  induction prefix as [|c prefix IH]; [by intros H|].
  rewrite !append_cons. intros [= H]. by apply IH.
Qed.

Lemma updateLoop_aliases (this : BaseDynamoRepository) (entries : JsRecord) :
  ∀ st done,
    NoDup (done ++ assigned this entries).*1 →
    (∀ alias name, expressionAttributeNames st !! alias = Some name ↔
                   alias = "#" +:+ name ∧ name ∈ done.*1) →
    (∀ alias v, expressionAttributeValues st !! alias = Some v ↔
                ∃ name, alias = ":" +:+ name ∧ (name, v) ∈ done) →
    (∀ alias name,
       expressionAttributeNames (updateLoop this entries st) !! alias = Some name ↔
       alias = "#" +:+ name ∧ name ∈ (done ++ assigned this entries).*1) ∧
    (∀ alias v,
       expressionAttributeValues (updateLoop this entries st) !! alias = Some v ↔
       ∃ name, alias = ":" +:+ name ∧ (name, v) ∈ done ++ assigned this entries).
Proof.
  induction entries as [|[name value] rest IH]; intros st done Hnd Hnames Hvalues.
  - rewrite app_nil_r. by split.
  - rewrite assigned_cons in Hnd |- *. simpl.
    destruct (isKeyProperty this name); [by apply IH|].
    destruct (isUndefined value); [by apply IH|].
    replace (done ++ (name, value) :: assigned this rest)
      with ((done ++ [(name, value)]) ++ assigned this rest) in Hnd |- *
      by (by rewrite <- app_assoc).
    assert (name ∉ done.*1) as Hfresh.
    { rewrite !fmap_app in Hnd. apply NoDup_app in Hnd as [Hnd _].
      apply NoDup_app in Hnd as (_ & Hnd & _). intros Hin.
      apply (Hnd name Hin). simpl. by left. }
    apply IH; [done|..].
    + intros alias n. unfold assignProperty. cbn [expressionAttributeNames].
      rewrite lookup_insert, fmap_app, elem_of_app. simpl.
      rewrite list_elem_of_singleton.
      destruct (decide ("#" +:+ name = alias)) as [<-|Hne].
      * split.
        -- intros [= <-]. split; [done|by right].
        -- intros [E _]. apply (alias_inj "#") in E. by rewrite E.
      * rewrite Hnames. split.
        -- intros [-> ?]. split; [done|by left].
        -- intros [-> [? | ->]]; [done|]. by destruct Hne.
    + intros alias v. unfold assignProperty. cbn [expressionAttributeValues].
      rewrite lookup_insert.
      destruct (decide (":" +:+ name = alias)) as [<-|Hne].
      * split.
        -- intros [= <-]. exists name. split; [done|].
           apply elem_of_app. right. by left.
        -- intros (n & E & Hin). apply (alias_inj ":") in E. subst n.
           apply elem_of_app in Hin as [Hin|Hin].
           ++ destruct Hfresh. apply list_elem_of_fmap. by exists (name, v).
           ++ apply list_elem_of_singleton in Hin. by injection Hin as <-.
      * rewrite Hvalues. split.
        -- intros (n & -> & Hin). exists n. split; [done|].
           apply elem_of_app. by left.
        -- intros (n & -> & Hin). exists n. split; [done|].
           apply elem_of_app in Hin as [Hin|Hin]; [done|].
           apply list_elem_of_singleton in Hin. injection Hin as -> _.
           by destruct Hne.
Qed.

(** X21. In the parameters [generateUpdateParams] returns for a record, the
    attribute names are exactly [#name ↦ name] and the attribute values
    exactly [:name ↦ value] for the properties [name: value] of the record
    that are no key attribute and not [undefined]; a key attribute is never
    given an alias, so it cannot be overwritten by the update. *)
Theorem update_aliases (this : BaseDynamoRepository) (updates : JsRecord)
    (u : UpdateCommandInput) :
  NoDup updates.*1 →
  generateUpdateParams this updates = Done u →
  (∀ alias name, ExpressionAttributeNames u !! alias = Some name ↔
     alias = "#" +:+ name ∧ ∃ value, (name, value) ∈ assigned this updates) ∧
  (∀ alias value, ExpressionAttributeValues u !! alias = Some value ↔
     ∃ name, alias = ":" +:+ name ∧ (name, value) ∈ assigned this updates) ∧
  (∀ name, isKeyProperty this name = true →
     ExpressionAttributeNames u !! ("#" +:+ name) = None ∧
     ExpressionAttributeValues u !! (":" +:+ name) = None).
Proof.
  intros Hnd H.
  destruct (generateUpdateParams_Done this updates u H) as (_ & _ & key & _ & ->).
  cbn [ExpressionAttributeNames ExpressionAttributeValues].
  destruct (updateLoop_aliases this updates
              {| updateExpression := None; expressionAttributeNames := ∅;
                 expressionAttributeValues := ∅ |} [])
    as [Hnames Hvalues].
  { by apply assigned_NoDup. }
  { intros alias name. cbn. rewrite lookup_empty, elem_of_nil.
    split; [done|]. by intros [_ []]. }
  { intros alias v. cbn. rewrite lookup_empty. split; [done|].
    intros (? & _ & Hin). by apply elem_of_nil in Hin. }
  simpl in Hnames, Hvalues.
  assert (∀ alias name,
            expressionAttributeNames
              (updateLoop this updates
                 {| updateExpression := None; expressionAttributeNames := ∅;
                    expressionAttributeValues := ∅ |}) !! alias = Some name ↔
            alias = "#" +:+ name ∧ ∃ value, (name, value) ∈ assigned this updates)
    as Hnames'.
  { intros alias name. rewrite Hnames, list_elem_of_fmap. split.
    - intros [-> ([n v] & -> & Hin)]. split; [done|]. by exists v.
    - intros [-> (v & Hin)]. split; [done|]. by exists (name, v). }
  split; [done|]. split; [done|].
  intros name Hkey. split.
  - apply eq_None_not_Some. intros [n Hn].
    apply Hnames' in Hn as [E (v & Hin)]. apply (alias_inj "#") in E. subst n.
    apply assigned_elem in Hin as (Hk & _). congruence.
  - apply eq_None_not_Some. intros [v Hv].
    apply Hvalues in Hv as (n & E & Hin). apply (alias_inj ":") in E. subst n.
    apply assigned_elem in Hin as (Hk & _). congruence.
Qed.

Lemma update_aliases_witness :
  ∃ u,
    generateUpdateParams
      {| tableName := "table"; partitionKeyName := "pk"; sortKeyName := Some "sk" |}
      [("pk", LString "p"); ("status", LString "active"); ("sk", LNumber 0);
       ("note", LUndefined)] = Done u ∧
    ExpressionAttributeNames u !! "#pk" = None ∧
    ExpressionAttributeValues u !! ":pk" = None.
Proof.
  eexists. split; [reflexivity|].
  refine (proj2 (proj2 (update_aliases
                   {| tableName := "table"; partitionKeyName := "pk";
                      sortKeyName := Some "sk" |}
                   [("pk", LString "p"); ("status", LString "active");
                    ("sk", LNumber 0); ("note", LUndefined)] _ _ eq_refl))
            "pk" eq_refl).
  apply (bool_decide_unpack _). vm_compute. exact I.
Defined.

End WritesExtras.

(** * Transactions *)

Module TransactionExtras.
Import Expressions Writes Transactions WritesExtras.

Lemma transactItems_app (this : BaseDynamoRepository)
    (es1 es2 : list DynamoTransactionWriteItem) :
  transactItems this (es1 ++ es2) =
  match transactItems this es1 with
  | Done items1 =>
      match transactItems this es2 with
      | Done items2 => Done (items1 ++ items2)
      | Thrown e => Thrown e
      end
  | Thrown e => Thrown e
  end.
Proof.
  induction es1 as [|item es1 IH]; simpl.
  - by destruct (transactItems this es2).
  - destruct (transactItem this item) as [pushed|e]; [|done].
    rewrite IH. destruct (transactItems this es1) as [items1|e]; [|done].
    destruct (transactItems this es2) as [items2|e]; [|done].
    by rewrite app_assoc.
Qed.

Lemma truthy_false (s : string) : QueryBuilder.truthy s = false ↔ s = "".
Proof.
  unfold QueryBuilder.truthy. destruct (String.eqb_spec s ""); simpl; split; done.
Qed.

Lemma transactItem_length (this : BaseDynamoRepository)
    (item : DynamoTransactionWriteItem) (pushed : list TransactItem) :
  transactItem this item = Done pushed → length pushed ≤ 1.
Proof.
  unfold transactItem.
  repeat match goal with
         | |- context [if ?b then _ else _] => destruct b
         | |- context [match ?o with Some _ => _ | None => _ end] => destruct o
         | |- context [match ?o with Done _ => _ | Thrown _ => _ end] => destruct o
         end; intros [= <-]; simpl; lia.
Qed.

(** X22. The items of a transaction are what the entities push, entity by
    entity and in the entities' order, each entity at most one item; the
    transaction raises exactly when some entity does, with the error of the
    first such entity.  When [transactionalWrite] returns, it returns the
    entities it was given, the ones that pushed nothing included. *)
Theorem transaction_items_outcome (this : BaseDynamoRepository)
    (entities : list DynamoTransactionWriteItem) :
  (∀ items, transactItems this entities = Done items ↔
     ∃ pushes,
       Forall2 (λ item pushed, transactItem this item = Done pushed ∧ length pushed ≤ 1)
         entities pushes ∧
       items = concat pushes) ∧
  (∀ e, transactItems this entities = Thrown e ↔
     ∃ before item after,
       entities = before ++ item :: after ∧
       (∃ items, transactItems this before = Done items) ∧
       transactItem this item = Thrown e) ∧
  (∀ items returned,
     transactionalWrite this entities = Done (items, returned) →
     returned = entities ∧ transactItems this entities = Done items).
Proof.
  split; [|split]; [| |unfold transactionalWrite;
                       destruct (transactItems this entities); [|done];
                       by intros items returned [= <- <-]].
  - induction entities as [|item rest IH]; intros items; simpl.
    + split.
      * intros [= <-]. exists []. by split; [constructor|].
      * intros (pushes & Hall & ->). by inversion Hall.
    + destruct (transactItem this item) as [pushed|e] eqn:E.
      * destruct (transactItems this rest) as [items'|e'].
        -- split.
           ++ intros [= <-]. destruct (proj1 (IH items') eq_refl) as (pushes & Hall & ->).
              exists (pushed :: pushes). split; [|done].
              constructor; [|done]. split; [done|]. by eapply transactItem_length.
           ++ intros (pushes & Hall & ->).
              inversion Hall as [|? pushed' ? pushes' [Hp _] Hrest]; subst.
              rewrite E in Hp. injection Hp as <-. simpl. do 2 f_equal.
              assert (Done items' = Done (concat pushes')) as [= ->]; [|done].
              apply IH. by exists pushes'.
        -- split; [done|]. intros (pushes & Hall & ->).
           inversion Hall as [|? pushed' ? pushes' _ Hrest]; subst.
           assert (@Thrown (list TransactItem) e' = Done (concat pushes')); [|done].
           apply IH. by exists pushes'.
      * split; [done|]. intros (pushes & Hall & ->).
        inversion Hall as [|? pushed' ? pushes' [Hp _] _]; subst. congruence.
  - induction entities as [|item rest IH]; intros e; simpl.
    + split; [done|]. intros (before & item & after & H & _). by destruct before.
    + assert (Hlater : ∀ before item' after,
                rest = before ++ item' :: after →
                (∃ its, transactItems this (item :: before) = Done its) →
                transactItem this item' = Thrown e →
                transactItems this rest = Thrown e).
      { intros before item' after Hrest [its Hbefore] Hitem. apply IH.
        exists before, item', after. split; [done|]. split; [|done].
        simpl in Hbefore. destruct (transactItem this item); [|done].
        destruct (transactItems this before); [by eexists|done]. }
      destruct (transactItem this item) as [pushed|e0] eqn:E.
      * split.
        -- intros Hrest.
           assert (transactItems this rest = Thrown e) as Hthrown
             by (by destruct (transactItems this rest)).
           apply IH in Hthrown
             as (before & item' & after & -> & (its & Hbefore) & Hitem).
           exists (item :: before), item', after. split; [done|].
           split; [|done]. simpl. rewrite E, Hbefore. by eexists.
        -- intros ([|item0 before] & item' & after & H & Hbefore & Hitem);
             simplify_eq/=; [congruence|].
           by rewrite (Hlater before item' after).
      * split.
        -- intros [= <-]. exists [], item, rest.
           split; [done|]. split; [by eexists|done].
        -- intros ([|item0 before] & item' & after & H & (its & Hbefore) & Hitem);
             simplify_eq/=; [congruence|].
           by rewrite E in Hbefore.
Qed.

(** X23. An entity pushes nothing - and raises nothing - exactly when its
    operation is none of PUT, UPDATE and DELETE, or it is a PUT or UPDATE
    without a record, or a DELETE without a (non-empty) partition key
    value.  Such an entity is silently dropped from the transaction. *)
Theorem skipped_entities (this : BaseDynamoRepository)
    (item : DynamoTransactionWriteItem) :
  (transactItem this item = Done [] ↔ skipped item) ∧
  (skipped item →
   ∀ before after,
     transactItems this (before ++ item :: after)
     = transactItems this (before ++ after)).
Proof.
  assert (transactItem this item = Done [] ↔ skipped item) as Hiff.
  { unfold transactItem, skipped.
    destruct (String.eqb_spec (operation item) "PUT") as [Hput|Hput].
    { rewrite Hput. destruct (record item) as [r|].
      - split; [done|]. intros [(? & _)|[[_ ?]|[? _]]]; done.
      - split; [|done]. intros _. right. left. split; [by left|done]. }
    destruct (String.eqb_spec (operation item) "UPDATE") as [Hupd|Hupd].
    { rewrite Hupd. destruct (record item) as [r|].
      - split.
        + by destruct (generateUpdateParams this r).
        + intros [(_ & ? & _)|[[_ ?]|[? _]]]; done.
      - split; [|done]. intros _. right. left. split; [by right|done]. }
    destruct (String.eqb_spec (operation item) "DELETE") as [Hdel|Hdel].
    { rewrite Hdel. destruct (partitionKeyValue item) as [pk|].
      - destruct (QueryBuilder.truthy pk) eqn:Et.
        + split.
          * by destruct (generatePrimaryKey _ _ _).
          * intros [(_ & _ & ?)|[[[?|?] _]|[_ [?|[= ->]]]]]; done.
        + apply truthy_false in Et as ->. split; [|done].
          intros _. right. right. split; [done|by right].
      - split; [|done]. intros _. right. right. split; [done|by left]. }
    split; [|done]. intros _. by left. }
  split; [done|].
  intros Hskip before after. apply Hiff in Hskip.
  rewrite !transactItems_app. simpl. rewrite Hskip.
  destruct (transactItems this before); [|done].
  by destruct (transactItems this after).
Qed.

Lemma amendUpdate_lookup {V} (extra : option (gmap string V)) (generated : gmap string V)
    (alias : string) :
  match extra with Some m => m ∪ generated | None => generated end !! alias =
  match extra ≫= (.!! alias) with
  | Some v => Some v
  | None => generated !! alias
  end.
Proof.
  destruct extra as [m|]; [|done]. simpl. rewrite lookup_union.
  by destruct (m !! alias), (generated !! alias).
Qed.

(** X24. An UPDATE entity whose record yields update parameters pushes one
    item: those parameters with the entity's attribute names and values
    merged in (on a clash with a generated alias the entity's binding
    replaces the generated one) and with the entity's condition expression
    if it is not empty.  Key and update expression stay as generated. *)
Theorem update_entity_merges (this : BaseDynamoRepository)
    (item : DynamoTransactionWriteItem) (r : JsRecord) (g : UpdateCommandInput) :
  operation item = "UPDATE" → record item = Some r →
  generateUpdateParams this r = Done g →
  ∃ u, transactItem this item = Done [Update u] ∧
       Key u = Key g ∧ UpdateExpression u = UpdateExpression g ∧
       ConditionExpression u = whenTruthy (conditionExpression item) ∧
       (∀ alias, ExpressionAttributeNames u !! alias =
          match expressionAttributeNames item ≫= (.!! alias) with
          | Some name => Some name
          | None => ExpressionAttributeNames g !! alias
          end) ∧
       (∀ alias, ExpressionAttributeValues u !! alias =
          match expressionAttributeValues item ≫= (.!! alias) with
          | Some value => Some value
          | None => ExpressionAttributeValues g !! alias
          end).
Proof.
  intros Hop Hrec Hgen. exists (amendUpdate item g).
  unfold transactItem. rewrite Hop, Hrec, Hgen. simpl.
  split; [done|]. split; [done|]. split; [done|]. split.
  - unfold whenTruthy.
    destruct (generateUpdateParams_Done this r g Hgen) as (_ & _ & key & _ & ->).
    by destruct (QueryBuilder.truthyOpt (conditionExpression item)).
  - split; intros alias; apply amendUpdate_lookup.
Qed.

Lemma update_entity_merges_witness :
  ∃ u,
    transactItem
      {| tableName := "table"; partitionKeyName := "pk"; sortKeyName := None |}
      {| record := Some [("pk", LString "p"); ("status", LString "active")];
         operation := "UPDATE"; partitionKeyValue := None; sortKeyValue := None;
         conditionExpression := Some "";
         expressionAttributeNames := Some {[ "#status" := "state" ]};
         expressionAttributeValues := None |} = Done [Update u] ∧
    ExpressionAttributeNames u !! "#status" = Some "state" ∧
    ExpressionAttributeValues u !! ":status" = Some (LString "active") ∧
    ConditionExpression u = None.
Proof.
  destruct (update_entity_merges
              {| tableName := "table"; partitionKeyName := "pk"; sortKeyName := None |}
              {| record := Some [("pk", LString "p"); ("status", LString "active")];
                 operation := "UPDATE"; partitionKeyValue := None;
                 sortKeyValue := None; conditionExpression := Some "";
                 expressionAttributeNames := Some {[ "#status" := "state" ]};
                 expressionAttributeValues := None |}
              [("pk", LString "p"); ("status", LString "active")] _
              eq_refl eq_refl eq_refl)
    as (u & Hitem & _ & _ & Hcond & Hnames & Hvalues).
  exists u. split; [exact Hitem|]. split; [|split].
  - rewrite Hnames. vm_compute. reflexivity.
  - rewrite Hvalues. vm_compute. reflexivity.
  - rewrite Hcond. reflexivity.
Defined.

End TransactionExtras.

(** * The query and scan helpers *)

Module CallerExtras.
Import Expressions QueryBuilder Repository ExpressionSpec BuilderSpec RepositorySpec.
Import PatchSpec ExpressionProperties BuilderProperties ExpressionExtras BuilderExtras.
Import RepositoryExtras.

Lemma set_step_Limit {X} (m : Build X) (g : X → QueryCommandInput → QueryCommandInput)
    (q : QueryCommandInput) t q' t' :
  (∀ x q0, Limit (g x q0) = Limit q0) →
  (let* e := m in ret (g e q)) t = Ok (q', t') → Limit q' = Limit q.
Proof.
  intros Hg H. apply bind_Ok in H as (e & t1 & _ & H).
  injection H as <- _. apply Hg.
Qed.

Lemma buildKeys_Limit q keys t q' t' :
  buildKeys q keys t = Ok (q', t') → Limit q' = Limit q.
Proof.
  unfold buildKeys. destruct keys as [k|]; [|by intros [= <- _]].
  destruct (truthyOpt (sortKeyName k)), (sortKeyName k), (sortKeyValue k),
    (sortKeyCondition k);
    by apply (set_step_Limit _ (λ e, setKeyConditionExpression (Some e))).
Qed.

Lemma buildFilter_Limit q filter t q' t' :
  buildFilter q filter t = Ok (q', t') → Limit q' = Limit q.
Proof.
  unfold buildFilter. destruct filter; [|by intros [= <- _]].
  by apply (set_step_Limit _ setFilterExpression).
Qed.

Lemma buildFilterExpression_Limit q fe t q' t' :
  buildFilterExpression q fe t = Ok (q', t') → Limit q' = Limit q.
Proof.
  unfold buildFilterExpression. destruct fe; [|by intros [= <- _]].
  by apply (set_step_Limit _ (λ e, setFilterExpression (Some e))).
Qed.

Lemma buildFields_Limit keys q fs t q' t' :
  buildFields keys q fs t = Ok (q', t') → Limit q' = Limit q.
Proof.
  unfold buildFields. destruct fs; [|by intros [= <- _]].
  by apply (set_step_Limit _ (λ e, setProjectionExpression (Some e))).
Qed.

(** The [Limit] of a built request: the staged page size if pagination is
    staged, otherwise what the request held before the build steps. *)
Lemma build_Limit (operation : Operation) (b : QueryBuilder) request b1 :
  QueryBuilder.build operation b = Ok (request, b1) →
  Limit request =
    match pagination b with
    | Some p => pageSize p
    | None => Limit (assign (query b) (rawQueryOptions b))
    end.
Proof.
  intros H. apply build_Ok in H as (t' & H & _). unfold buildSteps in H.
  apply bind_Ok in H as (q1 & t1 & H1 & H).
  apply bind_Ok in H as (q2 & t2 & H2 & H).
  apply bind_Ok in H as (q3 & t3 & H3 & H).
  apply bind_Ok in H as (q4 & t4 & H4 & H).
  injection H as <- _.
  apply buildFields_Limit in H4. apply buildFilterExpression_Limit in H3.
  apply buildFilter_Limit in H2.
  assert (Limit q1 = Limit (assign (query b) (rawQueryOptions b))) as Hq1.
  { destruct operation; [by apply buildKeys_Limit in H1|by injection H1 as <- _]. }
  assert (∀ q names values,
            Limit (buildExpressionAttributeNamesAndValues q names values) = Limit q)
    as Hnv.
  { intros q names values. unfold buildExpressionAttributeNamesAndValues.
    by destruct (0 <? size names)%nat, (0 <? size values)%nat. }
  rewrite Hnv. unfold buildPagination.
  destruct (pagination b) as [p|].
  - by destruct (QueryBuilder.lastEvaluatedKey p), (sortDir p) as [[]|].
  - rewrite H4, H3, H2. unfold buildIndex.
    destruct (index b) as [i|]; [|done]. by destruct (truthyOpt (indexName i)).
Qed.

(** [build] returns when its checks and its compilations pass. *)
Lemma build_returns (operation : Operation) (b : QueryBuilder) :
  (operation = OpQuery → partitionKeyPresent b) →
  keyConditionCompiles b → filterCompiles b →
  ∃ request b1, QueryBuilder.build operation b = Ok (request, b1).
Proof.
  intros Hpk Hkc [Hfilter Hexpr].
  assert (succeeds (buildSteps operation b)) as Hsteps.
  { unfold buildSteps.
    apply succeeds_bind.
    { destruct operation; [|apply succeeds_ret].
      destruct (Hpk eq_refl) as (k & v & Hk & _). unfold keyConditionCompiles in Hkc.
      rewrite Hk in Hkc |- *. by apply succeeds_buildKeys. }
    intros q1. apply succeeds_bind.
    { unfold buildFilter. destruct (filter b) as [f|]; [|apply succeeds_ret].
      apply succeeds_bind; [|intros; apply succeeds_ret].
      by apply succeeds_generateFilterInput. }
    intros q2. apply succeeds_bind.
    { unfold buildFilterExpression.
      destruct (filterExpression b) as [c|]; [|apply succeeds_ret].
      apply succeeds_bind; [|intros; apply succeeds_ret].
      by apply wellFormed_succeeds. }
    intros q3. apply succeeds_bind; [apply succeeds_buildFields|].
    intros q4 t. by eexists _, _. }
  destruct (Hsteps newAttributeTracker) as (q & t & E).
  unfold QueryBuilder.build. rewrite E.
  destruct operation; [|by eexists _, _].
  apply partitionKeyMissing_spec in Hpk; [|done]. rewrite Hpk. by eexists _, _.
Qed.

Section Helpers.
Context {Item : Type}.
Implicit Types (script : list (CommandOutput Item)) (r : CommandOutput Item).
Implicit Types (this : Writes.BaseDynamoRepository).

(** A request without a limit, fetched over a script whose last page is
    page [n]. *)
Lemma fetch_every_page (first next : QueryCommandInput → Command) request script n :
  Limit request = None → Callers.lastPageAt script n →
  ∃ calls,
    fetch first next request script
    = Some ({| Items := Some (pagesItems script (S n)); LastEvaluatedKey := None |},
            calls) ∧
    length calls = S n.
Proof.
  intros HL [(r & Hr & Hlast) Htokens].
  exact (fetch_unlimited first next request script n r HL Hr Hlast Htokens).
Qed.

(** X25. [scanWithFilters], given no filter or a simple filter whose fields
    all have a value, builds a request without a limit: it reads the pages
    up to the first one without a continuation token, one command per page,
    and returns all their items in order. *)
Theorem scanWithFilters_reads_every_page this (filters : option Filters) script n :
  Callers.filterHasValues filters → Callers.lastPageAt script n →
  ∃ calls,
    Callers.scanWithFilters this filters script
    = Ok (Some (pagesItems script (S n), calls)) ∧
    length calls = S n.
Proof.
  intros Hfilter Hlast. unfold Callers.scanWithFilters.
  assert (∃ b, withFilter filters (new (Writes.tableName this)) = Ok b ∧
               keys b = None ∧ filter b = filters ∧ filterExpression b = None ∧
               pagination b = None ∧ rawQueryOptions b = None ∧
               Limit (query b) = None)
    as (b & -> & Hk & Hf & Hfe & Hp & Hraw & HL).
  { destruct filters; by eexists. }
  cbn [andThen].
  destruct (build_returns OpScan b) as (request & b1 & Hbuild).
  - done.
  - unfold keyConditionCompiles. by rewrite Hk.
  - split; [by rewrite Hf|by rewrite Hfe].
  - rewrite Hbuild. cbn [requestOf].
    pose proof (build_Limit _ _ _ _ Hbuild) as Hlimit.
    rewrite Hp, Hraw in Hlimit. cbn [assign] in Hlimit. rewrite HL in Hlimit.
    destruct (fetch_every_page ScanCommand QueryCommand request script n Hlimit Hlast)
      as (calls & Hfetch & Hlen).
    exists calls. split; [|done].
    unfold scanWithAggregation, scanAll. by rewrite Hfetch.
Qed.

Lemma staged_returns (operation : Operation) tableName index
    (k : option KeyParams) filters pagination :
  (operation = OpQuery →
   ∃ key v, k = Some key ∧ partitionKeyName key ≠ "" ∧ partitionKeyValue key = Some v) →
  match k with Some key => sortKeyCondition key = None | None => True end →
  Callers.filterHasValues filters →
  ∃ request b1,
    QueryBuilder.build operation (Callers.staged tableName index k filters pagination)
    = Ok (request, b1) ∧
    Limit request = match pagination with Some p => pageSize p | None => None end.
Proof.
  intros Hpk Hsk Hfilter.
  destruct (build_returns operation
              (Callers.staged tableName index k filters pagination))
    as (request & b1 & Hbuild).
  - exact Hpk.
  - unfold keyConditionCompiles. cbn. destruct k as [key|]; [|done]. by rewrite Hsk.
  - by split.
  - exists request, b1. split; [done|].
    by rewrite (build_Limit _ _ _ _ Hbuild).
Qed.

Lemma queryWithFilters_staged this (params : Callers.QueryInputParams)
    (filters : option Filters) script :
  Callers.queryWithFilters this params filters script =
  match requestOf
          (QueryBuilder.build OpQuery
             (Callers.staged (Writes.tableName this) None
                (Some {| partitionKeyName :=
                           orElse (Callers.partitionKeyName params)
                             (Writes.partitionKeyName this);
                         partitionKeyValue := Some (Callers.partitionKeyValue params);
                         sortKeyName := Callers.sortKeyName params;
                         sortKeyValue := Callers.sortKeyValue params;
                         sortKeyCondition := None |})
                filters None)) with
  | Ok queryInput => Ok (queryWithAggregation queryInput script)
  | Err e => Err e
  end.
Proof. by destruct filters. Qed.

(** X26. [queryWithFilters] raises the partition key error exactly when the
    partition key name it ends up with is empty: the name given in the
    parameters if there is one - an empty one is not replaced - and
    otherwise the table's. *)
Theorem queryWithFilters_partition_key this (params : Callers.QueryInputParams)
    (filters : option Filters) script :
  Callers.queryWithFilters this params filters script = Err PartitionKeyRequired ↔
  orElse (Callers.partitionKeyName params) (Writes.partitionKeyName this) = "".
Proof.
  rewrite queryWithFilters_staged. unfold QueryBuilder.build.
  cbn [keys Callers.staged partitionKeyMissing partitionKeyName partitionKeyValue].
  unfold truthy.
  destruct (String.eqb_spec
              (orElse (Callers.partitionKeyName params) (Writes.partitionKeyName this))
              "") as [E|E]; cbn [negb orb].
  - done.
  - split; [|done].
    destruct (buildSteps OpQuery _ newAttributeTracker) as [[q t]|e] eqn:Esteps;
      [done|].
    apply raisesOnly_buildSteps in Esteps. cbn [requestOf].
    intros [= ->]. destruct Esteps.
Qed.

(** X27. [queryWithFilters] on a non-empty partition key name, with no
    filter or a simple filter whose fields all have a value, builds a
    request without a limit: it reads the pages up to the first one without
    a continuation token and returns all their items in order. *)
Theorem queryWithFilters_reads_every_page this (params : Callers.QueryInputParams)
    (filters : option Filters) script n :
  orElse (Callers.partitionKeyName params) (Writes.partitionKeyName this) ≠ "" →
  Callers.filterHasValues filters → Callers.lastPageAt script n →
  ∃ calls,
    Callers.queryWithFilters this params filters script
    = Ok (Some (pagesItems script (S n), calls)) ∧
    length calls = S n.
Proof.
  intros Hpk Hfilter Hlast. rewrite queryWithFilters_staged.
  destruct (staged_returns OpQuery (Writes.tableName this) None
              (Some {| partitionKeyName :=
                         orElse (Callers.partitionKeyName params)
                           (Writes.partitionKeyName this);
                       partitionKeyValue := Some (Callers.partitionKeyValue params);
                       sortKeyName := Callers.sortKeyName params;
                       sortKeyValue := Callers.sortKeyValue params;
                       sortKeyCondition := None |})
              filters None) as (request & b1 & -> & Hlimit);
    [| |exact Hfilter|].
  - intros _. eexists _, _. split; [reflexivity|]. split; [exact Hpk|reflexivity].
  - reflexivity.
  - cbn [requestOf].
    destruct (fetch_every_page QueryCommand QueryCommand request script n Hlimit Hlast)
      as (calls & Hfetch & Hlen).
    exists calls. split; [|done].
    unfold queryWithAggregation, queryAll. by rewrite Hfetch.
Qed.

Lemma queryGlobalSecondaryIndex_staged this
    (indexName partitionKeyName partitionKeyValue sortKeyName sortKeyValue : string)
    (filters : option Filters) (paginationOptions : option PaginationOptions) script :
  Callers.queryGlobalSecondaryIndex this indexName partitionKeyName partitionKeyValue
    sortKeyName sortKeyValue filters paginationOptions script =
  match requestOf
          (QueryBuilder.build OpQuery
             (Callers.staged (Writes.tableName this)
                (Some {| QueryBuilder.indexName := Some indexName |})
                (Some {| QueryBuilder.partitionKeyName := partitionKeyName;
                         QueryBuilder.partitionKeyValue := Some partitionKeyValue;
                         QueryBuilder.sortKeyName := Some sortKeyName;
                         QueryBuilder.sortKeyValue := Some sortKeyValue;
                         sortKeyCondition := None |})
                filters
                (Some (orElse paginationOptions
                         {| pageSize := None; QueryBuilder.lastEvaluatedKey := None;
                            sortDir := None |})))) with
  | Ok query => Ok (queryWithPagination query script)
  | Err e => Err e
  end.
Proof. by destruct filters. Qed.

(** X28. An index query that is given no page size is no single page: the
    request carries no limit, so [queryGlobalSecondaryIndex] reads the
    pages up to the first one without a continuation token and returns all
    their items and no [lastEvaluatedKey]; [queryLocalSecondaryIndex] does
    the same on the table's partition key name. *)
Theorem index_query_without_page_size this
    (indexName partitionKeyName partitionKeyValue sortKeyName sortKeyValue : string)
    (filters : option Filters) (paginationOptions : option PaginationOptions)
    script n :
  partitionKeyName ≠ "" →
  Callers.filterHasValues filters → Callers.noPageSize paginationOptions →
  Callers.lastPageAt script n →
  ∃ calls,
    Callers.queryGlobalSecondaryIndex this indexName partitionKeyName
      partitionKeyValue sortKeyName sortKeyValue filters paginationOptions script
    = Ok (Some ({| items := pagesItems script (S n); lastEvaluatedKey := None |},
                calls)) ∧
    (Writes.partitionKeyName this = partitionKeyName →
     Callers.queryLocalSecondaryIndex this indexName partitionKeyValue sortKeyName
       sortKeyValue filters paginationOptions script
     = Ok (Some ({| items := pagesItems script (S n); lastEvaluatedKey := None |},
                 calls))) ∧
    length calls = S n.
Proof.
  intros Hpk Hfilter Hsize Hlast.
  assert (Callers.queryLocalSecondaryIndex this indexName partitionKeyValue
            sortKeyName sortKeyValue filters paginationOptions script
          = Callers.queryGlobalSecondaryIndex this indexName
              (Writes.partitionKeyName this) partitionKeyValue sortKeyName
              sortKeyValue filters paginationOptions script) as Hlocal
    by reflexivity.
  rewrite Hlocal. clear Hlocal.
  destruct (staged_returns OpQuery (Writes.tableName this)
              (Some {| QueryBuilder.indexName := Some indexName |})
              (Some {| QueryBuilder.partitionKeyName := partitionKeyName;
                       QueryBuilder.partitionKeyValue := Some partitionKeyValue;
                       QueryBuilder.sortKeyName := Some sortKeyName;
                       QueryBuilder.sortKeyValue := Some sortKeyValue;
                       sortKeyCondition := None |})
              filters
              (Some (orElse paginationOptions
                       {| pageSize := None; QueryBuilder.lastEvaluatedKey := None;
                          sortDir := None |})))
    as (request & b1 & Hbuild & Hlimit); [| |exact Hfilter|].
  - intros _. eexists _, _. split; [reflexivity|]. split; [exact Hpk|reflexivity].
  - reflexivity.
  - assert (Limit request = None) as Hnone.
    { rewrite Hlimit. by destruct paginationOptions. }
    destruct (fetch_every_page QueryCommand QueryCommand request script n Hnone Hlast)
      as (calls & Hfetch & Hlen).
    exists calls.
    assert (Callers.queryGlobalSecondaryIndex this indexName partitionKeyName
              partitionKeyValue sortKeyName sortKeyValue filters paginationOptions
              script
            = Ok (Some ({| items := pagesItems script (S n);
                           lastEvaluatedKey := None |}, calls))) as Hglobal.
    { rewrite queryGlobalSecondaryIndex_staged, Hbuild. cbn [requestOf].
      unfold queryWithPagination, queryAll. by rewrite Hfetch. }
    split; [done|]. split; [|done]. by intros ->.
Qed.


End Helpers.

(** The three pages of the repository's tests end at page 2. *)
Lemma pages_lastPageAt : Callers.lastPageAt pages 2.
Proof.
  split.
  - eexists. split; reflexivity.
  - intros j r' Hj Hr'. destruct j as [|[|j]]; [| |lia]; injection Hr' as <-;
      by eexists.
Defined.

Lemma scanWithFilters_reads_every_page_witness :
  ∃ calls,
    Callers.scanWithFilters
      {| Writes.tableName := "table"; Writes.partitionKeyName := "pk";
         Writes.sortKeyName := Some "sk" |}
      (Some [("status", [LString "active"; LString "new"])]) pages
    = Ok (Some (pagesItems pages 3, calls)) ∧
    length calls = 3.
Proof.
  apply (scanWithFilters_reads_every_page
           {| Writes.tableName := "table"; Writes.partitionKeyName := "pk";
              Writes.sortKeyName := Some "sk" |}
           (Some [("status", [LString "active"; LString "new"])]) pages 2).
  - repeat constructor. discriminate.
  - exact pages_lastPageAt.
Defined.

Lemma queryWithFilters_reads_every_page_witness :
  ∃ calls,
    Callers.queryWithFilters
      {| Writes.tableName := "table"; Writes.partitionKeyName := "pk";
         Writes.sortKeyName := Some "sk" |}
      {| Callers.indexName := None; Callers.partitionKeyName := None;
         Callers.partitionKeyValue := "p"; Callers.sortKeyName := None;
         Callers.sortKeyValue := None; Callers.filterInputParams := None |}
      None pages
    = Ok (Some (pagesItems pages 3, calls)) ∧
    length calls = 3.
Proof.
  apply (queryWithFilters_reads_every_page
           {| Writes.tableName := "table"; Writes.partitionKeyName := "pk";
              Writes.sortKeyName := Some "sk" |}
           {| Callers.indexName := None; Callers.partitionKeyName := None;
              Callers.partitionKeyValue := "p"; Callers.sortKeyName := None;
              Callers.sortKeyValue := None; Callers.filterInputParams := None |}
           None pages 2).
  - discriminate.
  - exact I.
  - exact pages_lastPageAt.
Defined.

Lemma index_query_without_page_size_witness :
  ∃ calls,
    Callers.queryGlobalSecondaryIndex
      {| Writes.tableName := "table"; Writes.partitionKeyName := "pk";
         Writes.sortKeyName := Some "sk" |}
      "emailIndex" "email" "a@example.com" "sk" "s" None None pages
    = Ok (Some ({| items := pagesItems pages 3; lastEvaluatedKey := None |}, calls)) ∧
    length calls = 3.
Proof.
  destruct (index_query_without_page_size
              {| Writes.tableName := "table"; Writes.partitionKeyName := "pk";
                 Writes.sortKeyName := Some "sk" |}
              "emailIndex" "email" "a@example.com" "sk" "s" None None pages 2)
    as (calls & Hglobal & _ & Hlen).
  - discriminate.
  - exact I.
  - exact I.
  - exact pages_lastPageAt.
  - exists calls. split; [exact Hglobal|exact Hlen].
Defined.

End CallerExtras.
